(** * Lyrics synchronisation core of musicStreamingCore (frontend/script.js)

    A shallow embedding of the cue parser ([parseCue], [timeToSeconds],
    [loadAllCues]) and of the synchronisation engine ([appendLyricsIfNeeded],
    [syncLyrics], the seek-bar listener) of the ABR player, followed by the
    properties of the lyrics specification that were checked against it.

    Conventions of the embedding:
    - a JavaScript string is the list of its UTF-16 code units ([list N]);
    - a JavaScript number is [number]: [Some q] is the finite double whose
      value is the rational [q], and [None] is NaN (the infinities do not
      occur: cue times and playback times are finite); comparisons are exact,
      and the arithmetic of the code ([js_add], [js_sub], [js_mul],
      [js_div]) rounds the exact result to the nearest double ([round64]);
      a decimal literal such as [0.2] is [dec 2 10], the double nearest to
      it, and a rational that is not a double stands for no number of the
      program;
    - the sentinel index [-1] is [None : option nat];
    - the [Set] displayedCues is a [gset nat];
    - the part of the document the engine touches is a map from the line
      index [i] to the element with id [cue-i]. *)

From Stdlib Require Import QArith Qround Qabs Qpower Lqa String Ascii Sorted.
From stdpp Require Import gmap list.
From Equations.Prop Require Import Equations.

(** ** JavaScript numbers *)

Definition number := option Q.

Definition num (z : Z) : number := Some (inject_Z z).

(** The sum and the difference as real numbers, before any rounding. The
    properties use them for the sums and differences of the specification;
    the only expression of the code written with them is [cue.start - 2] in
    the reveal pass, where the rounding changes nothing for the times of a
    media element ([reveal_test_rounded] below): [cue.start - 2] is a double
    when [cue.start] is a double from 2 on, and below 2 the difference and
    its rounding are both at most 0, which every playback time has
    reached. *)
Definition num_add (a b : number) : number :=
  match a, b with
  | Some x, Some y => Some (x + y)%Q
  | _, _ => None
  end.

Definition num_sub (a b : number) : number :=
  match a, b with
  | Some x, Some y => Some (x - y)%Q
  | _, _ => None
  end.

(** [a >= b] and [a <= b]; a comparison with NaN is false. *)
Definition num_ge (a b : number) : bool :=
  match a, b with
  | Some x, Some y => Qle_bool y x
  | _, _ => false
  end.

Definition num_le (a b : number) : bool :=
  match a, b with
  | Some x, Some y => Qle_bool x y
  | _, _ => false
  end.

(** *** Double precision

    A finite double is a rational [m * 2^e] with [|m| < 2^53] and
    [-1074 <= e <= 971]. *)

(** The integer nearest to [x], a tie going to the even one. *)
Definition round_half_even (x : Q) : Z :=
  let f := Qfloor x in
  match (x - inject_Z f ?= 1 # 2)%Q with
  | Lt => f
  | Gt => (f + 1)%Z
  | Eq => if Z.even f then f else (f + 1)%Z
  end.

(** [floor (log2 a)] for [0 < a]: the difference of the bit lengths of the
    numerator and of the denominator, or one less. *)
Definition binade (a : Q) : Z :=
  let e := (Z.log2 (Qnum a) - Z.log2 (Zpos (Qden a)))%Z in
  if Qle_bool (2 ^ e) a then e else (e - 1)%Z.

(** The double nearest to [q], a tie going to the even significand: the
    rounding of every arithmetic operation and of every numeric literal.
    The unit in the last place is [2^(binade - 52)], and [2^-1074] in the
    subnormal range. (At [2^1024] and above JavaScript has [Infinity],
    which the numbers of this file leave out.) *)
Definition round64 (q : Q) : Q :=
  let q := Qred q in
  match Qnum q with
  | 0%Z => 0%Q
  | _ =>
      let a := Qabs q in
      let ulp := (2 ^ Z.max (binade a - 52) (-1074))%Q in
      let m := inject_Z (round_half_even (a / ulp)) in
      Qred (if Qle_bool 0 q then m * ulp else - (m * ulp))
  end.

(** [a + b], [a - b], [a * b] and [a / b] (for [b] other than 0) as
    JavaScript computes them. *)
Definition js_add (a b : number) : number :=
  match a, b with
  | Some x, Some y => Some (round64 (x + y))
  | _, _ => None
  end.

Definition js_sub (a b : number) : number :=
  match a, b with
  | Some x, Some y => Some (round64 (x - y))
  | _, _ => None
  end.

Definition js_mul (a b : number) : number :=
  match a, b with
  | Some x, Some y => Some (round64 (x * y))
  | _, _ => None
  end.

Definition js_div (a b : number) : number :=
  match a, b with
  | Some x, Some y => Some (round64 (x / y))
  | _, _ => None
  end.

(** The literal [0.1]: the double nearest to one tenth. *)
Definition tenth : number := Some (round64 (1 # 10)).

(** ** JavaScript strings *)

Definition code_units (s : string) : list N :=
  List.map N_of_ascii (list_ascii_of_string s).

Definition LT : N := 60.
Definition GT : N := 62.
Definition COLON : N := 58.
Definition DOT : N := 46.

(** [\d] *)
Definition is_digit (c : N) : bool := (48 <=? c)%N && (c <=? 57)%N.

Definition digit_val (c : N) : Z := (Z.of_N c - 48)%Z.

(** [\s], which is also what [trim] strips: WhiteSpace and LineTerminator. *)
Definition is_ws (c : N) : bool :=
  ((9 <=? c)%N && (c <=? 13)%N) || (c =? 32)%N || (c =? 160)%N
  || (c =? 5760)%N || ((8192 <=? c)%N && (c <=? 8202)%N)
  || (c =? 8232)%N || (c =? 8233)%N || (c =? 8239)%N || (c =? 8287)%N
  || (c =? 12288)%N || (c =? 65279)%N.

Fixpoint trimStart (s : list N) : list N :=
  match s with
  | c :: s' => if is_ws c then trimStart s' else s
  | [] => []
  end.

Definition trimEnd (s : list N) : list N := rev (trimStart (rev s)).

Definition trim (s : list N) : list N := trimEnd (trimStart s).

(** Truthiness of a string: it is not empty. *)
Definition truthy (s : list N) : bool :=
  match s with [] => false | _ :: _ => true end.

(** [s.split(/\s+/)]: [tok] collects the characters since the last
    separator, [in_ws] tells that the scan is inside a separator. *)
Fixpoint split_ws_from (in_ws : bool) (tok : list N) (s : list N)
  : list (list N) :=
  match s with
  | [] => [rev tok]
  | c :: s' =>
      if is_ws c then
        if in_ws then split_ws_from true tok s'
        else rev tok :: split_ws_from true [] s'
      else split_ws_from false (c :: tok) s'
  end.

Definition split_ws (s : list N) : list (list N) := split_ws_from false [] s.

(** [s.split(sep)] for a one-character separator. *)
Fixpoint split_on_from (sep : N) (tok : list N) (s : list N)
  : list (list N) :=
  match s with
  | [] => [rev tok]
  | c :: s' =>
      if (c =? sep)%N then rev tok :: split_on_from sep [] s'
      else split_on_from sep (c :: tok) s'
  end.

Definition split_on (sep : N) (s : list N) : list (list N) :=
  split_on_from sep [] s.

(** The longest prefix of decimal digits, as (value, number of digits, rest). *)
Fixpoint digits_from (acc : Z) (n : nat) (s : list N) : Z * nat * list N :=
  match s with
  | c :: s' =>
      if is_digit c then digits_from (10 * acc + digit_val c)%Z (S n) s'
      else (acc, n, s)
  | [] => (acc, n, [])
  end.

Definition digits (s : list N) : Z * nat * list N := digits_from 0%Z 0%nat s.

(** An optional sign: [-1] or [1], and the rest. *)
Definition sign (s : list N) : Z * list N :=
  match s with
  | 45%N :: s' => ((-1)%Z, s')
  | 43%N :: s' => (1%Z, s')
  | _ => (1%Z, s)
  end.

(** [parseInt(s, 10)]: leading white space, an optional sign, the longest run
    of decimal digits; NaN when there is no digit. *)
Definition parseInt (s : list N) : number :=
  let (sg, s1) := sign (trimStart s) in
  match digits s1 with
  | (_, O, _) => None
  | (v, S _, _) => Some (round64 (inject_Z (sg * v)))
  end.

(** The exponent part [e], [e+] or [e-] followed by digits; it is only
    consumed when at least one digit follows. *)
Definition exponent (s : list N) : Z :=
  match s with
  | c :: s' =>
      if (c =? 101)%N || (c =? 69)%N then
        let (sg, s1) := sign s' in
        match digits s1 with
        | (_, O, _) => 0%Z
        | (v, S _, _) => (sg * v)%Z
        end
      else 0%Z
  | [] => 0%Z
  end.

(** [parseFloat(s)] on finite decimal literals: leading white space, an
    optional sign, digits with an optional fraction (or a fraction alone),
    an optional exponent; NaN when no literal starts the string. The result
    is the double nearest to the value of the literal. *)
Definition parseFloat (s : list N) : number :=
  let (sg, s1) := sign (trimStart s) in
  let '(ip, ni, s2) := digits s1 in
  let '(fp, nf, s3) :=
    match s2 with
    | c :: s2' => if (c =? DOT)%N then digits s2' else (0%Z, O, s2)
    | [] => (0%Z, O, s2)
    end in
  match ni, nf with
  | O, O => None
  | _, _ =>
      let mant := (inject_Z ip + inject_Z fp / inject_Z (10 ^ Z.of_nat nf))%Q in
      Some (round64 (inject_Z sg * mant * Qpower 10 (exponent s3)))
  end.

(** ** Cue parser *)

(** The raw cue of the text track, as the parser reads it. *)
Module VTTCue.
Record t := mk { startTime : number; endTime : number; text : list N }.
End VTTCue.

Record word := Word { time : number; text : list N }.

(** The parsed cue; [end_] is the field [end]. *)
Record cue := Cue {
  index : nat;
  start : number;
  end_ : number;
  words : list word
}.

Definition timeToSeconds (timeStr : list N) : number :=
  let parts := split_on COLON timeStr in
  let seconds := num 0 in
  match parts with
  | [p0; p1; p2] =>
      let seconds := js_add seconds (js_mul (parseInt p0) (num 3600)) in
      let seconds := js_add seconds (js_mul (parseInt p1) (num 60)) in
      js_add seconds (parseFloat p2)
  | [p0; p1] =>
      let seconds := js_add seconds (js_mul (parseInt p0) (num 60)) in
      js_add seconds (parseFloat p1)
  | _ => seconds
  end.

(** [\d{2}:\d{2}:\d{2}\.\d{3}] at the head of [s]: the twelve matched
    characters and the rest. *)
Definition match_stamp (s : list N) : option (list N * list N) :=
  match s with
  | h1 :: h2 :: c1 :: m1 :: m2 :: c2 :: s1 :: s2 :: d :: f1 :: f2 :: f3 :: rest =>
      if is_digit h1 && is_digit h2 && (c1 =? COLON)%N
         && is_digit m1 && is_digit m2 && (c2 =? COLON)%N
         && is_digit s1 && is_digit s2 && (d =? DOT)%N
         && is_digit f1 && is_digit f2 && is_digit f3
      then Some ([h1; h2; c1; m1; m2; c2; s1; s2; d; f1; f2; f3], rest)
      else None
  | _ => None
  end.

(** The longest prefix without [<], and the rest. *)
Fixpoint span_not_lt (s : list N) : list N * list N :=
  match s with
  | c :: s' =>
      if (c =? LT)%N then ([], s)
      else let (tok, rest) := span_not_lt s' in (c :: tok, rest)
  | [] => ([], [])
  end.

(** A match of [/<(\d{2}:\d{2}:\d{2}\.\d{3})>([^<]+)/] that starts at the
    head of [s]: group 1, group 2 and what follows the match. *)
Definition match_at (s : list N) : option (list N * list N * list N) :=
  match s with
  | c :: s1 =>
      if (c =? LT)%N then
        match match_stamp s1 with
        | Some (stamp, g :: s2) =>
            if (g =? GT)%N then
              match span_not_lt s2 with
              | ([], _) => None
              | (tok, rest) => Some (stamp, tok, rest)
              end
            else None
        | _ => None
        end
      else None
  | [] => None
  end.

(** [wordRegex.exec(text)] where [s] is the text from [lastIndex] on: the
    leftmost match, whose end is the next [lastIndex]. *)
Fixpoint exec (s : list N) : option (list N * list N * list N) :=
  match match_at s with
  | Some m => Some m
  | None => match s with [] => None | _ :: s' => exec s' end
  end.

(** A match ends strictly after the place the search started from, so the
    [while] loop of [parseCue] runs out of text. *)
Lemma span_not_lt_length (s tok rest : list N) :
  span_not_lt s = (tok, rest) -> (length rest <= length s)%nat.
Proof.
  revert tok rest. induction s as [|c s IH]; intros tok rest; simpl.
  - intros [= <- <-]. simpl. lia.
  - destruct (c =? LT)%N.
    + intros [= <- <-]. simpl. lia.
    + destruct (span_not_lt s) as [tok' rest'] eqn:E.
      intros [= <- <-]. specialize (IH _ _ eq_refl). lia.
Qed.

Lemma match_stamp_length (s stamp rest : list N) :
  match_stamp s = Some (stamp, rest) -> (length rest <= length s)%nat.
Proof.
  unfold match_stamp.
  do 12 (destruct s as [|? s]; [discriminate|]).
  match goal with |- context [if ?b then _ else _] => destruct b end;
    [|discriminate].
  intros [= <- <-]. simpl. lia.
Qed.

Lemma match_at_length (s stamp tok rest : list N) :
  match_at s = Some (stamp, tok, rest) -> (length rest < length s)%nat.
Proof.
  unfold match_at. destruct s as [|c s]; [discriminate|].
  destruct (c =? LT)%N; [|discriminate].
  destruct (match_stamp s) as [[st [|g s2]]|] eqn:E; try discriminate.
  destruct (g =? GT)%N; [|discriminate].
  destruct (span_not_lt s2) as [[|t tk] r] eqn:E2; [discriminate|].
  intros [= <- <- <-].
  apply match_stamp_length in E. apply span_not_lt_length in E2.
  simpl in *. lia.
Qed.

Lemma exec_length (s stamp tok rest : list N) :
  exec s = Some (stamp, tok, rest) -> (length rest < length s)%nat.
Proof.
  induction s as [|c s IH]; cbn [exec].
  - discriminate.
  - destruct (match_at (c :: s)) as [m|] eqn:E.
    + intros [= ->]. apply match_at_length in E. exact E.
    + intros H. specialize (IH H). simpl. lia.
Qed.

Definition inspect {A : Type} (x : A) : {y : A | x = y} := exist _ x eq_refl.

(** The loop [while ((match = wordRegex.exec(text)) !== null)] of [parseCue]:
    [s] is the text from [lastIndex] on, [ws] is [parsed.words]. *)
Equations? exec_loop (s : list N) (ws : list word) (foundWords : bool)
  : list word * bool by wf (length s) lt :=
  exec_loop s ws foundWords with inspect (exec s) => {
    | exist _ (Some (stamp, tok, rest)) H =>
        exec_loop rest
          (let wordText := trim tok in
           if truthy wordText
           then ws ++ [Word (timeToSeconds stamp) wordText]
           else ws)
          true
    | exist _ None H => (ws, foundWords) }.
Proof. apply exec_length in H. exact H. Qed.

Definition parseCue (c : VTTCue.t) (cueIndex : nat) : cue :=
  let text := VTTCue.text c in
  let (ws, foundWords) := exec_loop text [] false in
  let ws :=
    if negb foundWords && truthy (trim text) then
      ws ++ List.map (fun w => Word (VTTCue.startTime c) (trim w))
              (List.filter (fun w => truthy (trim w)) (split_ws text))
    else ws in
  Cue cueIndex (VTTCue.startTime c) (VTTCue.endTime c) ws.

(** The loop of [loadAllCues]; [i] is the loop counter. *)
Fixpoint loadAllCues_from (i : nat) (cues : list VTTCue.t) (allCues : list cue)
  : list cue :=
  match cues with
  | [] => allCues
  | c :: cues' =>
      let parsedCue := parseCue c i in
      loadAllCues_from (S i) cues'
        (if (0 <? length (words parsedCue))%nat then allCues ++ [parsedCue]
         else allCues)
  end.

Definition loadAllCues (cues : list VTTCue.t) : list cue :=
  loadAllCues_from 0 cues [].

(** ** Synchronisation engine *)

(** The element [cue-i]: its classes [active] and [played], and for each of
    its [.word] spans whether it carries the class [active]. *)
Record element := Element {
  cls_active : bool;
  cls_played : bool;
  word_active : list bool
}.

(** A pending [setTimeout] callback of [syncLyrics]: its delay in
    milliseconds and the line whose element it closes over. *)
Record timer := Timer { delay : N; target : nat }.

Record state := State {
  displayedCues : gset nat;
  currentLyricIndex : option nat;
  previousLyricIndex : option nat;
  document : gmap nat element;
  timers : list timer
}.

Definition init : state := State ∅ None None ∅ [].

(** [getElementById] returns the first element with the id, so a second
    element with an id already in the document is never looked up. *)
Definition appendLyricLine (c : cue) (index : nat) (doc : gmap nat element)
  : gmap nat element :=
  match doc !! index with
  | Some _ => doc
  | None => <[index := Element false false (List.map (fun _ => false) (words c))]> doc
  end.

(** The body of [allCues.forEach((cue, index) => ...)], which is the same in
    [appendLyricsIfNeeded] and in the seek-bar listener. The difference
    [cue.start - 2] is the exact one (see [num_sub]). *)
Fixpoint reveal_loop (curTime : number) (index : nat) (cs : list cue)
  (st : state) : state :=
  match cs with
  | [] => st
  | c :: cs' =>
      let shouldDisplay := num_ge curTime (num_sub (start c) (num 2)) in
      let alreadyDisplayed := bool_decide (index ∈ displayedCues st) in
      reveal_loop curTime (S index) cs'
        (if shouldDisplay && negb alreadyDisplayed then
           State ({[index]} ∪ displayedCues st)
                 (currentLyricIndex st) (previousLyricIndex st)
                 (appendLyricLine c index (document st)) (timers st)
         else st)
  end.

Definition appendLyricsIfNeeded (allCues : list cue) (curTime : number)
  (st : state) : state :=
  match allCues with
  | [] => st
  | _ => reveal_loop curTime 0 allCues st
  end.

(** The test of the active-line loop,
    [curTime >= cue.start && curTime <= cue.end + 0.1]: the upper end of the
    window is the double that the addition yields. *)
Definition in_window (curTime : number) (c : cue) : bool :=
  num_ge curTime (start c) && num_le curTime (js_add (end_ c) tenth).

(** The [for] loop of [syncLyrics] that sets [activeIndex]; [i] is the loop
    counter and [cs] the cues from [i] on. *)
Fixpoint find_active (curTime : number) (displayed : gset nat) (i : nat)
  (cs : list cue) : option nat :=
  match cs with
  | [] => None
  | c :: cs' =>
      if bool_decide (i ∈ displayed) && in_window curTime c then Some i
      else find_active curTime displayed (S i) cs'
  end.

Definition shouldHighlight (curTime : number) (c : cue) (i : nat) (w : word)
  : bool :=
  num_ge curTime (time w)
  || ((S i =? length (words c))%nat && num_ge curTime (js_sub (time w) tenth)).

(** [cue.words.forEach((wordCue, i) => ...)]: the toggle of the word spans;
    a position beyond the spans is left alone, as [<[i:=_]>] does. *)
Fixpoint toggle_loop (curTime : number) (c : cue) (i : nat) (ws : list word)
  (spans : list bool) : list bool :=
  match ws with
  | [] => spans
  | w :: ws' =>
      toggle_loop curTime c (S i) ws' (<[i := shouldHighlight curTime c i w]> spans)
  end.

Definition all_words (b : bool) (e : element) : list bool :=
  List.map (fun _ => b) (word_active e).

(** The three blocks of [syncLyrics] after the choice of [activeIndex].
    First, inside [if (activeIndex !== currentLyricIndex)]: the words of the
    line [previousLyricIndex] are all highlighted and its completion is
    handed to [setTimeout(..., 100)]. *)
Definition force_previous (activeIndex : option nat) (st : state)
  : gmap nat element * list timer :=
  match previousLyricIndex st with
  | Some p =>
      if bool_decide (Some p <> activeIndex) then
        match document st !! p with
        | Some prevElement =>
            (<[p := Element (cls_active prevElement) (cls_played prevElement)
                            (all_words true prevElement)]> (document st),
             timers st ++ [Timer 100 p])
        | None => (document st, timers st)
        end
      else (document st, timers st)
  | None => (document st, timers st)
  end.

(** Second, in the same [if]: the new active line gets the class [active]
    and loses the class [played]. *)
Definition mark_active (activeIndex : option nat) (doc : gmap nat element)
  : gmap nat element :=
  match activeIndex with
  | Some a =>
      match doc !! a with
      | Some activeElement =>
          <[a := Element true false (word_active activeElement)]> doc
      | None => doc
      end
  | None => doc
  end.

(** Third, after the [if]: the word spans of the active line are toggled. *)
Definition highlight (allCues : list cue) (curTime : number)
  (activeIndex : option nat) (st : state) : state :=
  match activeIndex with
  | Some a =>
      match allCues !! a, document st !! a with
      | Some c, Some activeElement =>
          State (displayedCues st) (currentLyricIndex st)
                (previousLyricIndex st)
                (<[a := Element (cls_active activeElement)
                                (cls_played activeElement)
                                (toggle_loop curTime c 0 (words c)
                                   (word_active activeElement))]>
                   (document st))
                (timers st)
      | _, _ => st
      end
  | None => st
  end.

Definition syncLyrics (allCues : list cue) (curTime : number) (st : state)
  : state :=
  match allCues with
  | [] => st
  | _ =>
      let st := appendLyricsIfNeeded allCues curTime st in
      let activeIndex := find_active curTime (displayedCues st) 0 allCues in
      let st :=
        if bool_decide (activeIndex <> currentLyricIndex st) then
          let '(doc, tms) := force_previous activeIndex st in
          State (displayedCues st) activeIndex (currentLyricIndex st)
                (mark_active activeIndex doc) tms
        else st in
      highlight allCues curTime activeIndex st
  end.

(** The [input] listener of the seek bar, after [newTime] was computed and
    assigned to [audio.currentTime]. *)
Definition seekBar_input (allCues : list cue) (newTime : number) (st : state)
  : state :=
  match allCues with
  | [] => st
  | _ => reveal_loop newTime 0 allCues st
  end.

(** The callback that [syncLyrics] hands to [setTimeout], run when the
    [k]-th pending timer fires. *)
Definition timeout (k : nat) (st : state) : state :=
  match timers st !! k with
  | Some tm =>
      State (displayedCues st) (currentLyricIndex st) (previousLyricIndex st)
            (alter (fun e => Element false true (all_words false e))
                   (target tm) (document st))
            (delete k (timers st))
  | None => st
  end.

(** What the page reacts to: [timeupdate] of the audio element, [input] of
    the seek bar, and a timer that fires. *)
Inductive event :=
| TimeUpdate (curTime : number)
| SeekInput (newTime : number)
| Timeout (k : nat).

Definition step (allCues : list cue) (st : state) (ev : event) : state :=
  match ev with
  | TimeUpdate curTime => syncLyrics allCues curTime st
  | SeekInput newTime => seekBar_input allCues newTime st
  | Timeout k => timeout k st
  end.

Definition run (allCues : list cue) (evs : list event) (st : state) : state :=
  fold_left (step allCues) evs st.

(** Is word [i] of line [a] highlighted in the document? *)
Definition word_marked (st : state) (a i : nat) : bool :=
  match document st !! a with
  | Some e => match word_active e !! i with Some b => b | None => false end
  | None => false
  end.

Definition played (st : state) (a : nat) : bool :=
  match document st !! a with
  | Some e => cls_played e
  | None => false
  end.

(** [array.findIndex(p)], with [None] for [-1]. *)
Fixpoint findIndex {A : Type} (p : A -> bool) (l : list A) : option nat :=
  match l with
  | [] => None
  | x :: l' => if p x then Some 0%nat else S <$> findIndex p l'
  end.

(** ** Numbers as strings *)

(** The decimal digits of [n], most significant first; [fuel] bounds their
    number. *)
Fixpoint N_digits (fuel : nat) (n : N) : list N :=
  match fuel with
  | O => []
  | S fuel' =>
      if (n <? 10)%N then [(48 + n)%N]
      else N_digits fuel' (n / 10) ++ [(48 + n mod 10)%N]
  end.

(** [String(z)] for an integer [z] below 2^53 in size, where every integer
    is a double and JavaScript writes all its digits. *)
Definition toString (z : Z) : list N :=
  let n := Z.abs_N z in
  let ds := N_digits (S (N.to_nat (N.log2 n))) n in
  if (z <? 0)%Z then 45%N :: ds else ds.

(** ** Display of the playback time *)

(** [s.padStart(targetLength, pad)] for a one-character [pad]. *)
Definition padStart (targetLength : nat) (pad : N) (s : list N) : list N :=
  repeat pad (targetLength - length s) ++ s.

(** Rounding towards zero. *)
Definition Qtrunc (x : Q) : Z :=
  if Qle_bool 0 x then Qfloor x else Qceiling x.

(** [x % y] for [y] other than 0: the remainder has the sign of [x], and it
    is exact. *)
Definition Qrem (x y : Q) : Q := (x - y * inject_Z (Qtrunc (x / y)))%Q.

(** Whether the [k] digits [s] followed by zeros up to [n] digits read back
    as the double [v]. *)
Definition reads_back (v : Z) (n k s : Z) : bool :=
  (10 ^ (k - 1) <=? s)%Z && (s <? 10 ^ k)%Z
  && Qeq_bool (round64 (inject_Z (s * 10 ^ (n - k)))) (inject_Z v).

(** The digits [s] of length [k] for the double [v] and the length [n], if
    there are any: the closest of the candidates, the even one on a tie. *)
Definition digits_of_length (v : Z) (n k : Z) : option Z :=
  let p := (10 ^ (n - k))%Z in
  let s0 := (v / p)%Z in
  let s1 := (s0 + 1)%Z in
  match reads_back v n k s0, reads_back v n k s1 with
  | true, false => Some s0
  | false, true => Some s1
  | true, true =>
      match (v - s0 * p ?= s1 * p - v)%Z with
      | Lt => Some s0
      | Gt => Some s1
      | Eq => if Z.even s0 then Some s0 else Some s1
      end
  | false, false => None
  end.

(** The search for the least number of digits [k], from [k] on. *)
Fixpoint shortest_from (fuel : nat) (v : Z) (nd k : Z) : option (Z * Z * Z) :=
  match fuel with
  | O => None
  | S fuel' =>
      match digits_of_length v nd k with
      | Some s => Some (s, k, nd)
      | None =>
          match digits_of_length v (nd + 1) k with
          | Some s => Some (s, k, (nd + 1)%Z)
          | None => shortest_from fuel' v nd (k + 1)
          end
      end
  end.

Definition number_of_digits (v : Z) : Z :=
  Z.of_nat (length (toString v)).

(** [String(v)] for a double [v] that is an integer of 2^53 or more: the
    least number of digits that read back as [v], followed by zeros, and in
    exponent notation from 10^21 on. *)
Definition big_toString (v : Z) : list N :=
  match shortest_from 17 v (number_of_digits v) 1 with
  | Some (s, k, n) =>
      let ds := toString s in
      if (n <=? 21)%Z then ds ++ repeat 48%N (Z.to_nat (n - k))
      else
        match ds with
        | d :: ds' =>
            d :: (match ds' with [] => [] | _ => DOT :: ds' end)
              ++ [101%N; 43%N] ++ toString (n - 1)
        | [] => []
        end
  | None => []
  end.

(** [String(z)] for a double [z] that is an integer. *)
Definition Number_toString (z : Z) : list N :=
  if (Z.abs z <? 2 ^ 53)%Z then toString z
  else if (z <? 0)%Z then 45%N :: big_toString (- z) else big_toString z.

(** [seconds / 60] is a rounded quotient; the remainder [seconds % 60] is
    exact. *)
Definition formatTime (seconds : number) : list N :=
  match seconds with
  | None => code_units "0:00"
  | Some q =>
      let min := Qfloor (round64 (q / 60)) in
      let sec := Qfloor (Qrem q 60) in
      Number_toString min ++ COLON :: padStart 2 48%N (Number_toString sec)
  end.

(** ** The first variant of the player

    The file holds two variants of the player. The first one (without the
    quality selector) renders every line at once and has its own
    [syncLyrics]; its regular-expression loop and [timeToSeconds] are the
    ones above. *)

(** [a < b]; a comparison with NaN is false. *)
Definition num_lt (a b : number) : bool :=
  match a, b with
  | Some x, Some y => negb (Qle_bool y x)
  | _, _ => false
  end.

Module Basic.

(** [currentCue] of [processCue]: no [index] field. *)
Record cue := Cue {
  start : number;
  end_ : number;
  words : list word
}.

Record state := State {
  lyrics : list cue;
  currentLyricIndex : option nat;
  document : gmap nat element
}.

(** The page before any cue is loaded. *)
Definition init : state := State [] None ∅.

(** [processCue(cue)], which pushes to [lyrics]. *)
Definition processCue (c : VTTCue.t) (lyrics : list cue) : list cue :=
  let text := VTTCue.text c in
  let (ws, foundWords) := exec_loop text [] false in
  let ws :=
    if negb foundWords && truthy (trim text) then
      ws ++ List.map (fun w => Word (VTTCue.startTime c) (trim w))
              (List.filter (fun w => truthy (trim w)) (split_ws text))
    else ws in
  if (0 <? length ws)%nat
  then lyrics ++ [Cue (VTTCue.startTime c) (VTTCue.endTime c) ws]
  else lyrics.

(** The loop [lyrics.forEach((cue, index) => ...)] of [renderLyrics], on the
    emptied [lyricsDisplay]. *)
Fixpoint render_loop (index : nat) (ls : list cue) (doc : gmap nat element)
  : gmap nat element :=
  match ls with
  | [] => doc
  | c :: ls' =>
      render_loop (S index) ls'
        (match doc !! index with
         | Some _ => doc
         | None =>
             <[index := Element false false (List.map (fun _ => false) (words c))]> doc
         end)
  end.

(** [renderLyrics()]: with no line, only the message "No lyrics found". *)
Definition renderLyrics (ls : list cue) : gmap nat element :=
  render_loop 0 ls ∅.

(** [loadCuesFromTrack(track)], with [cues] for [track.cues]. *)
Definition loadCuesFromTrack (cues : list VTTCue.t) (st : state) : state :=
  match cues with
  | [] => st
  | _ =>
      let ls := fold_left (fun l c => processCue c l) cues [] in
      State ls (currentLyricIndex st) (renderLyrics ls)
  end.

(** The test of [lyrics.findIndex]: [curTime >= c.start && curTime < c.end]. *)
Definition in_span (curTime : number) (c : cue) : bool :=
  num_ge curTime (start c) && num_lt curTime (end_ c).

(** [cue.words.forEach((wc, i) => ...)]: the toggle of the word spans. *)
Fixpoint toggle_loop (curTime : number) (i : nat) (ws : list word)
  (spans : list bool) : list bool :=
  match ws with
  | [] => spans
  | wc :: ws' =>
      toggle_loop curTime (S i) ws' (<[i := num_ge curTime (time wc)]> spans)
  end.

Definition syncLyrics (curTime : number) (st : state) : state :=
  match lyrics st with
  | [] => st
  | _ =>
      let activeIndex := findIndex (in_span curTime) (lyrics st) in
      let st :=
        match activeIndex with
        | Some a =>
            if bool_decide (activeIndex <> currentLyricIndex st) then
              let doc :=
                match currentLyricIndex st with
                | Some p =>
                    match document st !! p with
                    | Some prev =>
                        <[p := Element false true (all_words false prev)]>
                          (document st)
                    | None => document st
                    end
                | None => document st
                end in
              match doc !! a with
              | Some active =>
                  State (lyrics st) (Some a)
                        (<[a := Element true false (word_active active)]> doc)
              | None => State (lyrics st) (currentLyricIndex st) doc
              end
            else st
        | None => st
        end in
      match activeIndex with
      | Some a =>
          match lyrics st !! a, document st !! a with
          | Some c, Some active =>
              State (lyrics st) (currentLyricIndex st)
                    (<[a := Element (cls_active active) (cls_played active)
                                    (toggle_loop curTime 0 (words c)
                                       (word_active active))]>
                       (document st))
          | _, _ => st
          end
      | None => st
      end
  end.

(** What this variant reacts to: cues that become available on the text
    track, and [timeupdate] of the audio element. *)
Inductive event :=
| CuesLoaded (cues : list VTTCue.t)
| TimeUpdate (curTime : number).

Definition step (st : state) (ev : event) : state :=
  match ev with
  | CuesLoaded cues => loadCuesFromTrack cues st
  | TimeUpdate curTime => syncLyrics curTime st
  end.

Definition run (evs : list event) (st : state) : state :=
  fold_left step evs st.

Definition word_marked (st : state) (a i : nat) : bool :=
  match document st !! a with
  | Some e => match word_active e !! i with Some b => b | None => false end
  | None => false
  end.

End Basic.

(** ** The quality selector of the second variant *)

(** [a === b] on numbers; NaN equals nothing. *)
Definition num_eqb (a b : number) : bool :=
  match a, b with
  | Some x, Some y => Qeq_bool x y
  | _, _ => false
  end.

(** [String(n)] for a number that is NaN or an integer. *)
Definition number_toString (n : number) : list N :=
  match n with
  | None => code_units "NaN"
  | Some q => Number_toString (Qfloor q)
  end.

(** [Math.round(x)]: the integer nearest to [x], halves rounded up. *)
Definition round (x : number) : number :=
  match x with
  | Some q => Some (inject_Z (Qfloor (q + (1 # 2))))
  | None => None
  end.

(** [array[n]]: defined for an integer [n] within the bounds. *)
Definition array_get {A : Type} (l : list A) (n : number) : option A :=
  match n with
  | Some q =>
      if Qeq_bool q (inject_Z (Qfloor q)) && Qle_bool 0 q
      then l !! Z.to_nat (Qfloor q)
      else None
  | None => None
  end.

Definition hex_val (c : N) : option Z :=
  if is_digit c then Some (Z.of_N c - 48)%Z
  else if (97 <=? c)%N && (c <=? 102)%N then Some (Z.of_N c - 87)%Z
  else if (65 <=? c)%N && (c <=? 70)%N then Some (Z.of_N c - 55)%Z
  else None.

(** The longest prefix of hexadecimal digits, as (value, number of digits). *)
Fixpoint hex_from (acc : Z) (n : nat) (s : list N) : Z * nat :=
  match s with
  | c :: s' =>
      match hex_val c with
      | Some v => hex_from (16 * acc + v)%Z (S n) s'
      | None => (acc, n)
      end
  | [] => (acc, n)
  end.

(** [parseInt(s)] without a radix: base 16 after the prefix [0x] or [0X],
    base 10 otherwise. The strings it reads are the values of the options,
    whose integers are doubles. *)
Definition parseInt_auto (s : list N) : number :=
  let (sg, s1) := sign (trimStart s) in
  match s1 with
  | 48%N :: x :: s2 =>
      if (x =? 120)%N || (x =? 88)%N then
        match hex_from 0 0 s2 with
        | (_, O) => None
        | (v, S _) => num (sg * v)
        end
      else
        match digits s1 with
        | (_, O, _) => None
        | (v, S _, _) => num (sg * v)%Z
        end
  | _ =>
      match digits s1 with
      | (_, O, _) => None
      | (v, S _, _) => num (sg * v)%Z
      end
  end.

Module Quality.

(** An [option] element of the selector. *)
Record option_el := Option {
  value : list N;
  textContent : list N;
  selected : bool
}.

(** A quality level of the player; only its bitrate is read. *)
Record level := Level { bitrate : number }.

Definition kbps (l : level) : number :=
  round (js_div (bitrate l) (num 1000)).

(** [populateQualitySelector(levels)] when the selector exists: the options
    it leaves in the emptied selector. *)
Definition populateQualitySelector (levels : list level) : list option_el :=
  Option (code_units "-1") (code_units "Auto") true
  :: imap (fun index l =>
             Option (toString (Z.of_nat index))
                    (number_toString (kbps l) ++ code_units "kbps")
                    false) levels.

(** How the [change] listener ends: normally, or with the TypeError of
    reading [bitrate] of [undefined]; either way with the value it left in
    [hls.currentLevel]. *)
Inductive outcome :=
| Done (currentLevel : number)
| TypeError (currentLevel : number).

(** The [change] listener of the selector when [hls] exists, for the value
    [e.target.value]. *)
Definition on_change (target_value : list N) (levels : list level) : outcome :=
  let selectedLevel := parseInt_auto target_value in
  if num_eqb selectedLevel (num (-1)) then Done (num (-1))
  else
    match array_get levels selectedLevel with
    | Some _ => Done selectedLevel
    | None => TypeError selectedLevel
    end.

(** [updateQualityDisplay(levelIndex)] when the selector exists: the string
    assigned to [qualitySelector.value]. *)
Definition updateQualityDisplay (currentLevel : number) (levelIndex : nat)
  : list N :=
  if num_eqb currentLevel (num (-1)) then code_units "-1"
  else toString (Z.of_nat levelIndex).

End Quality.

(** ** Reference definitions used to state the properties *)

Definition starts_word (s : list N) : bool :=
  match s with
  | c :: _ => negb (is_ws c)
  | [] => false
  end.

(** The white-space delimited tokens of a text: its maximal runs of
    characters that are not white space, from left to right. A character that
    is not white space joins the token that starts right after it, or is a
    token of its own when white space or the end of the text follows. *)
Fixpoint ws_tokens (s : list N) : list (list N) :=
  match s with
  | [] => []
  | c :: s' =>
      if is_ws c then ws_tokens s'
      else if starts_word s' then
        match ws_tokens s' with
        | t :: ts => (c :: t) :: ts
        | [] => [[c]]
        end
      else [c] :: ws_tokens s'
  end.

(** Every match of the word regular expression from [s] on has a token
    that is empty once trimmed. *)
Inductive blank_matches : list N -> Prop :=
| blank_done (s : list N) :
    exec s = None -> blank_matches s
| blank_more (s stamp tok rest : list N) :
    exec s = Some (stamp, tok, rest) -> trim tok = [] ->
    blank_matches rest -> blank_matches s.

Definition degenerate_cue : VTTCue.t :=
  VTTCue.mk (num 10) (num 14) (code_units "<00:00:10.000> ").

Definition plain_cue : VTTCue.t :=
  VTTCue.mk (num 3) (num 14) (code_units "  plain  words here ").

(** A double that is not negative and below 2^53: [n / 2^k] with
    [0 <= n < 2^53] and [0 <= k <= 1074]. *)
Definition small_double (q : Q) : Prop :=
  exists n k : Z,
    (0 <= n < 9007199254740992)%Z /\ (0 <= k <= 1074)%Z
    /\ (q == inject_Z n / 2 ^ k)%Q.

(** A decimal literal such as [11.5 = dec 115 10]: the double nearest to
    it. *)
Definition dec (n : Z) (d : positive) : number := Some (round64 (n # d)).


Definition adjacent_cues : list cue :=
  loadAllCues
    [VTTCue.mk (num 0) (num 5) (code_units "one");
     VTTCue.mk (num 5) (num 10) (code_units "two")].

(** The tie-break as the specification words it: whenever a revealed line has
    the tick time in its window, the line made active has an index at least
    as high. *)
Definition highest_index_wins (allCues : list cue) (t : number) (st : state)
  : Prop :=
  forall (i : nat) (c : cue),
    allCues !! i = Some c ->
    i ∈ displayedCues (syncLyrics allCues t st) ->
    in_window t c = true ->
    exists a : nat,
      currentLyricIndex (syncLyrics allCues t st) = Some a /\ (i <= a)%nat.

(** Completion on seek as the specification words it, read generously: the
    line that was active before a seek to [T] and is not active after it is
    marked played by the seek listener, or at the latest by the tick at [T]
    that follows it, without waiting for a timer. *)
Definition seek_completes_active (allCues : list cue) (T : number) (st : state)
  : Prop :=
  forall a : nat,
    currentLyricIndex st = Some a ->
    currentLyricIndex (syncLyrics allCues T (seekBar_input allCues T st)) <> Some a ->
    played (seekBar_input allCues T st) a = true
    \/ played (syncLyrics allCues T (seekBar_input allCues T st)) a = true.


(** A cue text made of well-formed markers: each entry is a time stamp
    [hh:mm:ss.ms] and the token that follows its marker. *)
Record timed_word := TimedWord {
  hh : nat; mm : nat; ss : nat; ms : nat;
  token : list N
}.

Definition digit_char (d : nat) : N := N.of_nat (48 + d).

Definition two_digits (n : nat) : list N :=
  [digit_char (n / 10); digit_char (n mod 10)].

Definition three_digits (n : nat) : list N :=
  [digit_char (n / 100); digit_char (n / 10 mod 10); digit_char (n mod 10)].

Definition stamp_of (e : timed_word) : list N :=
  two_digits (hh e) ++ COLON :: two_digits (mm e) ++ COLON ::
  two_digits (ss e) ++ DOT :: three_digits (ms e).

Definition marker (e : timed_word) : list N :=
  LT :: stamp_of e ++ GT :: token e.

Definition marked_text (es : list timed_word) : list N := flat_map marker es.

Definition well_formed (e : timed_word) : Prop :=
  (hh e < 100)%nat /\ (mm e < 100)%nat /\ (ss e < 100)%nat /\ (ms e < 1000)%nat
  /\ token e <> [] /\ ~ In LT (token e).

(** hours x 3600 + minutes x 60 + seconds in double arithmetic: [whole] is
    hours x 3600 + minutes x 60, an integer, and the seconds [s] with their
    milliseconds [f] are the double nearest to [s + f / 1000]; their sum is
    rounded once more. *)
Definition double_seconds (whole s f : Z) : number :=
  Some (round64 (inject_Z whole + round64 (inject_Z s + inject_Z f / 1000))).

(** The same sum as a real number. *)
Definition exact_seconds (whole s f : Z) : Q :=
  (inject_Z whole + inject_Z s + inject_Z f / 1000)%Q.

Definition seconds_of (e : timed_word) : number :=
  double_seconds (Z.of_nat (hh e * 3600 + mm e * 60))
                 (Z.of_nat (ss e)) (Z.of_nat (ms e)).

Definition seconds_exact (e : timed_word) : Q :=
  exact_seconds (Z.of_nat (hh e * 3600 + mm e * 60))
                (Z.of_nat (ss e)) (Z.of_nat (ms e)).

Definition expected_words (es : list timed_word) : list word :=
  flat_map (fun e =>
              if truthy (trim (token e))
              then [Word (seconds_of e) (trim (token e))]
              else []) es.

(** Equality of JavaScript numbers as values. *)
Definition num_eq (a b : number) : Prop :=
  match a, b with
  | Some x, Some y => (x == y)%Q
  | None, None => True
  | _, _ => False
  end.

Definition word_eq (w v : word) : Prop :=
  num_eq (time w) (time v) /\ text w = text v.

(** The successive matches of the word regular expression in a text, as the
    pairs of the captured time stamp and token. *)
Inductive all_matches : list N -> list (list N * list N) -> Prop :=
| matches_done (s : list N) :
    exec s = None -> all_matches s []
| matches_more (s stamp tok rest : list N) (ms : list (list N * list N)) :
    exec s = Some (stamp, tok, rest) -> all_matches rest ms ->
    all_matches s ((stamp, tok) :: ms).

(** The seconds that a time stamp [h1 h2 : m1 m2 : s1 s2 . f1 f2 f3] denotes:
    hours x 3600 + minutes x 60 + seconds, with the milliseconds, in double
    arithmetic and as a real number. *)
Definition stamp_seconds (stamp : list N) : number :=
  match stamp with
  | [h1; h2; _; m1; m2; _; s1; s2; _; f1; f2; f3] =>
      double_seconds ((10 * digit_val h1 + digit_val h2) * 3600
                      + (10 * digit_val m1 + digit_val m2) * 60)
                     (10 * digit_val s1 + digit_val s2)
                     (100 * digit_val f1 + 10 * digit_val f2 + digit_val f3)
  | _ => None
  end.

Definition stamp_exact (stamp : list N) : Q :=
  match stamp with
  | [h1; h2; _; m1; m2; _; s1; s2; _; f1; f2; f3] =>
      exact_seconds ((10 * digit_val h1 + digit_val h2) * 3600
                     + (10 * digit_val m1 + digit_val m2) * 60)
                    (10 * digit_val s1 + digit_val s2)
                    (100 * digit_val f1 + 10 * digit_val f2 + digit_val f3)
  | _ => 0
  end.

Definition matched_words (ms : list (list N * list N)) : list word :=
  flat_map (fun m =>
              if truthy (trim m.2)
              then [Word (stamp_seconds m.1) (trim m.2)]
              else []) ms.

(** A marker in the [MM:SS.mmm] form. *)
Definition short_marker_cue : VTTCue.t :=
  VTTCue.mk (num 3) (num 14) (code_units "<00:10.000>Hello").

(** ** Auxiliary definitions of the proofs *)

(** What [split] followed by the filter on non-empty pieces leaves, when the
    scan has the unfinished token [rev tok] in hand. *)
Definition glue (pre : list N) (s : list N) : list (list N) :=
  if starts_word s then
    match ws_tokens s with
    | t :: ts => (pre ++ t) :: ts
    | [] => [pre]
    end
  else
    match pre with
    | [] => ws_tokens s
    | _ :: _ => pre :: ws_tokens s
    end.

(** Membership in a concrete set, decided by evaluation. *)
Ltac decide_by_compute := apply (bool_decide_unpack _); vm_compute; exact I.

(** The active line, if any, is revealed. *)
Definition current_revealed (st : state) : Prop :=
  forall a : nat, currentLyricIndex st = Some a -> a ∈ displayedCues st.

(** Every pending callback waits the grace delay. *)
Definition timers_deferred (st : state) : Prop :=
  Forall (fun tm => delay tm = 100%N) (timers st).



(** The words the loop pushes for a text made of markers. *)
Definition pushed_words (es : list timed_word) : list word :=
  flat_map (fun e =>
              if truthy (trim (token e))
              then [Word (timeToSeconds (stamp_of e)) (trim (token e))]
              else []) es.

(** The words the loop pushes for a list of matches. *)
Definition pushed_matches (ms : list (list N * list N)) : list word :=
  flat_map (fun m =>
              if truthy (trim m.2)
              then [Word (timeToSeconds m.1) (trim m.2)]
              else []) ms.

(** What one iteration of the loop of [parseCue] does to [parsed.words]. *)
Definition push_match (ws : list word) (stamp tok : list N) : list word :=
  let wordText := trim tok in
  if truthy wordText then ws ++ [Word (timeToSeconds stamp) wordText] else ws.

(** [syncLyrics] after its reveal pass: the choice of the active line, the
    [if (activeIndex !== currentLyricIndex)] block and the word toggle. *)
Definition sync_core (allCues : list cue) (curTime : number) (st : state)
  : state :=
  let activeIndex := find_active curTime (displayedCues st) 0 allCues in
  highlight allCues curTime activeIndex
    (if bool_decide (activeIndex <> currentLyricIndex st) then
       let '(doc, tms) := force_previous activeIndex st in
       State (displayedCues st) activeIndex (currentLyricIndex st)
             (mark_active activeIndex doc) tms
     else st).

(** No element carries the classes [active] and [played] together. *)
Definition classes_exclusive (st : state) : Prop :=
  forall (k : nat) (e : element),
    document st !! k = Some e -> cls_active e && cls_played e = false.


(** A string that is empty or starts with a character that is not white
    space. *)
Definition starts_clean (s : list N) : Prop :=
  match s with
  | [] => True
  | c :: _ => is_ws c = false
  end.

(** In the first variant: an element with the class [active] is the element
    of the current line and does not carry the class [played]. *)
Definition basic_classes_ok (st : Basic.state) : Prop :=
  forall (k : nat) (e : element),
    Basic.document st !! k = Some e ->
    (cls_active e = true -> Basic.currentLyricIndex st = Some k)
    /\ cls_active e && cls_played e = false.

(** In the first variant: every line has its element, with one span per
    word. *)
Definition basic_rendered (st : Basic.state) : Prop :=
  forall (a : nat) (c : Basic.cue),
    Basic.lyrics st !! a = Some c ->
    exists e : element,
      Basic.document st !! a = Some e
      /\ length (word_active e) = length (Basic.words c).

(** A line of the second variant without its [index] field. *)
Definition strip_index (p : cue) : Basic.cue :=
  Basic.Cue (start p) (end_ p) (words p).

(** ** Double precision: rounding *)

Lemma round64_proper (x y : Q) : (x == y)%Q -> round64 x = round64 y.
Proof. intros H. unfold round64. rewrite (Qred_complete _ _ H). reflexivity. Qed.

Lemma round_half_even_error (x : Q) :
  (Qabs (inject_Z (round_half_even x) - x) <= 1 # 2)%Q.
Proof.
  pose proof (Qfloor_le x) as H1. pose proof (Qlt_floor x) as H2.
  rewrite inject_Z_plus in H2. change (inject_Z 1) with 1%Q in H2.
  apply Qabs_Qle_condition. unfold round_half_even.
  destruct (Qcompare_spec (x - inject_Z (Qfloor x)) (1 # 2)) as [E|E|E].
  - destruct (Z.even (Qfloor x)); rewrite ?inject_Z_plus;
      change (inject_Z 1) with 1%Q; lra.
  - lra.
  - rewrite inject_Z_plus. change (inject_Z 1) with 1%Q. lra.
Qed.

Lemma round_half_even_nonneg (x : Q) :
  (0 <= x)%Q -> (0 <= round_half_even x)%Z.
Proof.
  intros H. pose proof (Qfloor_resp_le _ _ H) as Hf.
  change (Qfloor 0) with 0%Z in Hf. unfold round_half_even.
  destruct (_ ?= _)%Q; [destruct (Z.even _)| |]; lia.
Qed.

Lemma pow2_pos (z : Z) : (0 < 2 ^ z)%Q.
Proof. apply Qpower_0_lt. reflexivity. Qed.

Lemma binade_le (a : Q) : (0 < a)%Q -> (2 ^ binade a <= a)%Q.
Proof.
  intros Ha. unfold binade.
  set (ln := Z.log2 (Qnum a)). set (ld := Z.log2 (Z.pos (Qden a))).
  destruct (Qle_bool (2 ^ (ln - ld)) a) eqn:E.
  - apply Qle_bool_iff. exact E.
  - assert (Hn : (0 < Qnum a)%Z).
    { destruct a as [n d]. unfold Qlt in Ha. simpl in *. lia. }
    destruct (Z.log2_spec _ Hn) as [Hn1 _].
    destruct (Z.log2_spec (Z.pos (Qden a)) ltac:(lia)) as [_ Hd2].
    fold ln in Hn1. fold ld in Hd2.
    assert (Hln : (0 <= ln)%Z) by apply Z.log2_nonneg.
    assert (Hld : (0 <= ld)%Z) by apply Z.log2_nonneg.
    set (P := (2 ^ (ln - ld - 1))%Q).
    assert (HP : (0 < P)%Q) by apply pow2_pos.
    assert (E1 : (P * inject_Z (2 ^ Z.succ ld) == inject_Z (2 ^ ln))%Q).
    { rewrite !Zpower_Qpower by lia. unfold P.
      rewrite <- Qpower_plus by discriminate.
      replace (ln - ld - 1 + Z.succ ld)%Z with ln by lia. reflexivity. }
    assert (E2 : (inject_Z (Z.pos (Qden a)) <= inject_Z (2 ^ Z.succ ld))%Q).
    { rewrite <- Zle_Qle. lia. }
    assert (E3 : (inject_Z (2 ^ ln) <= inject_Z (Qnum a))%Q).
    { rewrite <- Zle_Qle. lia. }
    assert (E4 : (P * inject_Z (Z.pos (Qden a)) <= inject_Z (Qnum a))%Q).
    { apply Qle_trans with (P * inject_Z (2 ^ Z.succ ld))%Q.
      - apply Qmult_le_l; assumption.
      - rewrite E1. exact E3. }
    assert (Ea : (a == inject_Z (Qnum a) / inject_Z (Z.pos (Qden a)))%Q).
    { destruct a as [n d]. simpl. apply Qmake_Qdiv. }
    rewrite Ea. apply Qle_shift_div_l; [reflexivity | exact E4].
Qed.

Lemma round64_nonneg (q : Q) : (0 <= q)%Q -> (0 <= round64 q)%Q.
Proof.
  intros H. unfold round64.
  assert (Hr : (0 <= Qred q)%Q) by (rewrite Qred_correct; exact H).
  destruct (Qnum (Qred q)) eqn:En; [apply Qle_refl| |].
  - rewrite (proj2 (Qle_bool_iff 0 (Qred q)) Hr). rewrite Qred_correct.
    apply Qmult_le_0_compat; [|apply Qlt_le_weak, pow2_pos].
    change 0%Q with (inject_Z 0). rewrite <- Zle_Qle.
    apply round_half_even_nonneg. apply Qle_shift_div_l; [apply pow2_pos|].
    rewrite Qmult_0_l. apply Qabs_nonneg.
  - rewrite (proj2 (Qle_bool_iff 0 (Qred q)) Hr). rewrite Qred_correct.
    apply Qmult_le_0_compat; [|apply Qlt_le_weak, pow2_pos].
    change 0%Q with (inject_Z 0). rewrite <- Zle_Qle.
    apply round_half_even_nonneg. apply Qle_shift_div_l; [apply pow2_pos|].
    rewrite Qmult_0_l. apply Qabs_nonneg.
Qed.

Lemma round64_body_error (r : Q) :
  ~ (r == 0)%Q ->
  let a := Qabs r in
  let ulp := (2 ^ Z.max (binade a - 52) (-1074))%Q in
  let m := inject_Z (round_half_even (a / ulp)) in
  (Qabs ((if Qle_bool 0 r then m * ulp else - (m * ulp)) - r)
   <= Qabs r * (1 # 9007199254740992) + 2 ^ (-1075))%Q.
Proof.
  intros Hr a ulp m.
  assert (Ha : (0 < a)%Q).
  { unfold a. destruct (Qlt_le_dec 0 (Qabs r)) as [H|H]; [exact H|].
    exfalso. apply Hr. apply Qabs_Qle_condition in H. lra. }
  assert (Hu : (0 < ulp)%Q) by apply pow2_pos.
  assert (Ht : (2 ^ (-1074) == 2 * 2 ^ (-1075))%Q)
    by (vm_compute; reflexivity).
  assert (Ht0 : (0 < 2 ^ (-1075))%Q) by apply pow2_pos.
  set (tiny := (2 ^ (-1075))%Q) in *.
  assert (Hulp : (ulp <= a * (1 # 4503599627370496) + 2 * tiny)%Q).
  { unfold ulp. destruct (Z.max_spec (binade a - 52) (-1074)) as [[_ E]|[_ E]];
      rewrite E.
    - rewrite Ht. lra.
    - assert (Ep : (2 ^ (binade a - 52) == 2 ^ binade a * (1 # 4503599627370496))%Q).
      { change (binade a - 52)%Z with (binade a + -52)%Z.
        rewrite Qpower_plus by discriminate. reflexivity. }
      rewrite Ep.
      pose proof (binade_le a Ha) as Hb.
      assert ((2 ^ binade a * (1 # 4503599627370496)
               <= a * (1 # 4503599627370496))%Q).
      { apply Qmult_le_compat_r; [exact Hb | discriminate]. }
      lra. }
  pose proof (round_half_even_error (a / ulp)) as He. fold m in He.
  apply Qabs_Qle_condition in He. destruct He as [He1 He2].
  assert (Hdiv : (a / ulp * ulp == a)%Q).
  { field. intros E. rewrite E in Hu. apply (Qlt_irrefl _ Hu). }
  assert (Hm : (- (ulp * (1 # 2)) <= m * ulp - a
                /\ m * ulp - a <= ulp * (1 # 2))%Q).
  { assert (H1 : ((m - a / ulp) * ulp <= (1 # 2) * ulp)%Q)
      by (apply Qmult_le_compat_r; [exact He2 | lra]).
    assert (H2 : (- (1 # 2) * ulp <= (m - a / ulp) * ulp)%Q)
      by (apply Qmult_le_compat_r; [exact He1 | lra]).
    assert (H3 : ((m - a / ulp) * ulp == m * ulp - a)%Q)
      by (rewrite <- Hdiv at 2; ring).
    rewrite H3 in H1, H2. split; lra. }
  destruct Hm as [Hm1 Hm2]. fold a.
  apply Qabs_Qle_condition.
  destruct (Qle_bool 0 r) eqn:E.
  - apply Qle_bool_iff in E.
    assert (a == r)%Q by (unfold a; apply Qabs_pos; exact E).
    split; lra.
  - assert (r < 0)%Q.
    { destruct (Qlt_le_dec r 0) as [H|H]; [exact H|].
      apply Qle_bool_iff in H. congruence. }
    assert (a == - r)%Q by (unfold a; apply Qabs_neg; lra).
    split; lra.
Qed.

(** The error of a rounding: at most [2^-53] of the number, and [2^-1075]
    in the subnormal range. *)
Lemma round64_error (q : Q) :
  (Qabs (round64 q - q) <= Qabs q * (1 # 9007199254740992) + 2 ^ (-1075))%Q.
Proof.
  unfold round64.
  pose proof (Qred_correct q) as Hq. set (r := Qred q) in *.
  assert (Hgen : ~ (r == 0)%Q ->
    (Qabs (Qred (if Qle_bool 0 r
                 then inject_Z (round_half_even (Qabs r / 2 ^ Z.max (binade (Qabs r) - 52) (-1074)))
                      * 2 ^ Z.max (binade (Qabs r) - 52) (-1074)
                 else - (inject_Z (round_half_even (Qabs r / 2 ^ Z.max (binade (Qabs r) - 52) (-1074)))
                      * 2 ^ Z.max (binade (Qabs r) - 52) (-1074))) - q)
     <= Qabs q * (1 # 9007199254740992) + 2 ^ (-1075))%Q).
  { intros Hr. rewrite Qred_correct. rewrite <- Hq.
    exact (round64_body_error r Hr). }
  destruct (Qnum r) eqn:En.
  - assert (H : (r == 0)%Q) by (destruct r; simpl in En; subst; reflexivity).
    rewrite <- Hq, H. vm_compute. discriminate.
  - apply Hgen. intros H. unfold Qeq in H. rewrite En in H. simpl in H. lia.
  - apply Hgen. intros H. unfold Qeq in H. rewrite En in H. simpl in H. lia.
Qed.

Lemma round_half_even_int (z : Z) : round_half_even (inject_Z z) = z.
Proof.
  unfold round_half_even. rewrite Qfloor_Z.
  assert (E : (inject_Z z - inject_Z z ?= 1 # 2)%Q = Lt).
  { apply (proj1 (Qlt_alt _ _)). lra. }
  rewrite E. reflexivity.
Qed.

Lemma round_half_even_comp (x y : Q) :
  (x == y)%Q -> round_half_even x = round_half_even y.
Proof.
  intros H. unfold round_half_even. rewrite (Qfloor_comp _ _ H).
  assert (E : (x - inject_Z (Qfloor y) == y - inject_Z (Qfloor y))%Q)
    by (rewrite H; reflexivity).
  rewrite (Qcompare_comp _ _ E _ _ (Qeq_refl (1 # 2))). reflexivity.
Qed.

Lemma Qred_inject_Z (z : Z) : Qred (inject_Z z) = inject_Z z.
Proof.
  unfold Qred, inject_Z.
  pose proof (Z.ggcd_gcd z 1) as Hg.
  pose proof (Z.ggcd_correct_divisors z 1) as Hd.
  destruct (Z.ggcd z 1) as (g, (aa, bb)). cbn [fst snd] in *.
  rewrite Z.gcd_1_r in Hg. subst g. destruct Hd as [Ha Hb].
  rewrite Z.mul_1_l in Ha, Hb. subst aa bb. reflexivity.
Qed.

(** An integer that is not negative and below [2^53] is a double. *)
Lemma round64_int (z : Z) :
  (0 <= z < 2 ^ 53)%Z -> round64 (inject_Z z) = inject_Z z.
Proof.
  intros [H0 H1]. unfold round64.
  pose proof (Qred_inject_Z z) as Er.
  rewrite Er. cbn [Qnum inject_Z].
  destruct z as [|p|p]; [reflexivity| |lia].
  change (Qabs (inject_Z (Z.pos p))) with (inject_Z (Z.pos p)).
  set (z := Z.pos p) in *.
  assert (Hk : binade (inject_Z z) = Z.log2 z).
  { unfold binade. cbn [Qnum Qden inject_Z]. change (Z.log2 1) with 0%Z.
    rewrite Z.sub_0_r.
    destruct (Z.log2_spec z ltac:(lia)) as [Hl _].
    rewrite (proj2 (Qle_bool_iff _ _)); [reflexivity|].
    change (2 ^ Z.log2 z)%Q with (inject_Z 2 ^ Z.log2 z)%Q.
    rewrite <- Zpower_Qpower by apply Z.log2_nonneg.
    change (z # 1) with (inject_Z z). rewrite <- Zle_Qle. exact Hl. }
  rewrite Hk.
  assert (Hl0 : (0 <= Z.log2 z)%Z) by apply Z.log2_nonneg.
  assert (Hl1 : (Z.log2 z < 53)%Z) by (apply Z.log2_lt_pow2; lia).
  rewrite Z.max_l by lia.
  assert (Hd : (inject_Z z / 2 ^ (Z.log2 z - 52)
                == inject_Z (z * 2 ^ (52 - Z.log2 z)))%Q).
  { rewrite inject_Z_mult. rewrite Zpower_Qpower by lia.
    replace (52 - Z.log2 z)%Z with (- (Z.log2 z - 52))%Z by lia.
    rewrite Qpower_opp. reflexivity. }
  rewrite (round_half_even_comp _ _ Hd), round_half_even_int.
  assert (Hle : Qle_bool 0 (inject_Z z) = true)
    by (apply Qle_bool_iff; change 0%Q with (inject_Z 0); rewrite <- Zle_Qle; lia).
  rewrite Hle. transitivity (Qred (inject_Z z)); [|exact Er].
  apply Qred_complete.
  rewrite inject_Z_mult. rewrite Zpower_Qpower by lia.
  rewrite <- Qmult_assoc. rewrite <- Qpower_plus by discriminate.
  replace (52 - Z.log2 z + (Z.log2 z - 52))%Z with 0%Z by lia.
  change (2 ^ 0)%Q with 1%Q. ring.
Qed.

Lemma js_mul_int (a b : Z) :
  (0 <= a * b < 9007199254740992)%Z -> js_mul (num a) (num b) = num (a * b).
Proof.
  intros H. change 9007199254740992%Z with (2 ^ 53)%Z in H. unfold js_mul, num. f_equal.
  rewrite (round64_proper _ (inject_Z (a * b)))
    by (rewrite inject_Z_mult; reflexivity).
  apply round64_int. exact H.
Qed.

Lemma js_add_int (a b : Z) :
  (0 <= a + b < 9007199254740992)%Z -> js_add (num a) (num b) = num (a + b).
Proof.
  intros H. change 9007199254740992%Z with (2 ^ 53)%Z in H. unfold js_add, num. f_equal.
  rewrite (round64_proper _ (inject_Z (a + b)))
    by (rewrite inject_Z_plus; reflexivity).
  apply round64_int. exact H.
Qed.

Lemma round64_bounds (x : Q) :
  (0 <= x)%Q ->
  (0 <= round64 x
   /\ x - (x + 1) * (1 # 9007199254740992) <= round64 x
   /\ round64 x <= x + (x + 1) * (1 # 9007199254740992))%Q.
Proof.
  intros H. pose proof (round64_nonneg x H) as H0.
  pose proof (round64_error x) as He.
  rewrite (Qabs_pos x H) in He. apply Qabs_Qle_condition in He.
  assert (Ht : (2 ^ (-1075) <= 1 # 9007199254740992)%Q)
    by (vm_compute; discriminate).
  set (tiny := (2 ^ (-1075))%Q) in *.
  split; [exact H0|]. split; lra.
Qed.

(** The seconds of a time stamp in double arithmetic: not negative, below
    99 h 99 min 100 s, and within [10^-10] of the real sum. *)
Lemma double_seconds_bounds (whole s f : Z) :
  (0 <= whole <= 362340)%Z -> (0 <= s < 100)%Z -> (0 <= f < 1000)%Z ->
  exists q : Q,
    double_seconds whole s f = Some q
    /\ (0 <= q)%Q /\ (q < 362440)%Q
    /\ (Qabs (q - exact_seconds whole s f) <= 1 # 10000000000)%Q.
Proof.
  intros Hw Hs Hf. unfold double_seconds, exact_seconds.
  eexists. split; [reflexivity|].
  assert (Qw0 : (0 <= inject_Z whole)%Q)
    by (change 0%Q with (inject_Z 0); rewrite <- Zle_Qle; lia).
  assert (Qw1 : (inject_Z whole <= 362340)%Q)
    by (change 362340%Q with (inject_Z 362340); rewrite <- Zle_Qle; lia).
  assert (Qs0 : (0 <= inject_Z s)%Q)
    by (change 0%Q with (inject_Z 0); rewrite <- Zle_Qle; lia).
  assert (Qs1 : (inject_Z s <= 99)%Q)
    by (change 99%Q with (inject_Z 99); rewrite <- Zle_Qle; lia).
  assert (Qf0 : (0 <= inject_Z f)%Q)
    by (change 0%Q with (inject_Z 0); rewrite <- Zle_Qle; lia).
  assert (Qf1 : (inject_Z f <= 999)%Q)
    by (change 999%Q with (inject_Z 999); rewrite <- Zle_Qle; lia).
  set (x := (inject_Z s + inject_Z f / 1000)%Q).
  assert (Hx : (x == inject_Z s + inject_Z f * (1 # 1000))%Q)
    by (unfold x; field).
  assert (Hx0 : (0 <= x)%Q) by lra.
  destruct (round64_bounds x Hx0) as (Hr0 & Hr1 & Hr2).
  set (r := round64 x) in *.
  assert (Hy0 : (0 <= inject_Z whole + r)%Q) by lra.
  destruct (round64_bounds _ Hy0) as (Hq0 & Hq1 & Hq2).
  set (q := round64 (inject_Z whole + r)) in *.
  split; [exact Hq0|]. split; [lra|].
  apply Qabs_Qle_condition.
  assert (E : (q - (inject_Z whole + inject_Z s + inject_Z f / 1000)
               == q - inject_Z whole - x)%Q) by (unfold x; field).
  rewrite E. split; lra.
Qed.

Lemma pow2_ge_1 (z : Z) : (0 <= z)%Z -> (1 <= 2 ^ z)%Q.
Proof.
  intros H. change (2 ^ z)%Q with (inject_Z 2 ^ z)%Q.
  rewrite <- Zpower_Qpower by exact H.
  change 1%Q with (inject_Z 1). rewrite <- Zle_Qle.
  pose proof (Z.pow_pos_nonneg 2 z ltac:(lia) H). lia.
Qed.

Lemma round_half_even_floor (x : Q) : (Qfloor x <= round_half_even x)%Z.
Proof.
  unfold round_half_even. destruct (_ ?= _)%Q; [destruct (Z.even _)| |]; lia.
Qed.

Lemma round64_zero (x : Q) : (x == 0)%Q -> round64 x = 0%Q.
Proof. intros H. rewrite (round64_proper x 0 H). reflexivity. Qed.

(** Rounding does not go below an integer that the number has reached. *)
Lemma round64_ge_int (x : Q) (k : Z) :
  (0 <= x)%Q -> (x < 9007199254740992)%Q ->
  (inject_Z k <= x)%Q -> (inject_Z k <= round64 x)%Q.
Proof.
  intros H0 H1 Hk.
  destruct (Qeq_dec x 0) as [Hz|Hz].
  { rewrite (round64_zero x Hz). rewrite Hz in Hk. exact Hk. }
  unfold round64.
  pose proof (Qred_correct x) as Hr. set (r := Qred x) in *.
  assert (Hr0 : (0 < r)%Q).
  { rewrite Hr. destruct (Qlt_le_dec 0 x) as [H|H]; [exact H|].
    exfalso. apply Hz. apply Qle_antisym; assumption. }
  destruct (Qnum r) eqn:En.
  { exfalso. unfold Qlt in Hr0. rewrite En in Hr0. simpl in Hr0. lia. }
  2:{ exfalso. unfold Qlt in Hr0. rewrite En in Hr0. simpl in Hr0. lia. }
  assert (Ha : (Qabs r == r)%Q) by (apply Qabs_pos, Qlt_le_weak, Hr0).
  rewrite (proj2 (Qle_bool_iff 0 r)) by (apply Qlt_le_weak, Hr0).
  rewrite Qred_correct.
  set (a := Qabs r) in *.
  assert (Ha0 : (0 < a)%Q) by (rewrite Ha; exact Hr0).
  pose proof (binade_le a Ha0) as Hb.
  assert (Hb52 : (binade a <= 52)%Z).
  { destruct (Z_le_gt_dec (binade a) 52) as [H|H]; [exact H|]. exfalso.
    assert (E : (2 ^ binade a == 2 ^ 53 * 2 ^ (binade a - 53))%Q).
    { rewrite <- Qpower_plus by discriminate. f_equiv. lia. }
    pose proof (pow2_ge_1 (binade a - 53) ltac:(lia)) as H2.
    rewrite E in Hb. change (2 ^ 53)%Q with 9007199254740992%Q in Hb.
    lra. }
  set (e := Z.max (binade a - 52) (-1074)).
  assert (He : (e <= 0)%Z) by (unfold e; lia).
  set (P := (2 ^ (- e))%Z).
  assert (HP : (/ 2 ^ e == inject_Z P)%Q).
  { unfold P. rewrite Zpower_Qpower by lia. rewrite Qpower_opp. reflexivity. }
  assert (Hu : (0 < 2 ^ e)%Q) by apply pow2_pos.
  assert (HP0 : (0 < inject_Z P)%Q).
  { rewrite <- HP. apply Qinv_lt_0_compat. exact Hu. }
  assert (Hdiv : (a / 2 ^ e == a * inject_Z P)%Q).
  { unfold Qdiv. rewrite HP. reflexivity. }
  assert (Hm : (k * P <= round_half_even (a / 2 ^ e))%Z).
  { eapply Z.le_trans; [|apply round_half_even_floor].
    rewrite <- (Qfloor_Z (k * P)). apply Qfloor_resp_le.
    rewrite Hdiv, inject_Z_mult. apply Qmult_le_compat_r.
    - rewrite Ha, Hr. exact Hk.
    - apply Qlt_le_weak. exact HP0. }
  rewrite Zle_Qle, inject_Z_mult in Hm.
  assert (E1 : (inject_Z k == inject_Z k * inject_Z P * 2 ^ e)%Q).
  { rewrite <- HP. field. intros E. rewrite E in Hu. apply (Qlt_irrefl _ Hu). }
  rewrite E1. apply Qmult_le_compat_r; [exact Hm | apply Qlt_le_weak, Hu].
Qed.

Lemma round64_nonpos (q : Q) : (q <= 0)%Q -> (round64 q <= 0)%Q.
Proof.
  intros H. unfold round64.
  pose proof (Qred_correct q) as Hr. set (r := Qred q) in *.
  destruct (Qnum r) eqn:En; [apply Qle_refl| |];
    rewrite Qred_correct.
  - exfalso. assert (0 < r)%Q by (unfold Qlt; rewrite En; simpl; lia). lra.
  - assert (Hn : (r < 0)%Q) by (unfold Qlt; rewrite En; simpl; lia).
    assert (E : Qle_bool 0 r = false).
    { destruct (Qle_bool 0 r) eqn:E; [|reflexivity].
      apply Qle_bool_iff in E. lra. }
    rewrite E.
    assert (0 <= inject_Z (round_half_even (Qabs r / 2 ^ Z.max (binade (Qabs r) - 52) (-1074)))
            * 2 ^ Z.max (binade (Qabs r) - 52) (-1074))%Q; [|lra].
    apply Qmult_le_0_compat; [|apply Qlt_le_weak, pow2_pos].
    change 0%Q with (inject_Z 0). rewrite <- Zle_Qle.
    apply round_half_even_nonneg. apply Qle_shift_div_l; [apply pow2_pos|].
    rewrite Qmult_0_l. apply Qabs_nonneg.
Qed.

(** A number [n / 2^k] with [0 <= n < 2^53] and [0 <= k <= 1074] is a
    double. *)
Lemma round64_dyadic (x : Q) (n k : Z) :
  (0 <= n < 9007199254740992)%Z -> (0 <= k <= 1074)%Z ->
  (x == inject_Z n / 2 ^ k)%Q -> (round64 x == x)%Q.
Proof.
  intros Hn Hk Hx.
  assert (Hp : (0 < 2 ^ k)%Q) by apply pow2_pos.
  assert (Hx0 : (0 <= x)%Q).
  { rewrite Hx. apply Qle_shift_div_l; [exact Hp|]. rewrite Qmult_0_l.
    change 0%Q with (inject_Z 0). rewrite <- Zle_Qle. lia. }
  destruct (Qeq_dec x 0) as [Hz|Hz].
  { rewrite (round64_zero x Hz). symmetry. exact Hz. }
  unfold round64.
  pose proof (Qred_correct x) as Hr. set (r := Qred x) in *.
  assert (Hr0 : (0 < r)%Q).
  { rewrite Hr. destruct (Qlt_le_dec 0 x) as [H|H]; [exact H|].
    exfalso. apply Hz. apply Qle_antisym; assumption. }
  destruct (Qnum r) eqn:En.
  { exfalso. unfold Qlt in Hr0. rewrite En in Hr0. simpl in Hr0. lia. }
  2:{ exfalso. unfold Qlt in Hr0. rewrite En in Hr0. simpl in Hr0. lia. }
  assert (Ha : (Qabs r == r)%Q) by (apply Qabs_pos, Qlt_le_weak, Hr0).
  rewrite (proj2 (Qle_bool_iff 0 r)) by (apply Qlt_le_weak, Hr0).
  rewrite Qred_correct.
  set (a := Qabs r) in *.
  assert (Ha0 : (0 < a)%Q) by (rewrite Ha; exact Hr0).
  assert (Hax : (a == inject_Z n / 2 ^ k)%Q) by (rewrite Ha, Hr; exact Hx).
  pose proof (binade_le a Ha0) as Hb.
  assert (Hbk : (binade a - 52 <= - k)%Z).
  { destruct (Z_le_gt_dec (binade a - 52) (- k)) as [H|H]; [exact H|]. exfalso.
    assert (E : (2 ^ binade a == 2 ^ (53 - k) * 2 ^ (binade a - 53 + k))%Q).
    { rewrite <- Qpower_plus by discriminate. f_equiv. lia. }
    pose proof (pow2_ge_1 (binade a - 53 + k) ltac:(lia)) as H2.
    assert (E2 : (2 ^ (53 - k) == 9007199254740992 / 2 ^ k)%Q).
    { change (53 - k)%Z with (53 + - k)%Z. rewrite Qpower_plus by discriminate.
      rewrite Qpower_opp. reflexivity. }
    assert (H3 : (inject_Z n / 2 ^ k < 9007199254740992 / 2 ^ k)%Q).
    { apply Qmult_lt_compat_r; [apply Qinv_lt_0_compat; exact Hp|].
      change 9007199254740992%Q with (inject_Z 9007199254740992).
      rewrite <- Zlt_Qlt. lia. }
    assert (H4 : (0 < 2 ^ (53 - k))%Q) by apply pow2_pos.
    rewrite E in Hb. rewrite <- E2 in H3. rewrite <- Hax in H3.
    assert (H5 : (2 ^ (53 - k) * 1 <= 2 ^ (53 - k) * 2 ^ (binade a - 53 + k))%Q)
      by (apply Qmult_le_l; [exact H4 | exact H2]).
    lra. }
  set (e := Z.max (binade a - 52) (-1074)).
  assert (He : (e <= - k)%Z) by (unfold e; lia).
  assert (Hu : (0 < 2 ^ e)%Q) by apply pow2_pos.
  assert (Hdiv : (a / 2 ^ e == inject_Z (n * 2 ^ (- k - e)))%Q).
  { rewrite Hax, inject_Z_mult. rewrite Zpower_Qpower by lia.
    change (- k - e)%Z with (- k + - e)%Z.
    rewrite Qpower_plus by discriminate. rewrite !Qpower_opp.
    change (inject_Z 2) with 2%Q.
    set (A := (2 ^ k)%Q) in *. set (B := (2 ^ e)%Q) in *.
    field. split; intros E; [rewrite E in Hu; apply (Qlt_irrefl _ Hu)
                            | rewrite E in Hp; apply (Qlt_irrefl _ Hp)]. }
  rewrite (round_half_even_comp _ _ Hdiv), round_half_even_int.
  rewrite <- Hr, <- Ha. fold a. rewrite Hax.
  rewrite inject_Z_mult. rewrite Zpower_Qpower by lia.
  change (- k - e)%Z with (- k + - e)%Z.
  rewrite Qpower_plus by discriminate. rewrite !Qpower_opp.
  change (inject_Z 2) with 2%Q.
  set (A := (2 ^ k)%Q) in *. set (B := (2 ^ e)%Q) in *.
  field. split; intros E; [rewrite E in Hp; apply (Qlt_irrefl _ Hp)
                          | rewrite E in Hu; apply (Qlt_irrefl _ Hu)].
Qed.

(** The test of the reveal pass, [curTime >= cue.start - 2], has the same
    result with the rounded difference as with the exact one, for a playback
    time that is not negative and a cue start that is a double below 2^53
    (or any number below 2). *)
Lemma reveal_test_rounded (t s : Q) :
  (0 <= t)%Q ->
  ((2 <= s)%Q -> small_double s) ->
  num_ge (Some t) (js_sub (Some s) (num 2))
  = num_ge (Some t) (num_sub (Some s) (num 2)).
Proof.
  intros Ht Hs. unfold num_ge, js_sub, num_sub, num.
  change (inject_Z 2) with 2%Q.
  destruct (Qlt_le_dec s 2) as [Hlt|Hge].
  - pose proof (round64_nonpos (s - 2) ltac:(lra)) as H.
    rewrite (proj2 (Qle_bool_iff _ _)) by lra.
    rewrite (proj2 (Qle_bool_iff _ _)) by lra. reflexivity.
  - destruct (Hs Hge) as (n & k & Hn & Hk & Hsn).
    assert (Hp : (0 < 2 ^ k)%Q) by apply pow2_pos.
    assert (E : (round64 (s - 2) == s - 2)%Q).
    { apply (round64_dyadic _ (n - 2 * 2 ^ k) k); [|exact Hk|].
      - assert (H2 : (inject_Z (2 * 2 ^ k) <= inject_Z n)%Q).
        { rewrite inject_Z_mult, Zpower_Qpower by lia.
          change (inject_Z 2 ^ k)%Q with (2 ^ k)%Q. change (inject_Z 2) with 2%Q.
          assert (H3 : (s * 2 ^ k == inject_Z n)%Q).
          { rewrite Hsn. set (A := (2 ^ k)%Q) in *. field. intros E.
            rewrite E in Hp. apply (Qlt_irrefl _ Hp). }
          rewrite <- H3. apply Qmult_le_compat_r; [exact Hge | lra]. }
        rewrite <- Zle_Qle in H2.
        pose proof (Z.pow_pos_nonneg 2 k ltac:(lia) ltac:(lia)). lia.
      - rewrite Hsn. unfold Zminus. rewrite inject_Z_plus, inject_Z_opp.
        rewrite inject_Z_mult, Zpower_Qpower by lia.
        change (inject_Z 2 ^ k)%Q with (2 ^ k)%Q. change (inject_Z 2) with 2%Q.
        set (A := (2 ^ k)%Q) in *.
        field. intros E'. rewrite E' in Hp. apply (Qlt_irrefl _ Hp). }
    destruct (Qle_bool (s - 2) t) eqn:E1.
    + apply Qle_bool_iff. apply Qle_bool_iff in E1. rewrite E. exact E1.
    + destruct (Qle_bool (round64 (s - 2)) t) eqn:E2; [|reflexivity].
      apply Qle_bool_iff in E2. rewrite E in E2. apply Qle_bool_iff in E2.
      congruence.
Qed.

(** Three values of the code that differ from the real ones: the upper end
    of the window of a line that ends at 0.2, the early threshold of a last
    word at 0.3, and the seconds of the time stamp 00:01:01.029. *)
Example window_end_rounded :
  js_add (dec 2 10) tenth = dec 30000000000000004 100000000000000000
  /\ js_add (dec 2 10) tenth <> dec 3 10.
Proof. split; [vm_compute; reflexivity | vm_compute; discriminate]. Qed.

Example early_threshold_rounded :
  js_sub (dec 3 10) tenth = dec 19999999999999998 100000000000000000
  /\ js_sub (dec 3 10) tenth <> dec 2 10.
Proof. split; [vm_compute; reflexivity | vm_compute; discriminate]. Qed.

Example stamp_seconds_rounded :
  timeToSeconds (code_units "00:01:01.029")
  = dec 61028999999999996 1000000000000000
  /\ timeToSeconds (code_units "00:01:01.029") <> dec 61029 1000.
Proof. split; [vm_compute; reflexivity | vm_compute; discriminate]. Qed.

(** With the lines [0, 0.2] and [0.25, 5], the tick at 0.30000000000000004
    is still in the window of line 0, which is made active. *)
Example window_end_tick :
  currentLyricIndex
    (syncLyrics
       [Cue 0 (num 0) (dec 2 10) [Word (num 0) (code_units "a")];
        Cue 1 (dec 25 100) (num 5) [Word (dec 25 100) (code_units "b")]]
       (dec 30000000000000004 100000000000000000) init)
  = Some 0%nat.
Proof. vm_compute. reflexivity. Qed.

(** The last word of a line, at 0.3, is highlighted by the tick at
    0.19999999999999998. *)
Example early_threshold_tick :
  word_marked
    (syncLyrics
       [Cue 0 (num 0) (num 5)
          [Word (num 0) (code_units "a"); Word (dec 3 10) (code_units "b")]]
       (dec 19999999999999998 100000000000000000) init) 0 1
  = true.
Proof. vm_compute. reflexivity. Qed.

(** ** The parser: unfolding the regular-expression loop *)

Lemma exec_loop_step (s : list N) (ws : list word) (foundWords : bool) :
  exec_loop s ws foundWords =
  match exec s with
  | Some (stamp, tok, rest) => exec_loop rest (push_match ws stamp tok) true
  | None => (ws, foundWords)
  end.
Proof.
  funelim (exec_loop s ws foundWords).
  - match goal with E : exec _ = Some _ |- _ => rewrite E end. reflexivity.
  - match goal with E : exec _ = None |- _ => rewrite E end. reflexivity.
Qed.

(** ** White space, [trim] and [split] *)

Lemma trimStart_nil (s : list N) :
  trimStart s = [] <-> Forall (fun c => is_ws c = true) s.
Proof.
  induction s as [|c s IH]; simpl.
  - split; auto.
  - destruct (is_ws c) eqn:E.
    + rewrite IH. split; [intros H; constructor; auto | intros H; inversion H; auto].
    + split; [discriminate | intros H; inversion H; congruence].
Qed.

Lemma trimStart_head (s : list N) :
  starts_word s = true -> trimStart s = s.
Proof.
  destruct s as [|c s]; simpl; [discriminate|].
  destruct (is_ws c); [discriminate | reflexivity].
Qed.

Lemma trim_nil (s : list N) :
  trim s = [] <-> Forall (fun c => is_ws c = true) s.
Proof.
  unfold trim, trimEnd. split.
  - intros H. apply (f_equal (@rev N)) in H. rewrite rev_involutive in H.
    simpl in H. apply trimStart_nil in H.
    apply Forall_rev in H. rewrite rev_involutive in H.
    destruct (trimStart s) as [|c t] eqn:E.
    + apply trimStart_nil. exact E.
    + exfalso. inversion H; subst.
      clear -E H2. induction s as [|d s IH]; simpl in E; [discriminate|].
      destruct (is_ws d) eqn:Ed; [auto | congruence].
  - intros H. apply trimStart_nil in H. rewrite H. reflexivity.
Qed.

Lemma trim_word (w : list N) :
  Forall (fun c => is_ws c = false) w -> trim w = w.
Proof.
  intros H. unfold trim, trimEnd.
  assert (Hs : forall v, Forall (fun c => is_ws c = false) v -> trimStart v = v).
  { intros [|c v] Hv; simpl; [reflexivity|]. inversion Hv; subst.
    rewrite H2. reflexivity. }
  rewrite (Hs w H). rewrite (Hs (rev w)); [apply rev_involutive|].
  apply Forall_rev. exact H.
Qed.

Lemma split_ws_from_words (in_ws : bool) (tok s : list N) :
  Forall (fun c => is_ws c = false) tok ->
  Forall (Forall (fun c => is_ws c = false)) (split_ws_from in_ws tok s).
Proof.
  revert in_ws tok. induction s as [|c s IH]; intros in_ws tok Htok; simpl.
  - constructor; [apply Forall_rev; exact Htok | constructor].
  - destruct (is_ws c) eqn:E.
    + destruct in_ws.
      * apply IH. exact Htok.
      * constructor; [apply Forall_rev; exact Htok | apply IH; constructor].
    + apply IH. constructor; assumption.
Qed.

Lemma ws_tokens_starts (s : list N) :
  starts_word s = true -> ws_tokens s <> [].
Proof.
  destruct s as [|c s]; simpl; [discriminate|].
  destruct (is_ws c); [discriminate|]. intros _.
  destruct (starts_word s); [destruct (ws_tokens s)|]; discriminate.
Qed.

Lemma glue_nil (s : list N) : glue [] s = ws_tokens s.
Proof.
  unfold glue. destruct (starts_word s) eqn:E; [|reflexivity].
  apply ws_tokens_starts in E. destruct (ws_tokens s); [contradiction | reflexivity].
Qed.

Lemma ws_tokens_cons_word (c : N) (s : list N) :
  is_ws c = false -> ws_tokens (c :: s) = glue [c] s.
Proof.
  intros E. unfold glue. simpl. rewrite E.
  destruct (starts_word s); reflexivity.
Qed.

Lemma split_ws_from_glue (s : list N) :
  forall (in_ws : bool) (tok : list N),
    (in_ws = true -> tok = []) ->
    List.filter truthy (split_ws_from in_ws tok s) = glue (rev tok) s.
Proof.
  induction s as [|c s IH]; intros in_ws tok Hin.
  - simpl. unfold glue. simpl. destruct (rev tok); reflexivity.
  - cbn [split_ws_from]. destruct (is_ws c) eqn:E.
    + assert (Hg : glue (rev tok) (c :: s) =
                   match rev tok with [] => ws_tokens s | _ :: _ => rev tok :: ws_tokens s end).
      { unfold glue. simpl. rewrite E. reflexivity. }
      rewrite Hg. destruct in_ws.
      * rewrite (Hin eq_refl). rewrite IH by reflexivity.
        simpl. apply glue_nil.
      * cbn [List.filter]. rewrite IH by reflexivity.
        change (rev []) with (@nil N). rewrite glue_nil.
        destruct (rev tok); reflexivity.
    + rewrite IH by discriminate. simpl rev.
      unfold glue at 2. cbn [starts_word]. rewrite E. cbn [negb].
      rewrite ws_tokens_cons_word by exact E.
      unfold glue. destruct (starts_word s).
      * destruct (ws_tokens s); rewrite <- ?app_assoc; reflexivity.
      * destruct (rev tok); reflexivity.
Qed.

Lemma split_ws_tokens (s : list N) :
  List.map trim (List.filter (fun w => truthy (trim w)) (split_ws s)) = ws_tokens s.
Proof.
  unfold split_ws.
  pose proof (split_ws_from_words false [] s (List.Forall_nil _)) as Hw.
  assert (Hf : List.filter (fun w => truthy (trim w)) (split_ws_from false [] s)
               = List.filter truthy (split_ws_from false [] s)).
  { apply List.filter_ext_in. intros w Hin.
    rewrite List.Forall_forall in Hw. rewrite (trim_word w); auto. }
  rewrite Hf.
  assert (Hm : forall l, Forall (Forall (fun c => is_ws c = false)) l ->
                         List.map trim (List.filter truthy l) = List.filter truthy l).
  { induction l as [|w l IHl]; intros Hl; [reflexivity|].
    inversion Hl; subst. simpl. destruct (truthy w); simpl.
    - rewrite trim_word by assumption. f_equal. auto.
    - auto. }
  rewrite Hm by exact Hw.
  rewrite split_ws_from_glue by discriminate. apply glue_nil.
Qed.

Lemma ws_tokens_blank (s : list N) :
  Forall (fun c => is_ws c = true) s -> ws_tokens s = [].
Proof.
  induction 1 as [|c s Hc Hs IH]; simpl; [reflexivity|].
  rewrite Hc. exact IH.
Qed.

Lemma ws_tokens_nonempty (s : list N) (c : N) :
  In c s -> is_ws c = false -> ws_tokens s <> [].
Proof.
  induction s as [|d s IH]; simpl; [tauto|].
  intros [->|Hin] Hc.
  - rewrite Hc. destruct (starts_word s); [destruct (ws_tokens s)|]; discriminate.
  - destruct (is_ws d); [auto|].
    destruct (starts_word s); [destruct (ws_tokens s)|]; discriminate.
Qed.

Lemma exec_has_lt (s : list N) : exec s <> None -> In LT s.
Proof.
  induction s as [|c s IH]; cbn [exec].
  - simpl. congruence.
  - destruct (match_at (c :: s)) eqn:E.
    + intros _. left. unfold match_at in E.
      destruct (c =? LT)%N eqn:Ec; [|discriminate].
      apply N.eqb_eq in Ec. exact Ec.
    + intros H. right. auto.
Qed.

(** [ws_tokens] is what its name says: in a text written as white space,
    then tokens each followed by a non-empty run of white space, then
    possibly a last token, the tokens are found again. *)
Lemma ws_tokens_skip (sep s : list N) :
  Forall (fun c => is_ws c = true) sep -> ws_tokens (sep ++ s) = ws_tokens s.
Proof.
  induction 1 as [|c sep Hc _ IH]; simpl; [reflexivity|].
  rewrite Hc. exact IH.
Qed.

Lemma ws_tokens_token (tok sep s : list N) :
  tok <> [] ->
  Forall (fun c => is_ws c = false) tok ->
  sep <> [] ->
  Forall (fun c => is_ws c = true) sep ->
  ws_tokens (tok ++ sep ++ s) = tok :: ws_tokens s.
Proof.
  intros Hne Htok Hsep Hws.
  assert (Hstart : starts_word (sep ++ s) = false).
  { destruct Hws as [|c sep Hc _]; [contradiction|]. simpl. rewrite Hc. reflexivity. }
  induction Htok as [|c tok Hc Htok IH]; [contradiction|].
  cbn [app ws_tokens]. rewrite Hc. destruct tok as [|d tok].
  - cbn [app]. rewrite Hstart, ws_tokens_skip by exact Hws. reflexivity.
  - rewrite IH by discriminate.
    inversion Htok as [|? ? Hd _]; subst. cbn [app starts_word].
    rewrite Hd. reflexivity.
Qed.

Lemma ws_tokens_last (tok : list N) :
  Forall (fun c => is_ws c = false) tok ->
  ws_tokens tok = match tok with [] => [] | _ :: _ => [tok] end.
Proof.
  induction 1 as [|c tok Hc Htok IH]; [reflexivity|].
  cbn [ws_tokens]. rewrite Hc, IH. destruct Htok as [|d tok Hd _].
  - reflexivity.
  - cbn [starts_word]. rewrite Hd. reflexivity.
Qed.

Lemma ws_tokens_spaced (lead final : list N) (items : list (list N * list N)) :
  Forall (fun c => is_ws c = true) lead ->
  Forall (fun it => it.1 <> [] /\ Forall (fun c => is_ws c = false) it.1
                    /\ it.2 <> [] /\ Forall (fun c => is_ws c = true) it.2) items ->
  Forall (fun c => is_ws c = false) final ->
  ws_tokens (lead ++ flat_map (fun it => it.1 ++ it.2) items ++ final)
  = List.map fst items ++ match final with [] => [] | _ :: _ => [final] end.
Proof.
  intros Hlead Hitems Hfinal. rewrite ws_tokens_skip by exact Hlead.
  induction Hitems as [|[tok sep] items (H1 & H2 & H3 & H4) _ IH]; cbn [flat_map app].
  - apply ws_tokens_last. exact Hfinal.
  - cbn [fst snd] in *. rewrite <- !app_assoc.
    rewrite ws_tokens_token by assumption. cbn [List.map fst app].
    rewrite IH. reflexivity.
Qed.

(** ** The parser: fallback, dropped cues *)

(** C8. When the word regular expression has no match in the text of a cue,
    [parseCue] returns exactly one word per white-space delimited token of the
    text, in order, each with the start time of the cue as its time (and no
    word at all when the text has no token). *)
Theorem parseCue_fallback (c : VTTCue.t) (i : nat) :
  exec (VTTCue.text c) = None ->
  words (parseCue c i) =
  List.map (Word (VTTCue.startTime c)) (ws_tokens (VTTCue.text c)).
Proof.
  intros H. unfold parseCue. rewrite exec_loop_step, H. cbn [negb andb app].
  destruct (truthy (trim (VTTCue.text c))) eqn:E; cbn [words].
  - rewrite <- split_ws_tokens, List.map_map. reflexivity.
  - destruct (trim (VTTCue.text c)) eqn:Et; [|discriminate].
    apply trim_nil in Et. rewrite ws_tokens_blank by exact Et. reflexivity.
Qed.

Lemma parseCue_fallback_witness :
  exec (VTTCue.text plain_cue) = None /\
  words (parseCue plain_cue 0) =
  [Word (num 3) (code_units "plain"); Word (num 3) (code_units "words");
   Word (num 3) (code_units "here")].
Proof.
  split; [reflexivity|].
  rewrite (parseCue_fallback plain_cue 0); reflexivity.
Defined.

Lemma loadAllCues_from_filter (cues : list VTTCue.t) :
  forall (i : nat) (acc : list cue),
    loadAllCues_from i cues acc =
    acc ++ List.filter (fun p => (0 <? length (words p))%nat)
             (imap (fun j c => parseCue c (i + j)) cues).
Proof.
  induction cues as [|c cues IH]; intros i acc; cbn [loadAllCues_from imap].
  - simpl. rewrite app_nil_r. reflexivity.
  - rewrite IH. cbn [List.filter]. rewrite Nat.add_0_r.
    assert (He : imap ((fun j c0 => parseCue c0 (i + j)) ∘ S) cues
                 = imap (fun j c0 => parseCue c0 (S i + j)) cues).
    { apply imap_ext. intros j x _. simpl. f_equal. lia. }
    rewrite He.
    destruct (0 <? length (words (parseCue c i)))%nat.
    + rewrite <- app_assoc. reflexivity.
    + reflexivity.
Qed.

Lemma loadAllCues_nonempty (cues : list VTTCue.t) (p : cue) :
  In p (loadAllCues cues) -> words p <> [].
Proof.
  unfold loadAllCues. rewrite loadAllCues_from_filter. simpl.
  rewrite List.filter_In. intros [_ H].
  destruct (words p); [discriminate H | discriminate].
Qed.

(** C9. [loadAllCues] keeps, in order, exactly the parsed cues that have at
    least one word: a cue whose parse has no word is left out, nothing is
    reported, the cues after it are still processed, and every line of the
    result has a non-empty word sequence. *)
Theorem loadAllCues_drops_empty (cues : list VTTCue.t) :
  loadAllCues cues =
    List.filter (fun p => (0 <? length (words p))%nat)
      (imap (fun i c => parseCue c i) cues)
  /\ Forall (fun p => words p <> []) (loadAllCues cues).
Proof.
  split.
  - unfold loadAllCues. rewrite loadAllCues_from_filter. reflexivity.
  - apply List.Forall_forall. intros p. apply loadAllCues_nonempty.
Qed.

Lemma exec_loop_blank (s : list N) :
  blank_matches s ->
  forall (ws : list word) (f : bool),
    fst (exec_loop s ws f) = ws /\
    (f = true \/ exec s <> None -> snd (exec_loop s ws f) = true).
Proof.
  induction 1 as [s Hs | s stamp tok rest Hs Ht _ IH]; intros ws f;
    rewrite exec_loop_step, Hs.
  - split; [reflexivity|]. intros [->|Hn]; [reflexivity | congruence].
  - unfold push_match. rewrite Ht. cbn [truthy].
    destruct (IH ws true) as [IH1 IH2]. split; [exact IH1|].
    intros _. apply IH2. left. reflexivity.
Qed.

(** C10. When the word regular expression matches somewhere in the text of a
    cue and every matched token is empty once trimmed, the white-space
    fallback is not applied: [parseCue] returns no word although the text has
    white-space delimited tokens, and [loadAllCues] never keeps that cue. *)
Theorem marker_suppresses_fallback (c : VTTCue.t) :
  exec (VTTCue.text c) <> None ->
  blank_matches (VTTCue.text c) ->
  (forall i, words (parseCue c i) = [])
  /\ ws_tokens (VTTCue.text c) <> []
  /\ (forall cues i, ~ In (parseCue c i) (loadAllCues cues)).
Proof.
  intros Hm Hb.
  assert (Hw : forall i, words (parseCue c i) = []).
  { intros i. unfold parseCue.
    destruct (exec_loop_blank _ Hb [] false) as [H1 H2].
    destruct (exec_loop (VTTCue.text c) [] false) as [ws f].
    simpl in H1, H2. subst ws. rewrite H2 by (right; exact Hm).
    reflexivity. }
  split; [exact Hw|]. split.
  - apply (ws_tokens_nonempty _ LT); [apply exec_has_lt; exact Hm | reflexivity].
  - intros cues i Hin. apply loadAllCues_nonempty in Hin. auto.
Qed.

Lemma marker_suppresses_fallback_witness :
  ws_tokens (VTTCue.text degenerate_cue) = [code_units "<00:00:10.000>"]
  /\ words (parseCue degenerate_cue 0) = []
  /\ loadAllCues [degenerate_cue] = [].
Proof.
  assert (Hm : exec (VTTCue.text degenerate_cue) <> None) by (vm_compute; discriminate).
  assert (Hb : blank_matches (VTTCue.text degenerate_cue)).
  { eapply blank_more; [vm_compute; reflexivity | reflexivity |].
    apply blank_done. reflexivity. }
  destruct (marker_suppresses_fallback degenerate_cue Hm Hb) as (Hw & _ & _).
  split; [reflexivity|]. split; [apply Hw | reflexivity].
Defined.

(** ** The engine: the reveal pass *)

Lemma reveal_loop_fields (t : number) (cs : list cue) :
  forall (i : nat) (st : state),
    currentLyricIndex (reveal_loop t i cs st) = currentLyricIndex st
    /\ previousLyricIndex (reveal_loop t i cs st) = previousLyricIndex st
    /\ timers (reveal_loop t i cs st) = timers st.
Proof.
  induction cs as [|c cs IH]; intros i st; cbn [reveal_loop]; [auto|].
  destruct (IH (S i)
    (if num_ge t (num_sub (start c) (num 2))
        && negb (bool_decide (i ∈ displayedCues st))
     then State ({[i]} ∪ displayedCues st) (currentLyricIndex st)
            (previousLyricIndex st) (appendLyricLine c i (document st))
            (timers st)
     else st)) as (H1 & H2 & H3).
  rewrite H1, H2, H3. case_match; auto.
Qed.

Lemma reveal_loop_mono (t : number) (cs : list cue) :
  forall (i : nat) (st : state),
    displayedCues st ⊆ displayedCues (reveal_loop t i cs st).
Proof.
  induction cs as [|c cs IH]; intros i st; cbn [reveal_loop]; [done|].
  etrans; [|apply IH]. case_match; simpl; set_solver.
Qed.

Lemma reveal_loop_reveals (t : number) (cs : list cue) :
  forall (i : nat) (st : state) (j : nat) (c : cue),
    cs !! j = Some c ->
    num_ge t (num_sub (start c) (num 2)) = true ->
    (i + j)%nat ∈ displayedCues (reveal_loop t i cs st).
Proof.
  induction cs as [|d cs IH]; intros i st j c Hj Hc; [done|].
  cbn [reveal_loop]. destruct j as [|j]; simpl in Hj.
  - injection Hj as ->. rewrite Hc, Nat.add_0_r.
    apply reveal_loop_mono.
    cbn [andb]. case_bool_decide; simpl; set_solver.
  - replace (i + S j)%nat with (S i + j)%nat by lia. eapply IH; eauto.
Qed.

Lemma appendLyricLine_keeps (c : cue) (i k : nat) (doc : gmap nat element)
  (e : element) :
  doc !! k = Some e -> appendLyricLine c i doc !! k = Some e.
Proof.
  intros H. unfold appendLyricLine. destruct (doc !! i) eqn:E; [exact H|].
  rewrite lookup_insert_ne; [exact H | congruence].
Qed.

Lemma reveal_loop_keeps (t : number) (cs : list cue) :
  forall (i : nat) (st : state) (k : nat) (e : element),
    document st !! k = Some e ->
    document (reveal_loop t i cs st) !! k = Some e.
Proof.
  induction cs as [|c cs IH]; intros i st k e H; cbn [reveal_loop]; [done|].
  apply IH. case_match; simpl; [apply appendLyricLine_keeps|]; exact H.
Qed.

Lemma num_window_lookahead (s t : number) :
  num_le s (num_add t (num 2)) = true -> num_ge t (num_sub s (num 2)) = true.
Proof.
  destruct s as [s|], t as [t|]; simpl; try discriminate.
  rewrite !Qle_bool_iff. intros H. lra.
Qed.

(** ** The engine: choosing the active line *)

Lemma find_active_spec (t : number) (D : gset nat) (cs : list cue) :
  forall (i a : nat),
    find_active t D i cs = Some a ->
    exists (j : nat) (c : cue),
      a = (i + j)%nat /\ cs !! j = Some c /\ a ∈ D /\ in_window t c = true
      /\ forall (j' : nat) (c' : cue),
           (j' < j)%nat -> cs !! j' = Some c' -> (i + j')%nat ∈ D ->
           in_window t c' = false.
Proof.
  induction cs as [|d cs IH]; intros i a; cbn [find_active]; [discriminate|].
  destruct (bool_decide (i ∈ D) && in_window t d) eqn:E.
  - intros [= <-]. apply andb_true_iff in E as [Hd Hw].
    apply bool_decide_eq_true in Hd.
    exists 0%nat, d. rewrite Nat.add_0_r. repeat split; auto. lia.
  - intros H. destruct (IH _ _ H) as (j & c & -> & Hj & Ha & Hw & Hmin).
    exists (S j), c.
    split; [lia|]. split; [exact Hj|]. split; [exact Ha|]. split; [exact Hw|].
    intros [|j'] c' Hlt Hc' Hin; simpl in Hc'.
    + injection Hc' as <-. rewrite Nat.add_0_r in Hin.
      apply andb_false_iff in E as [E|E]; [|exact E].
      apply bool_decide_eq_false in E. contradiction.
    + apply (Hmin j' c'); [lia | exact Hc' |].
      replace (S i + j')%nat with (i + S j')%nat by lia. exact Hin.
Qed.

Lemma find_active_some (t : number) (D : gset nat) (cs : list cue) :
  forall (i j : nat) (c : cue),
    cs !! j = Some c -> (i + j)%nat ∈ D -> in_window t c = true ->
    is_Some (find_active t D i cs).
Proof.
  induction cs as [|d cs IH]; intros i j c Hj Hin Hw; [done|].
  cbn [find_active].
  destruct (bool_decide (i ∈ D) && in_window t d) eqn:E; [eauto|].
  destruct j as [|j]; simpl in Hj.
  - injection Hj as ->. rewrite Nat.add_0_r in Hin.
    rewrite Hw, bool_decide_eq_true_2 in E by exact Hin. discriminate.
  - apply (IH (S i) j c); auto.
    replace (S i + j)%nat with (i + S j)%nat by lia. exact Hin.
Qed.

Lemma syncLyrics_displayed (allCues : list cue) (t : number) (st : state) :
  displayedCues (syncLyrics allCues t st) =
  displayedCues (appendLyricsIfNeeded allCues t st).
Proof.
  unfold syncLyrics. destruct allCues as [|c0 cs]; [reflexivity|].
  cbv zeta. unfold highlight. repeat case_match; reflexivity.
Qed.

Lemma syncLyrics_current (allCues : list cue) (t : number) (st : state) :
  allCues <> [] ->
  currentLyricIndex (syncLyrics allCues t st) =
  find_active t (displayedCues (appendLyricsIfNeeded allCues t st)) 0 allCues.
Proof.
  intros Hne. unfold syncLyrics. destruct allCues as [|c0 cs]; [done|].
  cbv zeta.
  set (st1 := appendLyricsIfNeeded (c0 :: cs) t st).
  set (act := find_active t (displayedCues st1) 0 (c0 :: cs)).
  unfold highlight. case_bool_decide as Hd.
  - repeat case_match; reflexivity.
  - assert (act = currentLyricIndex st1) as <-.
    { destruct (decide (act = currentLyricIndex st1)); [done | contradiction]. }
    repeat case_match; simpl; congruence.
Qed.

Lemma appendLyricsIfNeeded_mono (allCues : list cue) (t : number) (st : state) :
  displayedCues st ⊆ displayedCues (appendLyricsIfNeeded allCues t st).
Proof.
  unfold appendLyricsIfNeeded. destruct allCues; [done|]. apply reveal_loop_mono.
Qed.

(** C1, as the specification states it, fails: with the adjacent cues [0,5]
    and [5,10] both revealed and a tick at time 5, both windows contain the
    tick time and line 0 is made active, not line 1. *)
Lemma highest_index_wins_counterexample :
  ~ highest_index_wins adjacent_cues (num 5) init.
Proof.
  intros H.
  destruct (H 1%nat (Cue 1 (num 5) (num 10) [Word (num 5) (code_units "two")]))
    as (a & Ha & Hle).
  - reflexivity.
  - decide_by_compute.
  - reflexivity.
  - assert (Hc : currentLyricIndex (syncLyrics adjacent_cues (num 5) init)
                 = Some 0%nat) by (vm_compute; reflexivity).
    rewrite Hc in Ha. injection Ha as <-. lia.
Qed.

(** C1, amended. At a tick at which a revealed line has the tick time in its
    window [start, end + 0.1] (the upper end as the code computes it, in
    double arithmetic), exactly one line is made active; it is revealed, its
    window contains the tick time, and its index is the lowest among the
    revealed lines whose window contains the tick time. *)
Theorem lowest_index_wins (allCues : list cue) (t : number) (st : state)
  (i : nat) (c : cue) :
  allCues !! i = Some c ->
  i ∈ displayedCues (syncLyrics allCues t st) ->
  in_window t c = true ->
  exists (a : nat) (ca : cue),
    currentLyricIndex (syncLyrics allCues t st) = Some a
    /\ allCues !! a = Some ca
    /\ a ∈ displayedCues (syncLyrics allCues t st)
    /\ in_window t ca = true
    /\ (a <= i)%nat.
Proof.
  intros Hi Hd Hw.
  assert (Hne : allCues <> []) by (intros ->; discriminate).
  rewrite syncLyrics_displayed in *. rewrite syncLyrics_current by exact Hne.
  destruct (find_active_some t _ allCues 0 i c Hi Hd Hw) as [a Ha].
  rewrite Ha. destruct (find_active_spec _ _ _ _ _ Ha)
    as (j & ca & -> & Hj & Hin & Hwa & Hmin).
  simpl in *. exists j, ca. repeat split; auto.
  destruct (le_lt_dec j i) as [|Hlt]; [assumption|].
  rewrite (Hmin i c Hlt Hi Hd) in Hw. discriminate.
Qed.

Lemma lowest_index_wins_witness :
  exists (a : nat) (ca : cue),
    currentLyricIndex (syncLyrics adjacent_cues (num 5) init) = Some a
    /\ adjacent_cues !! a = Some ca
    /\ a ∈ displayedCues (syncLyrics adjacent_cues (num 5) init)
    /\ in_window (num 5) ca = true
    /\ (a <= 1)%nat.
Proof.
  apply (lowest_index_wins adjacent_cues (num 5) init 1%nat
           (Cue 1 (num 5) (num 10) [Word (num 5) (code_units "two")])).
  - reflexivity.
  - decide_by_compute.
  - reflexivity.
Defined.

(** C3. Right after the seek-bar listener has run for the time [T], every
    line whose start is at most [T + 2] is in the revealed set, whatever the
    state before the seek was. *)
Theorem seek_reveals (allCues : list cue) (T : number) (st : state)
  (i : nat) (c : cue) :
  allCues !! i = Some c ->
  num_le (start c) (num_add T (num 2)) = true ->
  i ∈ displayedCues (seekBar_input allCues T st).
Proof.
  intros Hi Hs. unfold seekBar_input.
  destruct allCues as [|c0 cs] eqn:E; [discriminate|].
  apply (reveal_loop_reveals T (c0 :: cs) 0 st i c Hi).
  apply num_window_lookahead. exact Hs.
Qed.

Lemma seek_reveals_witness :
  1%nat ∈ displayedCues (seekBar_input adjacent_cues (num 7) init).
Proof.
  apply (seek_reveals adjacent_cues (num 7) init 1%nat
           (Cue 1 (num 5) (num 10) [Word (num 5) (code_units "two")])).
  - reflexivity.
  - reflexivity.
Defined.

(** ** The engine: what every event preserves *)

Lemma step_mono (allCues : list cue) (st : state) (ev : event) :
  displayedCues st ⊆ displayedCues (step allCues st ev).
Proof.
  destruct ev as [t|T|k]; simpl.
  - rewrite syncLyrics_displayed. apply appendLyricsIfNeeded_mono.
  - unfold seekBar_input. destruct allCues; [done|]. apply reveal_loop_mono.
  - unfold timeout. case_match; done.
Qed.

(** C4. Whatever the sequence of ticks, seeks (forward or backward) and
    timer callbacks, and whatever the tick times, no line index ever leaves
    the revealed set. *)
Theorem reveal_monotone (allCues : list cue) (evs : list event) (st : state) :
  displayedCues st ⊆ displayedCues (run allCues evs st).
Proof.
  revert st. induction evs as [|ev evs IH]; intros st; simpl; [done|].
  etrans; [apply (step_mono allCues st ev) | apply IH].
Qed.

Lemma step_current_revealed (allCues : list cue) (st : state) (ev : event) :
  current_revealed st -> current_revealed (step allCues st ev).
Proof.
  intros Hinv a. destruct ev as [t|T|k]; simpl.
  - destruct allCues as [|c0 cs] eqn:E; [apply Hinv|]. rewrite <- E.
    rewrite syncLyrics_displayed, syncLyrics_current by (subst; discriminate).
    intros Ha. apply find_active_spec in Ha as (j & c & _ & _ & Hin & _).
    exact Hin.
  - unfold seekBar_input. destruct allCues as [|c0 cs]; [apply Hinv|].
    destruct (reveal_loop_fields T (c0 :: cs) 0 st) as (-> & _ & _).
    intros Ha. apply (reveal_loop_mono T (c0 :: cs) 0 st). auto.
  - unfold timeout. case_match; [simpl|]; apply Hinv.
Qed.

Lemma run_current_revealed (allCues : list cue) (evs : list event) :
  forall st : state,
    current_revealed st -> current_revealed (run allCues evs st).
Proof.
  induction evs as [|ev evs IH]; intros st H; simpl; [exact H|].
  apply IH, step_current_revealed, H.
Qed.

(** C5. In every state the page reaches by ticks, seeks and timer callbacks,
    the line that is active, if any, is in the revealed set; a tick chooses
    it among the members of the revealed set it has just completed, so no
    line becomes active before it is revealed. *)
Theorem active_line_revealed (allCues : list cue) (evs : list event) (a : nat) :
  currentLyricIndex (run allCues evs init) = Some a ->
  a ∈ displayedCues (run allCues evs init).
Proof.
  apply (run_current_revealed allCues evs init). intros b. discriminate.
Qed.

Lemma active_line_revealed_witness :
  1%nat ∈ displayedCues
    (run adjacent_cues [TimeUpdate (num 1); SeekInput (num 7); TimeUpdate (num 7)] init).
Proof.
  apply (active_line_revealed adjacent_cues
           [TimeUpdate (num 1); SeekInput (num 7); TimeUpdate (num 7)] 1%nat).
  vm_compute. reflexivity.
Defined.

(** ** The engine: completion of a line *)

Lemma appendLyricLine_played (c : cue) (i k : nat) (doc : gmap nat element) :
  (cls_played <$> appendLyricLine c i doc !! k) = Some true ->
  (cls_played <$> doc !! k) = Some true.
Proof.
  unfold appendLyricLine. destruct (doc !! i) eqn:E; [auto|].
  destruct (decide (i = k)) as [->|Hne].
  - rewrite lookup_insert_eq. discriminate.
  - rewrite lookup_insert_ne by exact Hne. auto.
Qed.

Lemma played_lookup (st : state) (k : nat) :
  played st k = true <-> (cls_played <$> document st !! k) = Some true.
Proof.
  unfold played. destruct (document st !! k) as [e|]; simpl.
  - split; [intros ->; reflexivity | intros [= ->]; reflexivity].
  - split; discriminate.
Qed.

Lemma reveal_loop_played (t : number) (cs : list cue) :
  forall (i : nat) (st : state) (k : nat),
    played (reveal_loop t i cs st) k = true -> played st k = true.
Proof.
  induction cs as [|c cs IH]; intros i st k; cbn [reveal_loop]; [auto|].
  intros H. apply IH in H. revert H. case_match; [|auto].
  rewrite !played_lookup. simpl. apply appendLyricLine_played.
Qed.

Lemma force_previous_played (act : option nat) (st : state) (k : nat) :
  (cls_played <$> (force_previous act st).1 !! k) = (cls_played <$> document st !! k).
Proof.
  unfold force_previous. repeat case_match; simpl; try reflexivity.
  destruct (decide (n = k)) as [->|Hne].
  - rewrite lookup_insert_eq. simpl.
    match goal with H : document st !! k = Some _ |- _ => rewrite H end.
    reflexivity.
  - rewrite lookup_insert_ne by exact Hne. reflexivity.
Qed.

Lemma mark_active_played (act : option nat) (doc : gmap nat element) (k : nat) :
  (cls_played <$> mark_active act doc !! k) = Some true ->
  (cls_played <$> doc !! k) = Some true.
Proof.
  unfold mark_active. repeat case_match; auto.
  destruct (decide (n = k)) as [->|Hne].
  - rewrite lookup_insert_eq. discriminate.
  - rewrite lookup_insert_ne by exact Hne. auto.
Qed.

Lemma highlight_played (allCues : list cue) (t : number) (act : option nat)
  (st : state) (k : nat) :
  played (highlight allCues t act st) k = played st k.
Proof.
  unfold highlight, played. repeat case_match; simplify_map_eq; try reflexivity.
  all: destruct (decide (n = k)) as [->|Hne]; simplify_map_eq; reflexivity.
Qed.

Lemma syncLyrics_played (allCues : list cue) (t : number) (st : state) (k : nat) :
  played (syncLyrics allCues t st) k = true -> played st k = true.
Proof.
  unfold syncLyrics. destruct allCues as [|c0 cs]; [auto|]. cbv zeta.
  rewrite highlight_played.
  set (st1 := appendLyricsIfNeeded (c0 :: cs) t st).
  set (act := find_active t (displayedCues st1) 0 (c0 :: cs)).
  intros H.
  assert (H1 : played st1 k = true).
  { revert H. case_bool_decide as Hd; [|auto].
    destruct (force_previous act st1) as [doc tms] eqn:E.
    rewrite !played_lookup. simpl. intros Hp.
    apply mark_active_played in Hp.
    rewrite <- (force_previous_played act st1 k), E. exact Hp. }
  revert H1. apply reveal_loop_played.
Qed.

Lemma force_previous_timers (act : option nat) (st : state) (tm : timer) :
  In tm (force_previous act st).2 -> In tm (timers st) \/ delay tm = 100%N.
Proof.
  unfold force_previous. repeat case_match; simpl; auto.
  rewrite in_app_iff. simpl. intros [Hin|[<-|[]]]; auto.
Qed.

Lemma syncLyrics_timers (allCues : list cue) (t : number) (st : state) (tm : timer) :
  In tm (timers (syncLyrics allCues t st)) ->
  In tm (timers st) \/ delay tm = 100%N.
Proof.
  unfold syncLyrics. destruct allCues as [|c0 cs]; [auto|]. cbv zeta.
  set (st1 := appendLyricsIfNeeded (c0 :: cs) t st).
  set (act := find_active t (displayedCues st1) 0 (c0 :: cs)).
  assert (Ht : timers st1 = timers st)
    by apply (reveal_loop_fields t (c0 :: cs) 0 st).
  assert (Hh : forall s, timers (highlight (c0 :: cs) t act s) = timers s).
  { intros s. unfold highlight. repeat case_match; reflexivity. }
  rewrite Hh. case_bool_decide as Hd; [|rewrite Ht; auto].
  pose proof (force_previous_timers act st1 tm) as Hf.
  destruct (force_previous act st1) as [doc tms]. simpl in *.
  rewrite <- Ht. exact Hf.
Qed.

Lemma step_timers_deferred (allCues : list cue) (st : state) (ev : event) :
  timers_deferred st -> timers_deferred (step allCues st ev).
Proof.
  unfold timers_deferred. rewrite !List.Forall_forall. intros H tm.
  destruct ev as [t|T|k]; simpl.
  - intros Hin. apply syncLyrics_timers in Hin as [Hin|Hd]; auto.
  - unfold seekBar_input. destruct allCues as [|c0 cs]; [auto|].
    destruct (reveal_loop_fields T (c0 :: cs) 0 st) as (_ & _ & ->). auto.
  - unfold timeout. case_match; [simpl|auto].
    intros Hin. apply H. apply list_elem_of_In in Hin. apply list_elem_of_In.
    eapply list_elem_of_delete_inv. exact Hin.
Qed.

Lemma run_timers_deferred (allCues : list cue) (evs : list event) :
  forall st : state,
    timers_deferred st -> timers_deferred (run allCues evs st).
Proof.
  induction evs as [|ev evs IH]; intros st H; simpl; [exact H|].
  apply IH, step_timers_deferred, H.
Qed.

(** C7, as the specification states it, fails: with the adjacent cues [0,5]
    and [5,10], line 0 active after a tick at time 1 and a seek to time 7,
    line 0 is marked played neither by the seek listener nor by the tick at
    time 7 that follows, which makes line 1 active. *)
Lemma seek_completes_active_counterexample :
  ~ seek_completes_active adjacent_cues (num 7)
      (run adjacent_cues [TimeUpdate (num 1)] init).
Proof.
  intros H. destruct (H 0%nat) as [Hp|Hp].
  - vm_compute. reflexivity.
  - vm_compute. discriminate.
  - vm_compute in Hp. discriminate.
  - vm_compute in Hp. discriminate.
Qed.

(** C7, amended. The seek listener only runs the reveal pass: it leaves the
    active and the previous line index, the pending timers and every element
    already in the document as they are, so it marks no line played. No tick
    marks a line played either: a line is marked played only by a callback
    handed to [setTimeout], and every such callback of every reachable state
    has the fixed delay of 100 ms. *)
Theorem seek_defers_completion (allCues : list cue) :
  (forall (T : number) (st : state),
      currentLyricIndex (seekBar_input allCues T st) = currentLyricIndex st
      /\ previousLyricIndex (seekBar_input allCues T st) = previousLyricIndex st
      /\ timers (seekBar_input allCues T st) = timers st
      /\ (forall (k : nat) (e : element),
             document st !! k = Some e ->
             document (seekBar_input allCues T st) !! k = Some e)
      /\ (forall k : nat,
             played (seekBar_input allCues T st) k = true -> played st k = true))
  /\ (forall (t : number) (st : state) (k : nat),
         played (syncLyrics allCues t st) k = true -> played st k = true)
  /\ (forall evs : list event,
         Forall (fun tm => delay tm = 100%N) (timers (run allCues evs init))).
Proof.
  split; [|split].
  - intros T st. unfold seekBar_input. destruct allCues as [|c0 cs].
    + repeat split; auto.
    + destruct (reveal_loop_fields T (c0 :: cs) 0 st) as (H1 & H2 & H3).
      repeat split; auto.
      * intros k e. apply reveal_loop_keeps.
      * intros k. apply reveal_loop_played.
  - intros t st k. apply syncLyrics_played.
  - intros evs. apply (run_timers_deferred allCues evs init). constructor.
Qed.

(** ** The engine: the document and the revealed set agree *)







Lemma toggle_loop_length (t : number) (c : cue) (ws : list word) :
  forall (k : nat) (spans : list bool),
    length (toggle_loop t c k ws spans) = length spans.
Proof.
  induction ws as [|w ws IH]; intros k spans; cbn [toggle_loop]; [reflexivity|].
  rewrite IH. apply length_insert.
Qed.

Lemma toggle_loop_before (t : number) (c : cue) (ws : list word) :
  forall (k : nat) (spans : list bool) (i : nat),
    (i < k)%nat -> toggle_loop t c k ws spans !! i = spans !! i.
Proof.
  induction ws as [|w ws IH]; intros k spans i Hlt; cbn [toggle_loop]; [reflexivity|].
  rewrite IH by lia. apply list_lookup_insert_ne. lia.
Qed.

Lemma toggle_loop_lookup (t : number) (c : cue) (ws : list word) :
  forall (k : nat) (spans : list bool) (i : nat) (w : word),
    ws !! i = Some w -> (k + i < length spans)%nat ->
    toggle_loop t c k ws spans !! (k + i)%nat = Some (shouldHighlight t c (k + i) w).
Proof.
  induction ws as [|v ws IH]; intros k spans i w Hi Hlen; [done|].
  cbn [toggle_loop]. destruct i as [|i]; simpl in Hi.
  - injection Hi as ->. rewrite Nat.add_0_r in *.
    rewrite toggle_loop_before by lia.
    apply list_lookup_insert_eq. exact Hlen.
  - replace (k + S i)%nat with (S k + i)%nat by lia.
    apply IH; [exact Hi|]. rewrite length_insert. lia.
Qed.








(** ** The engine: word highlighting *)







(** ** The parser: texts made of markers *)

Lemma digit_char_facts (d : nat) :
  (d < 10)%nat ->
  is_digit (digit_char d) = true
  /\ is_ws (digit_char d) = false
  /\ digit_val (digit_char d) = Z.of_nat d
  /\ (digit_char d =? COLON)%N = false
  /\ (forall s, sign (digit_char d :: s) = (1%Z, digit_char d :: s)).
Proof.
  intros H. do 10 (destruct d as [|d]; [repeat split|]). lia.
Qed.

Lemma match_stamp_digits (a b c d e f g h i : N) (rest : list N) :
  is_digit a = true -> is_digit b = true -> is_digit c = true ->
  is_digit d = true -> is_digit e = true -> is_digit f = true ->
  is_digit g = true -> is_digit h = true -> is_digit i = true ->
  match_stamp (a :: b :: COLON :: c :: d :: COLON :: e :: f :: DOT :: g :: h :: i :: rest)
  = Some ([a; b; COLON; c; d; COLON; e; f; DOT; g; h; i], rest).
Proof.
  intros Ha Hb Hc Hd He Hf Hg Hh Hi. unfold match_stamp.
  rewrite Ha, Hb, Hc, Hd, He, Hf, Hg, Hh, Hi. reflexivity.
Qed.

Lemma span_not_lt_app (tok rest : list N) :
  ~ In LT tok -> (rest = [] \/ exists r, rest = LT :: r) ->
  span_not_lt (tok ++ rest) = (tok, rest).
Proof.
  intros Hn Hr. induction tok as [|c tok IH]; simpl.
  - destruct Hr as [->|[r ->]]; reflexivity.
  - destruct (c =? LT)%N eqn:E.
    + apply N.eqb_eq in E. exfalso. apply Hn. left. auto.
    + rewrite IH; [reflexivity|]. intros Hin. apply Hn. right. exact Hin.
Qed.

Lemma marked_text_head (es : list timed_word) :
  marked_text es = [] \/ exists r, marked_text es = LT :: r.
Proof.
  destruct es as [|e es]; [left; reflexivity|]. right. simpl. eauto.
Qed.

Lemma stamp_digits (e : timed_word) :
  well_formed e ->
  exists a b c d x f g h i : N,
    stamp_of e = [a; b; COLON; c; d; COLON; x; f; DOT; g; h; i]
    /\ is_digit a = true /\ is_digit b = true /\ is_digit c = true
    /\ is_digit d = true /\ is_digit x = true /\ is_digit f = true
    /\ is_digit g = true /\ is_digit h = true /\ is_digit i = true.
Proof.
  intros (Hh & Hm & Hs & Hms & _).
  assert (D : forall n, (n < 10)%nat -> is_digit (digit_char n) = true)
    by (intros n Hn; apply digit_char_facts; exact Hn).
  do 9 eexists. split; [reflexivity|].
  repeat split; apply D.
  all: try (apply Nat.Div0.div_lt_upper_bound; lia).
  all: try (apply Nat.mod_upper_bound; lia).
Qed.

Lemma match_at_marker (e : timed_word) (rest : list N) :
  well_formed e -> (rest = [] \/ exists r, rest = LT :: r) ->
  match_at (marker e ++ rest) = Some (stamp_of e, token e, rest).
Proof.
  intros Hwf Hr.
  destruct (stamp_digits e Hwf)
    as (a & b & c & d & x & f & g & h & i & Hst & Ha & Hb & Hc & Hd & Hx & Hf & Hg & Hh & Hi).
  destruct Hwf as (_ & _ & _ & _ & Hne & Hlt).
  unfold marker. rewrite Hst. cbn [app match_at].
  change (LT =? LT)%N with true. cbv iota.
  rewrite match_stamp_digits by assumption.
  change (GT =? GT)%N with true. cbv iota.
  rewrite span_not_lt_app by assumption.
  destruct (token e); [contradiction | reflexivity].
Qed.

Lemma exec_skip (pre s : list N) (m : list N * list N * list N) :
  ~ In LT pre -> match_at s = Some m -> exec (pre ++ s) = Some m.
Proof.
  intros Hn Hm. induction pre as [|c pre IH]; cbn [app].
  - destruct s; cbn [exec]; rewrite Hm; reflexivity.
  - cbn [exec].
    assert (Hc : match_at (c :: pre ++ s) = None).
    { unfold match_at. destruct (c =? LT)%N eqn:E; [|reflexivity].
      apply N.eqb_eq in E. exfalso. apply Hn. left. auto. }
    rewrite Hc. apply IH. intros Hin. apply Hn. right. exact Hin.
Qed.

Lemma exec_no_lt (s : list N) : ~ In LT s -> exec s = None.
Proof.
  intros Hn. destruct (exec s) eqn:E; [|reflexivity].
  exfalso. apply Hn, exec_has_lt. congruence.
Qed.

Lemma exec_loop_marked (es : list timed_word) :
  Forall well_formed es ->
  forall (pre : list N) (ws : list word) (f : bool),
    ~ In LT pre ->
    exec_loop (pre ++ marked_text es) ws f =
    (ws ++ pushed_words es, f || match es with [] => false | _ :: _ => true end).
Proof.
  induction 1 as [|e es He Hes IH]; intros pre ws f Hpre; rewrite exec_loop_step.
  - simpl. rewrite !app_nil_r, orb_false_r.
    rewrite exec_no_lt by exact Hpre. reflexivity.
  - change (marked_text (e :: es)) with (marker e ++ marked_text es).
    rewrite (exec_skip pre _ (stamp_of e, token e, marked_text es) Hpre)
      by (apply match_at_marker; [exact He | apply marked_text_head]).
    rewrite (IH [] _ true) by (simpl; tauto).
    rewrite orb_true_r. cbn [orb pushed_words flat_map]. unfold push_match.
    destruct (truthy (trim (token e))); cbn [app].
    + rewrite <- app_assoc. reflexivity.
    + reflexivity.
Qed.

Lemma split_on_from_digit (d : nat) (tok s : list N) :
  (d < 10)%nat ->
  split_on_from COLON tok (digit_char d :: s)
  = split_on_from COLON (digit_char d :: tok) s.
Proof.
  intros H. destruct (digit_char_facts d H) as (_ & _ & _ & Hc & _).
  cbn [split_on_from]. rewrite Hc. reflexivity.
Qed.

Lemma split_on_from_colon (tok s : list N) :
  split_on_from COLON tok (COLON :: s) = rev tok :: split_on_from COLON [] s.
Proof. reflexivity. Qed.

Lemma split_on_from_dot (tok s : list N) :
  split_on_from COLON tok (DOT :: s) = split_on_from COLON (DOT :: tok) s.
Proof. reflexivity. Qed.

Lemma digits_from_digit (d : nat) (acc : Z) (n : nat) (s : list N) :
  (d < 10)%nat ->
  digits_from acc n (digit_char d :: s)
  = digits_from (10 * acc + Z.of_nat d)%Z (S n) s.
Proof.
  intros H. destruct (digit_char_facts d H) as (Hd & _ & Hv & _ & _).
  cbn [digits_from]. rewrite Hd, Hv. reflexivity.
Qed.

Lemma parseInt_two_digits (n : nat) :
  (n < 100)%nat -> parseInt (two_digits n) = num (Z.of_nat n).
Proof.
  intros H.
  assert (H1 : (n / 10 < 10)%nat) by (apply Nat.Div0.div_lt_upper_bound; lia).
  assert (H2 : (n mod 10 < 10)%nat) by (apply Nat.mod_upper_bound; lia).
  destruct (digit_char_facts _ H1) as (_ & Hw & _ & _ & Hs).
  unfold parseInt, two_digits. cbn [trimStart]. rewrite Hw, Hs.
  unfold digits. rewrite !digits_from_digit by assumption.
  cbn [digits_from].
  replace (1 * (10 * (10 * 0 + Z.of_nat (n / 10)) + Z.of_nat (n mod 10)))%Z
    with (Z.of_nat n) by (pose proof (Nat.div_mod_eq n 10); lia).
  unfold num. f_equal. apply round64_int. lia.
Qed.

Lemma parseFloat_seconds (s m : nat) :
  (s < 100)%nat -> (m < 1000)%nat ->
  parseFloat (two_digits s ++ DOT :: three_digits m)
  = Some (round64 (inject_Z (Z.of_nat s) + inject_Z (Z.of_nat m) / 1000)).
Proof.
  intros Hs Hm.
  assert (H1 : (s / 10 < 10)%nat) by (apply Nat.Div0.div_lt_upper_bound; lia).
  assert (H2 : (s mod 10 < 10)%nat) by (apply Nat.mod_upper_bound; lia).
  assert (H3 : (m / 100 < 10)%nat) by (apply Nat.Div0.div_lt_upper_bound; lia).
  assert (H4 : (m / 10 mod 10 < 10)%nat) by (apply Nat.mod_upper_bound; lia).
  assert (H5 : (m mod 10 < 10)%nat) by (apply Nat.mod_upper_bound; lia).
  destruct (digit_char_facts _ H1) as (_ & Hw & _ & _ & Hsg).
  unfold parseFloat, two_digits, three_digits. cbn [trimStart app].
  rewrite Hw, Hsg. unfold digits.
  rewrite !digits_from_digit by assumption. cbn [digits_from].
  change (is_digit DOT) with false. cbv iota.
  change (DOT =? DOT)%N with true. cbv iota.
  rewrite !digits_from_digit by assumption. cbn [digits_from exponent].
  replace (10 * (10 * 0 + Z.of_nat (s / 10)) + Z.of_nat (s mod 10))%Z
    with (Z.of_nat s) by (pose proof (Nat.div_mod_eq s 10); lia).
  replace (10 * (10 * (10 * 0 + Z.of_nat (m / 100)) + Z.of_nat (m / 10 mod 10))
           + Z.of_nat (m mod 10))%Z
    with (Z.of_nat m)
    by (pose proof (Nat.div_mod_eq m 10); pose proof (Nat.div_mod_eq (m / 10) 10);
        replace (m / 100)%nat with (m / 10 / 10)%nat
          by (rewrite Nat.Div0.div_div; reflexivity);
        lia).
  f_equal. apply round64_proper.
  change (inject_Z (10 ^ Z.of_nat 3)) with 1000%Q.
  change (Qpower 10 0) with 1%Q. change (inject_Z 1) with 1%Q.
  field.
Qed.

Lemma num_eq_refl (a : number) : num_eq a a.
Proof. destruct a; simpl; [apply Qeq_refl | exact I]. Qed.

Lemma timeToSeconds_stamp (e : timed_word) :
  well_formed e -> timeToSeconds (stamp_of e) = seconds_of e.
Proof.
  intros (Hh & Hm & Hs & Hms & _).
  assert (D1 : forall n, (n / 10 < 10)%nat <-> (n < 100)%nat)
    by (intros n; pose proof (Nat.div_mod_eq n 10);
        pose proof (Nat.mod_upper_bound n 10); lia).
  assert (D2 : forall n, (n mod 10 < 10)%nat)
    by (intros n; apply Nat.mod_upper_bound; lia).
  assert (D3 : (ms e / 100 < 10)%nat)
    by (apply Nat.Div0.div_lt_upper_bound; lia).
  unfold timeToSeconds, split_on, stamp_of, two_digits, three_digits.
  cbn [app].
  repeat first
    [ rewrite split_on_from_digit by (first [apply D1; assumption | apply D2 | exact D3])
    | rewrite split_on_from_colon
    | rewrite split_on_from_dot ].
  cbn [split_on_from rev app].
  change [digit_char (hh e / 10); digit_char (hh e mod 10)] with (two_digits (hh e)).
  change [digit_char (mm e / 10); digit_char (mm e mod 10)] with (two_digits (mm e)).
  change [digit_char (ss e / 10); digit_char (ss e mod 10); 46%N;
          digit_char (ms e / 100); digit_char (ms e / 10 mod 10);
          digit_char (ms e mod 10)]
    with (two_digits (ss e) ++ DOT :: three_digits (ms e)).
  rewrite !parseInt_two_digits by assumption.
  pose proof (parseFloat_seconds (ss e) (ms e) Hs Hms) as Hf.
  unfold two_digits, three_digits in Hf. cbn [app] in Hf. rewrite Hf.
  rewrite !js_mul_int by lia. rewrite !js_add_int by lia.
  unfold seconds_of, double_seconds, js_add, num. do 4 f_equal. lia.
Qed.

Lemma pushed_expected (es : list timed_word) :
  Forall well_formed es ->
  Forall2 word_eq (pushed_words es) (expected_words es).
Proof.
  induction 1 as [|e es He Hes IH]; cbn [pushed_words expected_words flat_map].
  - constructor.
  - destruct (truthy (trim (token e))); cbn [app]; [|exact IH].
    constructor; [|exact IH]. split; [|reflexivity]. cbn [time].
    rewrite (timeToSeconds_stamp e He). apply num_eq_refl.
Qed.

(** C2, as the specification states it, fails for the [MM:SS.mmm] form:
    [timeToSeconds] converts "00:10.000" to 10 seconds, but the marker
    [<00:10.000>] is not matched by the word regular expression, so the cue
    "<00:10.000>Hello" that starts at 3 gets the single fallback word
    "<00:10.000>Hello" at time 3 and no word "Hello" at time 10. *)
Lemma short_marker_counterexample :
  num_eq (timeToSeconds (code_units "00:10.000")) (num 10)
  /\ words (parseCue short_marker_cue 0)
     = [Word (num 3) (code_units "<00:10.000>Hello")]
  /\ ~ (exists w : word,
           In w (words (parseCue short_marker_cue 0))
           /\ num_eq (time w) (num 10) /\ text w = code_units "Hello").
Proof.
  split; [vm_compute; reflexivity|]. split; [reflexivity|].
  intros (w & Hin & _ & Ht).
  change (words (parseCue short_marker_cue 0))
    with [Word (num 3) (code_units "<00:10.000>Hello")] in Hin.
  destruct Hin as [<-|[]]. discriminate Ht.
Qed.

(** Round trip: a text written as markers [<HH:MM:SS.mmm>] followed by
    non-empty tokens without [<], possibly after a prefix without [<], is
    parsed back into those times and trimmed tokens, in order. *)
Lemma parseCue_round_trip (c : VTTCue.t) (i : nat) (pre : list N)
  (es : list timed_word) :
  VTTCue.text c = pre ++ marked_text es ->
  ~ In LT pre ->
  es <> [] ->
  Forall well_formed es ->
  Forall2 word_eq (words (parseCue c i)) (expected_words es).
Proof.
  intros Ht Hpre Hne Hwf. unfold parseCue. rewrite Ht.
  rewrite (exec_loop_marked es Hwf pre [] false Hpre).
  destruct es as [|e es]; [contradiction|].
  cbn [orb negb andb app words]. apply pushed_expected. exact Hwf.
Qed.

Lemma exec_loop_matches (s : list N) (ms : list (list N * list N)) :
  all_matches s ms ->
  forall (ws : list word) (f : bool),
    exec_loop s ws f =
    (ws ++ pushed_matches ms, f || match ms with [] => false | _ :: _ => true end).
Proof.
  induction 1 as [s Hs | s stamp tok rest ms Hs _ IH]; intros ws f;
    rewrite exec_loop_step, Hs.
  - simpl. rewrite app_nil_r, orb_false_r. reflexivity.
  - rewrite IH, orb_true_r. cbn [orb pushed_matches flat_map fst snd].
    unfold push_match. destruct (truthy (trim tok)); cbn [app].
    + rewrite <- app_assoc. reflexivity.
    + reflexivity.
Qed.

Lemma all_matches_exist (s : list N) : exists ms, all_matches s ms.
Proof.
  remember (length s) as n eqn:Hn. revert s Hn.
  induction n as [n IH] using lt_wf_ind. intros s ->.
  destruct (exec s) as [[[stamp tok] rest]|] eqn:E.
  - destruct (IH (length rest) (exec_length _ _ _ _ E) rest eq_refl) as [ms Hms].
    exists ((stamp, tok) :: ms). eapply matches_more; eauto.
  - exists []. apply matches_done. exact E.
Qed.

Lemma is_digit_char (a : N) :
  is_digit a = true -> exists d : nat, (d < 10)%nat /\ a = digit_char d.
Proof.
  unfold is_digit, digit_char. rewrite andb_true_iff, !N.leb_le. intros [H1 H2].
  exists (N.to_nat a - 48)%nat. split; lia.
Qed.

Lemma match_stamp_shape (s stamp rest : list N) :
  match_stamp s = Some (stamp, rest) ->
  exists d1 d2 d3 d4 d5 d6 d7 d8 d9 : nat,
    ((d1 < 10 /\ d2 < 10 /\ d3 < 10) /\ (d4 < 10 /\ d5 < 10 /\ d6 < 10)
     /\ (d7 < 10 /\ d8 < 10 /\ d9 < 10))%nat
    /\ stamp = [digit_char d1; digit_char d2; COLON;
                digit_char d3; digit_char d4; COLON;
                digit_char d5; digit_char d6; DOT;
                digit_char d7; digit_char d8; digit_char d9].
Proof.
  unfold match_stamp. do 12 (destruct s as [|? s]; [discriminate|]).
  match goal with |- context [if ?b then _ else _] => destruct b eqn:E end;
    [|discriminate].
  intros [= <- <-]. rewrite !andb_true_iff in E.
  destruct E as [[[[[[[[[[[H1 H2] C1] H3] H4] C2] H5] H6] C3] H7] H8] H9].
  apply N.eqb_eq in C1, C2, C3. subst.
  apply is_digit_char in H1 as (d1 & ? & ->). apply is_digit_char in H2 as (d2 & ? & ->).
  apply is_digit_char in H3 as (d3 & ? & ->). apply is_digit_char in H4 as (d4 & ? & ->).
  apply is_digit_char in H5 as (d5 & ? & ->). apply is_digit_char in H6 as (d6 & ? & ->).
  apply is_digit_char in H7 as (d7 & ? & ->). apply is_digit_char in H8 as (d8 & ? & ->).
  apply is_digit_char in H9 as (d9 & ? & ->).
  exists d1, d2, d3, d4, d5, d6, d7, d8, d9. repeat split; assumption.
Qed.

Lemma exec_stamp (s stamp tok rest : list N) :
  exec s = Some (stamp, tok, rest) ->
  exists s' rest', match_stamp s' = Some (stamp, rest').
Proof.
  induction s as [|c s IH]; cbn [exec].
  - discriminate.
  - destruct (match_at (c :: s)) as [m|] eqn:E; [|exact IH].
    intros [= ->]. unfold match_at in E.
    destruct (c =? LT)%N; [|discriminate].
    destruct (match_stamp s) as [[st [|g s2]]|] eqn:Es; try discriminate.
    destruct (g =? GT)%N; [|discriminate].
    destruct (span_not_lt s2) as [[|t tk] r]; [discriminate|].
    injection E as <- _ _. eauto.
Qed.

Lemma two_digits_of (a b : nat) :
  (a < 10)%nat -> (b < 10)%nat ->
  two_digits (10 * a + b) = [digit_char a; digit_char b].
Proof.
  intros Ha Hb. unfold two_digits.
  replace ((10 * a + b) / 10)%nat with a
    by (apply (Nat.div_unique _ 10 a b); lia).
  replace ((10 * a + b) mod 10)%nat with b
    by (apply (Nat.mod_unique _ 10 a b); lia).
  reflexivity.
Qed.

Lemma three_digits_of (a b c : nat) :
  (a < 10)%nat -> (b < 10)%nat -> (c < 10)%nat ->
  three_digits (100 * a + 10 * b + c) = [digit_char a; digit_char b; digit_char c].
Proof.
  intros Ha Hb Hc. unfold three_digits.
  replace ((100 * a + 10 * b + c) / 100)%nat with a
    by (apply (Nat.div_unique _ 100 a (10 * b + c)); lia).
  replace ((100 * a + 10 * b + c) / 10)%nat with (10 * a + b)%nat
    by (apply (Nat.div_unique _ 10 (10 * a + b) c); lia).
  replace ((10 * a + b) mod 10)%nat with b
    by (apply (Nat.mod_unique _ 10 a b); lia).
  replace ((100 * a + 10 * b + c) mod 10)%nat with c
    by (apply (Nat.mod_unique _ 10 (10 * a + b) c); lia).
  reflexivity.
Qed.

Lemma timeToSeconds_matched (s stamp rest : list N) :
  match_stamp s = Some (stamp, rest) ->
  timeToSeconds stamp = stamp_seconds stamp.
Proof.
  intros H.
  destruct (match_stamp_shape _ _ _ H)
    as (d1 & d2 & d3 & d4 & d5 & d6 & d7 & d8 & d9 & Hd & ->).
  destruct Hd as ((H1 & H2 & H3) & (H4 & H5 & H6) & (H7 & H8 & H9)).
  pose (e := TimedWord (10 * d1 + d2) (10 * d3 + d4) (10 * d5 + d6)
               (100 * d7 + 10 * d8 + d9) [48%N]).
  assert (Hwf : well_formed e).
  { unfold well_formed, e. cbn [hh mm ss ms token].
    repeat split; try lia; [discriminate|].
    intros [Hx|[]]. discriminate Hx. }
  pose proof (timeToSeconds_stamp e Hwf) as Ht.
  unfold stamp_of, e in Ht. cbn [hh mm ss ms] in Ht.
  rewrite !two_digits_of, three_digits_of in Ht by assumption.
  cbn [app] in Ht. rewrite Ht.
  unfold stamp_seconds, seconds_of. cbn [hh mm ss ms].
  destruct (digit_char_facts d1 H1) as (_ & _ & -> & _).
  destruct (digit_char_facts d2 H2) as (_ & _ & -> & _).
  destruct (digit_char_facts d3 H3) as (_ & _ & -> & _).
  destruct (digit_char_facts d4 H4) as (_ & _ & -> & _).
  destruct (digit_char_facts d5 H5) as (_ & _ & -> & _).
  destruct (digit_char_facts d6 H6) as (_ & _ & -> & _).
  destruct (digit_char_facts d7 H7) as (_ & _ & -> & _).
  destruct (digit_char_facts d8 H8) as (_ & _ & -> & _).
  destruct (digit_char_facts d9 H9) as (_ & _ & -> & _).
  f_equal; lia.
Qed.

(** The seconds of a matched time stamp: a number that is not negative,
    below 362440, and within [10^-10] of hours x 3600 + minutes x 60 +
    seconds. *)
Lemma stamp_seconds_bounds (s stamp rest : list N) :
  match_stamp s = Some (stamp, rest) ->
  exists q : Q,
    stamp_seconds stamp = Some q
    /\ (0 <= q)%Q /\ (q < 362440)%Q
    /\ (Qabs (q - stamp_exact stamp) <= 1 # 10000000000)%Q.
Proof.
  intros H.
  destruct (match_stamp_shape _ _ _ H)
    as (d1 & d2 & d3 & d4 & d5 & d6 & d7 & d8 & d9 & Hd & ->).
  destruct Hd as ((H1 & H2 & H3) & (H4 & H5 & H6) & (H7 & H8 & H9)).
  unfold stamp_seconds, stamp_exact.
  destruct (digit_char_facts d1 H1) as (_ & _ & -> & _).
  destruct (digit_char_facts d2 H2) as (_ & _ & -> & _).
  destruct (digit_char_facts d3 H3) as (_ & _ & -> & _).
  destruct (digit_char_facts d4 H4) as (_ & _ & -> & _).
  destruct (digit_char_facts d5 H5) as (_ & _ & -> & _).
  destruct (digit_char_facts d6 H6) as (_ & _ & -> & _).
  destruct (digit_char_facts d7 H7) as (_ & _ & -> & _).
  destruct (digit_char_facts d8 H8) as (_ & _ & -> & _).
  destruct (digit_char_facts d9 H9) as (_ & _ & -> & _).
  apply double_seconds_bounds; lia.
Qed.

Lemma all_matches_stamp (s : list N) (ms : list (list N * list N)) :
  all_matches s ms ->
  forall m : list N * list N,
    In m ms -> exists s' rest : list N, match_stamp s' = Some (m.1, rest).
Proof.
  induction 1 as [s Hs | s stamp tok rest ms Hs _ IH]; intros m Hin.
  - destruct Hin.
  - destruct Hin as [<-|Hin]; [|exact (IH m Hin)].
    destruct (exec_stamp _ _ _ _ Hs) as (s' & rest' & Hm). eauto.
Qed.

Lemma pushed_matched (s : list N) (ms : list (list N * list N)) :
  all_matches s ms -> Forall2 word_eq (pushed_matches ms) (matched_words ms).
Proof.
  induction 1 as [s Hs | s stamp tok rest ms Hs _ IH];
    cbn [pushed_matches matched_words flat_map fst snd].
  - constructor.
  - destruct (truthy (trim tok)); cbn [app]; [|exact IH].
    constructor; [|exact IH]. split; [|reflexivity]. cbn [time].
    destruct (exec_stamp _ _ _ _ Hs) as (s' & rest' & Hm).
    rewrite (timeToSeconds_matched _ _ _ Hm). apply num_eq_refl.
Qed.

(** C2, amended. For every cue text in which the word regular expression
    (markers of the form [<HH:MM:SS.mmm>] only) has at least one match,
    [parseCue] returns, for the matches in order, one word per match whose
    token is not empty once trimmed; its text is the trimmed token and its
    time is hours x 3600 + minutes x 60 + seconds of the time stamp as the
    code computes it in double arithmetic: the seconds with their
    milliseconds are read as the nearest double and added to the whole
    seconds of the hours and minutes, the sum being rounded to a double.
    That time is within [10^-10] of the real number hours x 3600 + minutes x
    60 + seconds. In particular a text written as such markers followed by
    non-empty tokens is parsed back into exactly those times and trimmed
    tokens. *)
Theorem parseCue_markers (c : VTTCue.t) (i : nat) :
  (forall ms : list (list N * list N),
      all_matches (VTTCue.text c) ms -> ms <> [] ->
      Forall2 word_eq (words (parseCue c i)) (matched_words ms)
      /\ (forall m : list N * list N,
             In m ms ->
             exists q : Q,
               stamp_seconds m.1 = Some q
               /\ (Qabs (q - stamp_exact m.1) <= 1 # 10000000000)%Q))
  /\ (forall (pre : list N) (es : list timed_word),
         VTTCue.text c = pre ++ marked_text es ->
         ~ In LT pre -> es <> [] -> Forall well_formed es ->
         Forall2 word_eq (words (parseCue c i)) (expected_words es)
         /\ (forall e : timed_word,
                In e es ->
                exists q : Q,
                  seconds_of e = Some q
                  /\ (Qabs (q - seconds_exact e) <= 1 # 10000000000)%Q)).
Proof.
  split.
  - intros ms Hms Hne. split.
    + unfold parseCue.
      rewrite (exec_loop_matches _ ms Hms [] false).
      destruct ms as [|m ms]; [contradiction|].
      cbn [orb negb andb app words]. eapply pushed_matched. exact Hms.
    + intros m Hin.
      destruct (all_matches_stamp _ _ Hms m Hin) as (s' & rest & Hm).
      destruct (stamp_seconds_bounds _ _ _ Hm) as (q & Hq & _ & _ & Hc).
      eauto.
  - intros pre es Ht Hpre Hne Hwf. split.
    + exact (parseCue_round_trip c i pre es Ht Hpre Hne Hwf).
    + intros e Hin. rewrite List.Forall_forall in Hwf.
      destruct (Hwf e Hin) as (Hh & Hm & Hs & Hf & _).
      destruct (double_seconds_bounds
                  (Z.of_nat (hh e * 3600 + mm e * 60))
                  (Z.of_nat (ss e)) (Z.of_nat (ms e)))
        as (q & Hq & _ & _ & Hc); [lia | lia | lia |].
      exists q. split; [exact Hq | exact Hc].
Qed.

Lemma parseCue_markers_witness :
  Forall2 word_eq
    (words (parseCue
              (VTTCue.mk (num 10) (num 14)
                 (code_units "<00:00:10.000>Hello <00:00:11.500>world")) 0))
    [Word (num 10) (code_units "Hello");
     Word (dec 115 10) (code_units "world")].
Proof.
  apply (proj2 (parseCue_markers
                  (VTTCue.mk (num 10) (num 14)
                     (code_units "<00:00:10.000>Hello <00:00:11.500>world")) 0)
               []
               [TimedWord 0 0 10 0 (code_units "Hello ");
                TimedWord 0 0 11 500 (code_units "world")]).
  - reflexivity.
  - simpl. tauto.
  - discriminate.
  - repeat constructor; simpl; try lia; try discriminate.
    all: intros H; repeat (destruct H as [H|H]; [discriminate H|]); exact H.
Defined.

(** ** The engine: ticks and seeks compose *)

Lemma syncLyrics_core (allCues : list cue) (t : number) (st : state) :
  allCues <> [] ->
  syncLyrics allCues t st = sync_core allCues t (appendLyricsIfNeeded allCues t st).
Proof.
  intros Hne. unfold syncLyrics, sync_core.
  destruct allCues as [|c0 cs]; [contradiction | reflexivity].
Qed.

Lemma reveal_loop_id (t : number) (cs : list cue) :
  forall (i : nat) (st : state),
    (forall (j : nat) (c : cue),
        cs !! j = Some c -> num_ge t (num_sub (start c) (num 2)) = true ->
        (i + j)%nat ∈ displayedCues st) ->
    reveal_loop t i cs st = st.
Proof.
  induction cs as [|c cs IH]; intros i st H; cbn [reveal_loop]; [reflexivity|].
  assert (Hc : num_ge t (num_sub (start c) (num 2))
               && negb (bool_decide (i ∈ displayedCues st)) = false).
  { destruct (num_ge t (num_sub (start c) (num 2))) eqn:E; [|reflexivity].
    rewrite bool_decide_eq_true_2; [reflexivity|].
    rewrite <- (Nat.add_0_r i). apply (H 0%nat c); [reflexivity | exact E]. }
  rewrite Hc. apply IH. intros j d Hj Hd.
  replace (S i + j)%nat with (i + S j)%nat by lia. apply (H (S j) d); assumption.
Qed.

Lemma appendLyricsIfNeeded_idem (allCues : list cue) (t : number) (st : state) :
  appendLyricsIfNeeded allCues t (appendLyricsIfNeeded allCues t st)
  = appendLyricsIfNeeded allCues t st.
Proof.
  unfold appendLyricsIfNeeded. destruct allCues as [|c0 cs]; [reflexivity|].
  apply reveal_loop_id. intros j c Hj Hc.
  apply (reveal_loop_reveals t (c0 :: cs) 0 st j c Hj Hc).
Qed.

Lemma toggle_loop_after (t : number) (c : cue) (ws : list word) :
  forall (k : nat) (spans : list bool) (i : nat),
    (k + length ws <= i)%nat -> toggle_loop t c k ws spans !! i = spans !! i.
Proof.
  induction ws as [|w ws IH]; intros k spans i Hle; cbn [toggle_loop]; [reflexivity|].
  simpl in Hle. rewrite IH by lia. apply list_lookup_insert_ne. lia.
Qed.

Lemma toggle_loop_idem (t : number) (c : cue) (ws : list word) (k : nat)
  (spans : list bool) :
  toggle_loop t c k ws (toggle_loop t c k ws spans) = toggle_loop t c k ws spans.
Proof.
  apply list_eq. intros i.
  destruct (le_lt_dec k i) as [Hki|Hki]; [|rewrite !toggle_loop_before by lia; reflexivity].
  destruct (le_lt_dec (k + length ws) i) as [Hi|Hi];
    [rewrite !toggle_loop_after by lia; reflexivity|].
  destruct (le_lt_dec (length spans) i) as [Hs|Hs].
  - rewrite !(proj2 (lookup_ge_None _ _)); [reflexivity | |];
      rewrite ?toggle_loop_length; lia.
  - destruct (ws !! (i - k)%nat) as [w|] eqn:Hw;
      [|apply lookup_ge_None in Hw; lia].
    replace i with (k + (i - k))%nat by lia.
    rewrite !(toggle_loop_lookup t c ws k _ (i - k) w Hw);
      rewrite ?toggle_loop_length; [reflexivity | lia | lia].
Qed.

Lemma highlight_idem (allCues : list cue) (t : number) (act : option nat)
  (st : state) :
  highlight allCues t act (highlight allCues t act st) = highlight allCues t act st.
Proof.
  unfold highlight. destruct act as [a|]; [|reflexivity].
  destruct (allCues !! a) as [c|] eqn:Hc; [|reflexivity].
  destruct (document st !! a) as [e|] eqn:He; [|rewrite He; reflexivity].
  cbn [document displayedCues currentLyricIndex previousLyricIndex timers].
  rewrite lookup_insert_eq. cbn [cls_active cls_played word_active].
  rewrite insert_insert_eq, toggle_loop_idem. reflexivity.
Qed.

Lemma highlight_fields (allCues : list cue) (t : number) (act : option nat)
  (st : state) :
  displayedCues (highlight allCues t act st) = displayedCues st
  /\ currentLyricIndex (highlight allCues t act st) = currentLyricIndex st
  /\ previousLyricIndex (highlight allCues t act st) = previousLyricIndex st
  /\ timers (highlight allCues t act st) = timers st.
Proof. unfold highlight. repeat case_match; auto. Qed.

Lemma sync_core_fields (allCues : list cue) (t : number) (st : state) :
  displayedCues (sync_core allCues t st) = displayedCues st
  /\ currentLyricIndex (sync_core allCues t st)
     = find_active t (displayedCues st) 0 allCues.
Proof.
  unfold sync_core.
  destruct (highlight_fields allCues t (find_active t (displayedCues st) 0 allCues)
              (if bool_decide (find_active t (displayedCues st) 0 allCues
                               <> currentLyricIndex st)
               then let '(doc, tms) :=
                      force_previous (find_active t (displayedCues st) 0 allCues) st in
                    State (displayedCues st)
                      (find_active t (displayedCues st) 0 allCues)
                      (currentLyricIndex st)
                      (mark_active (find_active t (displayedCues st) 0 allCues) doc)
                      tms
               else st)) as (-> & -> & _).
  case_bool_decide as Hd.
  - destruct (force_previous _ st). auto.
  - split; [reflexivity|].
    destruct (decide (find_active t (displayedCues st) 0 allCues
                      = currentLyricIndex st)); [congruence | contradiction].
Qed.

Lemma sync_core_idem (allCues : list cue) (t : number) (st : state) :
  sync_core allCues t (sync_core allCues t st) = sync_core allCues t st.
Proof.
  destruct (sync_core_fields allCues t st) as [HD Hc].
  unfold sync_core at 1. rewrite HD, Hc.
  rewrite bool_decide_eq_false_2 by (intros H; apply H; reflexivity).
  unfold sync_core. apply highlight_idem.
Qed.

(** X1. A second tick at the same time changes nothing: [syncLyrics] is
    idempotent on every state, so repeated [timeupdate] events at one
    playback position neither reveal, activate, complete nor re-highlight
    anything twice. *)
Theorem tick_idempotent (allCues : list cue) (t : number) (st : state) :
  syncLyrics allCues t (syncLyrics allCues t st) = syncLyrics allCues t st.
Proof.
  destruct allCues as [|c0 cs] eqn:E; [reflexivity|]. rewrite <- E.
  assert (Hne : allCues <> []) by (subst; discriminate).
  rewrite !(syncLyrics_core allCues) by exact Hne.
  set (s1 := appendLyricsIfNeeded allCues t st).
  assert (Hid : appendLyricsIfNeeded allCues t (sync_core allCues t s1)
                = sync_core allCues t s1).
  { unfold appendLyricsIfNeeded. rewrite E, <- E. apply reveal_loop_id.
    intros j c Hj Hc. destruct (sync_core_fields allCues t s1) as [-> _].
    unfold s1, appendLyricsIfNeeded. rewrite E, <- E.
    apply (reveal_loop_reveals t allCues 0 st j c Hj Hc). }
  rewrite Hid. apply sync_core_idem.
Qed.

(** X2. The reveal done by the seek-bar listener is exactly the reveal pass
    of the tick that follows at the same time: a seek to [T] followed by a
    tick at [T] leaves the same state as the tick alone, and a repeated seek
    to [T] changes nothing. *)
Theorem seek_then_tick (allCues : list cue) (T : number) (st : state) :
  syncLyrics allCues T (seekBar_input allCues T st) = syncLyrics allCues T st
  /\ seekBar_input allCues T (seekBar_input allCues T st)
     = seekBar_input allCues T st.
Proof.
  assert (Hs : forall s, seekBar_input allCues T s = appendLyricsIfNeeded allCues T s)
    by reflexivity.
  rewrite !Hs. split; [|apply appendLyricsIfNeeded_idem].
  destruct allCues as [|c0 cs] eqn:E; [reflexivity|]. rewrite <- E.
  assert (Hne : allCues <> []) by (subst; discriminate).
  rewrite !(syncLyrics_core allCues) by exact Hne.
  rewrite appendLyricsIfNeeded_idem. reflexivity.
Qed.

Lemma reveal_loop_exact (t : number) (cs : list cue) :
  forall (i : nat) (st : state) (k : nat),
    k ∈ displayedCues (reveal_loop t i cs st) <->
    k ∈ displayedCues st
    \/ exists (j : nat) (c : cue),
         k = (i + j)%nat /\ cs !! j = Some c
         /\ num_ge t (num_sub (start c) (num 2)) = true.
Proof.
  induction cs as [|c cs IH]; intros i st k; cbn [reveal_loop].
  - split; [auto | intros [H|(j & d & _ & Hj & _)]; [exact H | discriminate Hj]].
  - rewrite IH. split.
    + intros [H|(j & d & -> & Hj & Hd)].
      * revert H. destruct (num_ge t (num_sub (start c) (num 2))) eqn:Ec;
          cbn [andb]; [|auto].
        case_bool_decide as Hi; cbn [negb displayedCues]; [auto|].
        rewrite elem_of_union, elem_of_singleton. intros [->|H]; [|auto].
        right. exists 0%nat, c. rewrite Nat.add_0_r. auto.
      * right. exists (S j), d. split; [lia | auto].
    + intros [H|(j & d & -> & Hj & Hd)].
      * left. case_match; [|exact H]. cbn [displayedCues].
        apply elem_of_union. right. exact H.
      * destruct j as [|j]; simpl in Hj.
        -- injection Hj as ->. left. rewrite Hd, Nat.add_0_r. cbn [andb].
           case_bool_decide as Hi; cbn [negb displayedCues]; [exact Hi|].
           apply elem_of_union. left. apply elem_of_singleton. reflexivity.
        -- right. exists j, d. split; [lia | auto].
Qed.

(** X3. The reveal pass reveals exactly the lines that are due: after a tick
    or a seek at time [t], a line is in the revealed set if and only if it was
    there before or its start is at most two seconds ahead
    ([t >= start - 2]); a line further ahead is never revealed by it. *)
Theorem reveal_exact (allCues : list cue) (t : number) (st : state) (k : nat) :
  (k ∈ displayedCues (syncLyrics allCues t st) <->
   k ∈ displayedCues st
   \/ exists c : cue,
        allCues !! k = Some c /\ num_ge t (num_sub (start c) (num 2)) = true)
  /\ (k ∈ displayedCues (seekBar_input allCues t st) <->
      k ∈ displayedCues st
      \/ exists c : cue,
           allCues !! k = Some c /\ num_ge t (num_sub (start c) (num 2)) = true).
Proof.
  assert (H : k ∈ displayedCues (appendLyricsIfNeeded allCues t st) <->
              k ∈ displayedCues st
              \/ exists c : cue,
                   allCues !! k = Some c
                   /\ num_ge t (num_sub (start c) (num 2)) = true).
  { unfold appendLyricsIfNeeded. destruct allCues as [|c0 cs] eqn:E.
    - split; [auto | intros [H|(c & Hc & _)]; [exact H | discriminate Hc]].
    - rewrite reveal_loop_exact. split.
      + intros [H|(j & c & -> & Hj & Hc)]; [auto|]. right. exists c. auto.
      + intros [H|(c & Hk & Hc)]; [auto|]. right. exists k, c. auto. }
  split; [rewrite syncLyrics_displayed|]; exact H.
Qed.

Lemma find_active_findIndex (t : number) (D : gset nat) (cs : list cue) :
  forall i : nat,
    (forall (j : nat) (c : cue),
        cs !! j = Some c -> in_window t c = true -> (i + j)%nat ∈ D) ->
    find_active t D i cs = (fun j => (i + j)%nat) <$> findIndex (in_window t) cs.
Proof.
  induction cs as [|c cs IH]; intros i H; cbn [find_active findIndex]; [reflexivity|].
  destruct (in_window t c) eqn:E.
  - rewrite bool_decide_eq_true_2.
    + simpl. rewrite Nat.add_0_r. reflexivity.
    + rewrite <- (Nat.add_0_r i). apply (H 0%nat c); [reflexivity | exact E].
  - rewrite andb_false_r, IH.
    + destruct (findIndex (in_window t) cs); simpl; [f_equal; lia | reflexivity].
    + intros j d Hj Hd. replace (S i + j)%nat with (i + S j)%nat by lia.
      apply (H (S j) d); assumption.
Qed.

Lemma in_window_due (t : number) (c : cue) :
  in_window t c = true -> num_ge t (num_sub (start c) (num 2)) = true.
Proof.
  unfold in_window. rewrite andb_true_iff. intros [H _]. revert H.
  destruct t as [x|], (start c) as [s|]; simpl; try discriminate.
  rewrite !Qle_bool_iff. change (inject_Z 2) with 2%Q. intros H. lra.
Qed.

(** X4. At a tick the revealed-set test of the active-line loop never hides a
    line: the line made active by [syncLyrics] is the first cue of [allCues],
    revealed before or not, whose window [start, end + 0.1] (the upper end
    as the code computes it, in double arithmetic) contains the tick time,
    and no line is active exactly when no window contains it. *)
Theorem active_is_first_in_window (allCues : list cue) (t : number) (st : state) :
  allCues <> [] ->
  currentLyricIndex (syncLyrics allCues t st) = findIndex (in_window t) allCues.
Proof.
  intros Hne. rewrite syncLyrics_current by exact Hne.
  rewrite find_active_findIndex.
  - destruct (findIndex (in_window t) allCues); reflexivity.
  - intros j c Hj Hc. unfold appendLyricsIfNeeded.
    destruct allCues as [|c0 cs] eqn:E; [contradiction|].
    apply (reveal_loop_reveals t (c0 :: cs) 0 st j c Hj).
    apply in_window_due. exact Hc.
Qed.

Lemma active_is_first_in_window_witness :
  currentLyricIndex (syncLyrics adjacent_cues (num 7) init) = Some 1%nat.
Proof.
  rewrite (active_is_first_in_window adjacent_cues (num 7) init).
  - reflexivity.
  - discriminate.
Defined.

(** ** The engine: invariants of the document *)










Lemma appendLyricLine_exclusive (c : cue) (i k : nat) (doc : gmap nat element)
  (e : element) :
  (forall j x, doc !! j = Some x -> cls_active x && cls_played x = false) ->
  appendLyricLine c i doc !! k = Some e -> cls_active e && cls_played e = false.
Proof.
  intros H. unfold appendLyricLine. destruct (doc !! i) eqn:E; [apply H|].
  destruct (decide (i = k)) as [->|Hne].
  - rewrite lookup_insert_eq. intros [= <-]. reflexivity.
  - rewrite lookup_insert_ne by exact Hne. apply H.
Qed.

Lemma reveal_loop_exclusive (t : number) (cs : list cue) :
  forall (i : nat) (st : state),
    classes_exclusive st -> classes_exclusive (reveal_loop t i cs st).
Proof.
  induction cs as [|c cs IH]; intros i st H; cbn [reveal_loop]; [exact H|].
  apply IH. case_match; [|exact H]. intros k e. cbn [document].
  apply appendLyricLine_exclusive. exact H.
Qed.

Lemma sync_core_exclusive (allCues : list cue) (t : number) (st : state) :
  classes_exclusive st -> classes_exclusive (sync_core allCues t st).
Proof.
  intros H. unfold sync_core.
  set (act := find_active t (displayedCues st) 0 allCues).
  assert (H2 : classes_exclusive
                 (if bool_decide (act <> currentLyricIndex st)
                  then let '(doc, tms) := force_previous act st in
                       State (displayedCues st) act (currentLyricIndex st)
                         (mark_active act doc) tms
                  else st)).
  { case_bool_decide as Hd; [|exact H].
    assert (Hf : forall k e, (force_previous act st).1 !! k = Some e ->
                             cls_active e && cls_played e = false).
    { intros k e. unfold force_previous. repeat case_match; cbn [fst]; try apply H.
      destruct (decide (n = k)) as [->|Hne].
      - rewrite lookup_insert_eq. intros [= <-]. cbn [cls_active cls_played].
        eapply H; eassumption.
      - rewrite lookup_insert_ne by exact Hne. apply H. }
    destruct (force_previous act st) as [doc tms]. cbn [fst] in Hf.
    intros k e. cbn [document]. unfold mark_active.
    repeat case_match; try apply Hf.
    destruct (decide (n = k)) as [->|Hne].
    - rewrite lookup_insert_eq. intros [= <-]. reflexivity.
    - rewrite lookup_insert_ne by exact Hne. apply Hf. }
  revert H2. generalize (if bool_decide (act <> currentLyricIndex st)
                  then let '(doc, tms) := force_previous act st in
                       State (displayedCues st) act (currentLyricIndex st)
                         (mark_active act doc) tms
                  else st). intros s Hs k e.
  unfold highlight. repeat case_match; try apply Hs. cbn [document].
  destruct (decide (n = k)) as [->|Hne].
  - rewrite lookup_insert_eq. intros [= <-]. cbn [cls_active cls_played].
    eapply Hs; eassumption.
  - rewrite lookup_insert_ne by exact Hne. apply Hs.
Qed.

Lemma step_exclusive (allCues : list cue) (st : state) (ev : event) :
  classes_exclusive st -> classes_exclusive (step allCues st ev).
Proof.
  intros H. destruct ev as [t|T|k]; cbn [step].
  - destruct allCues as [|c0 cs] eqn:E; [exact H|]. rewrite <- E.
    rewrite syncLyrics_core by (subst; discriminate).
    apply sync_core_exclusive. unfold appendLyricsIfNeeded. rewrite E.
    apply reveal_loop_exclusive. exact H.
  - unfold seekBar_input. destruct allCues; [exact H|].
    apply reveal_loop_exclusive. exact H.
  - unfold timeout. case_match; [|exact H]. intros j e. cbn [document].
    rewrite lookup_alter. case_decide as Hd; [|apply H].
    destruct (document st !! _); simpl; [|discriminate].
    intros [= <-]. reflexivity.
Qed.

(** X6. In every state reached by ticks, seeks and timer callbacks, no line
    element carries the classes [active] and [played] at the same time. *)
Theorem active_played_exclusive (allCues : list cue) (evs : list event)
  (k : nat) (e : element) :
  document (run allCues evs init) !! k = Some e ->
  cls_active e && cls_played e = false.
Proof.
  revert k e. change (classes_exclusive (run allCues evs init)).
  assert (H : classes_exclusive init)
    by (intros k e Hk; cbn in Hk; rewrite lookup_empty in Hk; discriminate).
  revert H. generalize init. induction evs as [|ev evs IH]; intros st H; simpl.
  - exact H.
  - apply IH, step_exclusive, H.
Qed.

Lemma active_played_exclusive_witness :
  cls_active (Element false true [false])
  && cls_played (Element false true [false]) = false.
Proof.
  apply (active_played_exclusive adjacent_cues
           [TimeUpdate (num 1); TimeUpdate (num 7); TimeUpdate (num 20); Timeout 0]
           0%nat (Element false true [false])).
  vm_compute. reflexivity.
Defined.

(** ** The engine: what a tick shows *)












(** ** The parser: [timeToSeconds] on other inputs *)

Lemma split_on_from_length (sep : N) (s : list N) :
  forall tok : list N,
    length (split_on_from sep tok s) = S (count_occ N.eq_dec s sep).
Proof.
  induction s as [|c s IH]; intros tok; cbn [split_on_from count_occ]; [reflexivity|].
  destruct (c =? sep)%N eqn:E.
  - apply N.eqb_eq in E. destruct (N.eq_dec c sep); [|contradiction].
    cbn [length]. rewrite IH. reflexivity.
  - apply N.eqb_neq in E. destruct (N.eq_dec c sep); [contradiction|]. apply IH.
Qed.

(** X10. [timeToSeconds] converts a [MM:SS.mmm] string (two parts) to
    minutes x 60 + seconds in double arithmetic: the seconds with their
    milliseconds are read as the nearest double and added to minutes x 60,
    the sum being rounded to a double; the result is within [10^-10] of the
    real number minutes x 60 + seconds. *)
Theorem timeToSeconds_two_parts (m s f : nat) :
  (m < 100)%nat -> (s < 100)%nat -> (f < 1000)%nat ->
  timeToSeconds (two_digits m ++ COLON :: two_digits s ++ DOT :: three_digits f)
  = double_seconds (Z.of_nat (m * 60)) (Z.of_nat s) (Z.of_nat f)
  /\ exists q : Q,
       double_seconds (Z.of_nat (m * 60)) (Z.of_nat s) (Z.of_nat f) = Some q
       /\ (Qabs (q - exact_seconds (Z.of_nat (m * 60)) (Z.of_nat s) (Z.of_nat f))
           <= 1 # 10000000000)%Q.
Proof.
  intros Hm Hs Hf. split.
  - assert (D1 : forall n, (n < 100)%nat -> (n / 10 < 10)%nat)
      by (intros n Hn; apply Nat.Div0.div_lt_upper_bound; lia).
    assert (D2 : forall n, (n mod 10 < 10)%nat)
      by (intros n; apply Nat.mod_upper_bound; lia).
    assert (D3 : (f / 100 < 10)%nat) by (apply Nat.Div0.div_lt_upper_bound; lia).
    unfold timeToSeconds, split_on, two_digits, three_digits. cbn [app].
    repeat first
      [ rewrite split_on_from_digit by (first [apply D1; assumption | apply D2 | exact D3])
      | rewrite split_on_from_colon
      | rewrite split_on_from_dot ].
    cbn [split_on_from rev app].
    change [digit_char (m / 10); digit_char (m mod 10)] with (two_digits m).
    rewrite parseInt_two_digits by assumption.
    pose proof (parseFloat_seconds s f Hs Hf) as Hp.
    unfold two_digits, three_digits in Hp. cbn [app] in Hp. rewrite Hp.
    rewrite js_mul_int by lia. rewrite js_add_int by lia.
    unfold double_seconds, js_add, num. do 4 f_equal. lia.
  - destruct (double_seconds_bounds (Z.of_nat (m * 60)) (Z.of_nat s) (Z.of_nat f))
      as (q & Hq & _ & _ & Hc); [lia | lia | lia |].
    exists q. split; [exact Hq | exact Hc].
Qed.

Lemma timeToSeconds_two_parts_witness :
  timeToSeconds (code_units "01:30.500") = dec 905 10.
Proof.
  destruct (timeToSeconds_two_parts 1 30 500) as [H _]; [lia | lia | lia |].
  exact H.
Defined.

(** X11. [timeToSeconds] returns 0 for every string that has no [:] or more
    than two of them: neither branch on [parts.length] is taken. *)
Theorem timeToSeconds_other_parts (timeStr : list N) :
  count_occ N.eq_dec timeStr COLON <> 1%nat ->
  count_occ N.eq_dec timeStr COLON <> 2%nat ->
  timeToSeconds timeStr = num 0.
Proof.
  intros H1 H2. unfold timeToSeconds, split_on.
  pose proof (split_on_from_length COLON timeStr []) as Hl.
  destruct (split_on_from COLON [] timeStr) as [|p0 [|p1 [|p2 [|p3 ps]]]];
    cbn [length] in Hl; try reflexivity; lia.
Qed.

Lemma timeToSeconds_other_parts_witness :
  timeToSeconds (code_units "1:02:03:04.500") = num 0.
Proof.
  apply (timeToSeconds_other_parts (code_units "1:02:03:04.500"));
    vm_compute; discriminate.
Defined.

(** ** The parser: the words of a cue *)

Lemma trimStart_clean (s : list N) : starts_clean (trimStart s).
Proof.
  induction s as [|c s IH]; simpl; [exact I|].
  destruct (is_ws c) eqn:E; [exact IH | exact E].
Qed.

Lemma trimStart_fix (s : list N) : starts_clean s -> trimStart s = s.
Proof.
  destruct s as [|c s]; simpl; [reflexivity|]. intros ->. reflexivity.
Qed.

Lemma trimStart_suffix (s : list N) :
  exists l : list N, s = l ++ trimStart s.
Proof.
  induction s as [|c s [l IH]]; simpl; [exists []; reflexivity|].
  destruct (is_ws c).
  - exists (c :: l). simpl. f_equal. exact IH.
  - exists []. reflexivity.
Qed.

Lemma starts_clean_app (s r : list N) :
  starts_clean (s ++ r) -> starts_clean s.
Proof. destruct s; simpl; auto. Qed.

Lemma trim_clean (s : list N) :
  starts_clean (trim s) /\ starts_clean (rev (trim s)).
Proof.
  unfold trim, trimEnd. split.
  - destruct (trimStart_suffix (rev (trimStart s))) as [l Hl].
    apply (f_equal (@rev N)) in Hl. rewrite rev_involutive, rev_app_distr in Hl.
    apply (starts_clean_app _ (rev l)). rewrite <- Hl. apply trimStart_clean.
  - rewrite rev_involutive. apply trimStart_clean.
Qed.

Lemma trim_idem (s : list N) : trim (trim s) = trim s.
Proof.
  destruct (trim_clean s) as [H1 H2]. unfold trim at 1, trimEnd.
  rewrite (trimStart_fix _ H1), (trimStart_fix _ H2). apply rev_involutive.
Qed.

Lemma pushed_matches_text (ms : list (list N * list N)) (w : word) :
  In w (pushed_matches ms) ->
  exists x : list N, text w = trim x /\ truthy (trim x) = true.
Proof.
  induction ms as [|[stamp tok] ms IH]; cbn [pushed_matches flat_map fst snd];
    [intros []|].
  rewrite in_app_iff. intros [H|H]; [|auto].
  destruct (truthy (trim tok)) eqn:E; [|destruct H].
  destruct H as [<-|[]]. exists tok. auto.
Qed.

Lemma parseCue_words (c : VTTCue.t) (i : nat) :
  exists ms : list (list N * list N),
    all_matches (VTTCue.text c) ms
    /\ words (parseCue c i) =
       match ms with
       | [] =>
           if truthy (trim (VTTCue.text c)) then
             List.map (fun w => Word (VTTCue.startTime c) (trim w))
               (List.filter (fun w => truthy (trim w)) (split_ws (VTTCue.text c)))
           else []
       | _ :: _ => pushed_matches ms
       end.
Proof.
  destruct (all_matches_exist (VTTCue.text c)) as [ms Hms]. exists ms.
  split; [exact Hms|]. unfold parseCue.
  rewrite (exec_loop_matches _ ms Hms [] false).
  destruct ms; cbn [orb negb andb app words]; reflexivity.
Qed.

(** X12. Every word that [parseCue] returns has a text that is not empty and
    is already trimmed (no white space at either end), on the marker path and
    on the fallback path alike. *)
Theorem parseCue_word_text (c : VTTCue.t) (i : nat) (w : word) :
  In w (words (parseCue c i)) ->
  text w <> [] /\ trim (text w) = text w.
Proof.
  intros Hin.
  assert (H : exists x : list N, text w = trim x /\ truthy (trim x) = true).
  { destruct (parseCue_words c i) as (ms & _ & Hw). rewrite Hw in Hin.
    destruct ms as [|m ms]; [|apply (pushed_matches_text _ _ Hin)].
    destruct (truthy (trim (VTTCue.text c))); [|destruct Hin].
    apply in_map_iff in Hin as (x & <- & Hx).
    apply List.filter_In in Hx as [_ Hx]. exists x. auto. }
  destruct H as (x & -> & Hx). split; [|apply trim_idem].
  destruct (trim x); [discriminate | discriminate].
Qed.

Lemma parseCue_word_text_witness :
  code_units "Hello" <> [] /\ trim (code_units "Hello") = code_units "Hello".
Proof.
  apply (parseCue_word_text
           (VTTCue.mk (num 10) (num 14)
              (code_units "<00:00:10.000>Hello <00:00:11.500>world")) 0
           (Word (timeToSeconds (code_units "00:00:10.000")) (code_units "Hello"))).
  left. reflexivity.
Defined.

(** X13. A cue whose text is empty or only white space has no word, so
    [loadAllCues] leaves it out. *)
Theorem blank_cue_dropped (c : VTTCue.t) :
  Forall (fun ch => is_ws ch = true) (VTTCue.text c) ->
  (forall i : nat, words (parseCue c i) = [])
  /\ (forall (cues : list VTTCue.t) (i : nat),
         ~ In (parseCue c i) (loadAllCues cues)).
Proof.
  intros Hws.
  assert (Hw : forall i, words (parseCue c i) = []).
  { intros i. unfold parseCue. rewrite exec_loop_step.
    rewrite exec_no_lt.
    - cbn [negb andb]. rewrite (proj2 (trim_nil _) Hws). reflexivity.
    - intros Hin. rewrite List.Forall_forall in Hws.
      specialize (Hws _ Hin). discriminate Hws. }
  split; [exact Hw|].
  intros cues i Hin. apply loadAllCues_nonempty in Hin. auto.
Qed.

Lemma blank_cue_dropped_witness :
  loadAllCues [VTTCue.mk (num 1) (num 2) (code_units "   ")] = [].
Proof.
  destruct (blank_cue_dropped (VTTCue.mk (num 1) (num 2) (code_units "   ")))
    as [Hw _].
  - repeat constructor.
  - unfold loadAllCues. cbn [loadAllCues_from]. rewrite Hw. reflexivity.
Defined.

Lemma stamp_seconds_range (s stamp rest : list N) :
  match_stamp s = Some (stamp, rest) ->
  exists q : Q, stamp_seconds stamp = Some q /\ (0 <= q)%Q /\ (q < 362440)%Q.
Proof.
  intros H. destruct (stamp_seconds_bounds _ _ _ H) as (q & Hq & H0 & H1 & _).
  eauto.
Qed.

(** X14. Every word that [parseCue] reads from a marker has a time that is
    a number (never NaN), not negative and below 362440 seconds
    (99 h 99 min 99.999 s): when the text has a match of the word regular
    expression, all words of the parsed cue are such words. *)
Theorem marker_time_range (c : VTTCue.t) (i : nat) (w : word) :
  exec (VTTCue.text c) <> None ->
  In w (words (parseCue c i)) ->
  exists q : Q, time w = Some q /\ (0 <= q)%Q /\ (q < 362440)%Q.
Proof.
  intros Hm Hin. destruct (parseCue_words c i) as (ms & Hms & Hw).
  rewrite Hw in Hin. clear Hw.
  destruct ms as [|m0 ms0] eqn:E;
    [inversion Hms; congruence|]. rewrite <- E in *. clear E Hm.
  induction Hms as [s Hs | s stamp tok rest ms Hs _ IH];
    cbn [pushed_matches flat_map fst snd] in Hin; [destruct Hin|].
  apply in_app_iff in Hin as [Hin|Hin]; [|auto].
  destruct (truthy (trim tok)); [|destruct Hin]. destruct Hin as [<-|[]].
  cbn [time]. destruct (exec_stamp _ _ _ _ Hs) as (s' & rest' & Hst).
  rewrite (timeToSeconds_matched _ _ _ Hst).
  exact (stamp_seconds_range _ _ _ Hst).
Qed.

Lemma marker_time_range_witness :
  exists q : Q,
    timeToSeconds (code_units "00:00:11.500") = Some q
    /\ (0 <= q)%Q /\ (q < 362440)%Q.
Proof.
  apply (marker_time_range
           (VTTCue.mk (num 10) (num 14)
              (code_units "<00:00:10.000>Hello <00:00:11.500>world")) 0
           (Word (timeToSeconds (code_units "00:00:11.500")) (code_units "world"))).
  - vm_compute. discriminate.
  - right. left. reflexivity.
Defined.

(** ** The loader: indices *)

Lemma loaded_from (cues : list VTTCue.t) :
  forall i : nat,
    Forall (fun p => exists c : VTTCue.t,
                       cues !! (index p - i)%nat = Some c
                       /\ (i <= index p)%nat /\ p = parseCue c (index p))
      (List.filter (fun p => (0 <? length (words p))%nat)
         (imap (fun j c => parseCue c (i + j)) cues))
    /\ StronglySorted (fun p r => (index p < index r)%nat)
         (List.filter (fun p => (0 <? length (words p))%nat)
            (imap (fun j c => parseCue c (i + j)) cues)).
Proof.
  induction cues as [|c cues IH]; intros i; cbn [imap List.filter].
  - split; constructor.
  - assert (He : imap ((fun j c0 => parseCue c0 (i + j)) ∘ S) cues
                 = imap (fun j c0 => parseCue c0 (S i + j)) cues).
    { apply imap_ext. intros j x _. simpl. f_equal. lia. }
    rewrite He, Nat.add_0_r. destruct (IH (S i)) as [IH1 IH2].
    assert (Ht : Forall (fun p => exists c0 : VTTCue.t,
                           (c :: cues) !! (index p - i)%nat = Some c0
                           /\ (i <= index p)%nat /\ p = parseCue c0 (index p))
                   (List.filter (fun p => (0 <? length (words p))%nat)
                      (imap (fun j c0 => parseCue c0 (S i + j)) cues))).
    { eapply Forall_impl; [exact IH1|]. intros p (c0 & Hc0 & Hle & Hp).
      exists c0. split; [|split; [lia | exact Hp]].
      replace (index p - i)%nat with (S (index p - S i)) by lia. exact Hc0. }
    destruct (0 <? length (words (parseCue c i)))%nat.
    + split.
      * constructor; [|exact Ht]. exists c. cbn [index parseCue].
        unfold parseCue. destruct (exec_loop _ _ _). cbn [index].
        rewrite Nat.sub_diag. auto.
      * constructor; [exact IH2|].
        eapply Forall_impl; [exact IH1|]. intros p (_ & _ & Hle & _).
        unfold parseCue. destruct (exec_loop _ _ _). cbn [index]. lia.
    + split; [exact Ht | exact IH2].
Qed.

(** X15. [loadAllCues] keeps the cues in their order: every loaded line is
    the parse of the raw cue found at the position its [index] field records
    (so it has that cue's start and end), the [index] fields strictly
    increase along [allCues], and no more lines are loaded than there are
    cues. *)
Theorem loadAllCues_indices (cues : list VTTCue.t) :
  Forall (fun p => exists c : VTTCue.t,
                     cues !! index p = Some c /\ p = parseCue c (index p)
                     /\ start p = VTTCue.startTime c /\ end_ p = VTTCue.endTime c)
    (loadAllCues cues)
  /\ StronglySorted (fun p r => (index p < index r)%nat) (loadAllCues cues)
  /\ (length (loadAllCues cues) <= length cues)%nat.
Proof.
  unfold loadAllCues. rewrite loadAllCues_from_filter. cbn [app].
  destruct (loaded_from cues 0) as [H1 H2]. split; [|split; [exact H2|]].
  - eapply Forall_impl; [exact H1|]. intros p (c & Hc & _ & Hp).
    rewrite Nat.sub_0_r in Hc. exists c. split; [exact Hc|]. split; [exact Hp|].
    rewrite Hp. unfold parseCue. destruct (exec_loop _ _ _). split; reflexivity.
  - etransitivity; [apply List.filter_length_le|]. rewrite length_imap. reflexivity.
Qed.

(** ** The display of times *)

Lemma Qfloor_unique (x : Q) (z : Z) :
  (inject_Z z <= x)%Q -> (x < inject_Z (z + 1))%Q -> Qfloor x = z.
Proof.
  intros H1 H2.
  assert (Ha : (z <= Qfloor x)%Z).
  { rewrite <- (Qfloor_Z z). apply Qfloor_resp_le. exact H1. }
  assert (Hb : (Qfloor x < z + 1)%Z).
  { rewrite Zlt_Qlt. eapply Qle_lt_trans; [apply Qfloor_le | exact H2]. }
  lia.
Qed.

Lemma Number_toString_small (z : Z) :
  (Z.abs z < 9007199254740992)%Z -> Number_toString z = toString z.
Proof.
  intros H. unfold Number_toString.
  change (2 ^ 53)%Z with 9007199254740992%Z.
  rewrite (proj2 (Z.ltb_lt _ _) H). reflexivity.
Qed.

Lemma pad_seconds (r : nat) :
  (r < 60)%nat -> padStart 2 48%N (toString (Z.of_nat r)) = two_digits r.
Proof.
  intros H. do 60 (destruct r as [|r]; [reflexivity|]). lia.
Qed.

(** A double below a whole number is below it by one unit of its own
    denominator, which is more than [2^-53] of the double. *)
Lemma small_double_gap (q : Q) (z : Z) :
  small_double q -> (q < inject_Z z)%Q ->
  (q + q * (1 # 9007199254740991) <= inject_Z z)%Q.
Proof.
  intros (n & k & Hn & Hk & Hq) Hz.
  assert (Hp : (0 < 2 ^ k)%Q) by apply pow2_pos.
  assert (Hpz : (2 ^ k == inject_Z (2 ^ k))%Q).
  { rewrite Zpower_Qpower by lia. reflexivity. }
  set (A := (2 ^ k)%Q) in *.
  assert (HqA : (q * A == inject_Z n)%Q).
  { rewrite Hq. field. intros E. rewrite E in Hp. apply (Qlt_irrefl _ Hp). }
  assert (H1 : (inject_Z n < inject_Z (z * 2 ^ k))%Q).
  { rewrite inject_Z_mult, <- Hpz, <- HqA.
    apply Qmult_lt_compat_r; assumption. }
  rewrite <- Zlt_Qlt in H1.
  assert (H2 : (inject_Z (n + 1) <= inject_Z (z * 2 ^ k))%Q)
    by (rewrite <- Zle_Qle; lia).
  rewrite inject_Z_plus, inject_Z_mult, <- Hpz, <- HqA in H2.
  change (inject_Z 1) with 1%Q in H2.
  assert (H3 : (q * A <= 9007199254740991)%Q).
  { rewrite HqA. change 9007199254740991%Q with (inject_Z 9007199254740991).
    rewrite <- Zle_Qle. lia. }
  set (P := (/ A)%Q).
  assert (HP : (0 < P)%Q) by (apply Qinv_lt_0_compat; exact Hp).
  assert (HPA : (A * P == 1)%Q).
  { unfold P. field. intros E. rewrite E in Hp. apply (Qlt_irrefl _ Hp). }
  assert (H4 : ((q * A + 1) * P <= inject_Z z * A * P)%Q)
    by (apply Qmult_le_compat_r; [exact H2 | lra]).
  assert (H5 : (q * A * P <= 9007199254740991 * P)%Q)
    by (apply Qmult_le_compat_r; [exact H3 | lra]).
  assert (E4 : ((q * A + 1) * P == q * (A * P) + P)%Q) by ring.
  assert (E5 : (inject_Z z * A * P == inject_Z z * (A * P))%Q) by ring.
  assert (E6 : (q * A * P == q * (A * P))%Q) by ring.
  rewrite E4, E5 in H4. rewrite E6 in H5. rewrite HPA in H4, H5.
  lra.
Qed.

(** X16. [formatTime] shows NaN as "0:00", and shows a time that is not
    negative as the whole minutes, a colon and the remaining whole seconds
    on two digits: for every double [seconds] with [0 <= seconds < 2^53]
    the result is [String(floor(seconds) div 60)], [:], and the two digits
    of [floor(seconds) mod 60]; the rounding of the quotient [seconds / 60]
    never reaches the next minute. *)
Theorem formatTime_minutes_seconds (q : Q) :
  small_double q ->
  formatTime None = code_units "0:00"
  /\ formatTime (Some q)
     = toString (Qfloor q / 60) ++ COLON :: two_digits (Z.to_nat (Qfloor q mod 60)).
Proof.
  intros Hd. split; [reflexivity|].
  assert (Hq : (0 <= q)%Q /\ (q < 9007199254740992)%Q).
  { destruct Hd as (n & k & Hn & Hk & Hq).
    assert (Hp : (1 <= 2 ^ k)%Q) by (apply pow2_ge_1; lia).
    assert (Hn0 : (0 <= inject_Z n)%Q)
      by (change 0%Q with (inject_Z 0); rewrite <- Zle_Qle; lia).
    assert (Hn1 : (inject_Z n < 9007199254740992)%Q)
      by (change 9007199254740992%Q with (inject_Z 9007199254740992);
          rewrite <- Zlt_Qlt; lia).
    set (A := (2 ^ k)%Q) in *. set (P := (/ A)%Q).
    assert (HP : (0 < P)%Q) by (apply Qinv_lt_0_compat; lra).
    assert (HPA : (P * A == 1)%Q) by (unfold P; field; lra).
    assert (HP1 : (0 <= P * (A - 1))%Q)
      by (apply Qmult_le_0_compat; lra).
    assert (E1 : (P * (A - 1) == P * A - P)%Q) by ring.
    rewrite E1, HPA in HP1.
    assert (HqP : (q == inject_Z n * P)%Q) by (rewrite Hq; reflexivity).
    assert (H1 : (0 <= inject_Z n * P)%Q)
      by (apply Qmult_le_0_compat; lra).
    assert (H2 : (0 <= inject_Z n * (1 - P))%Q)
      by (apply Qmult_le_0_compat; lra).
    assert (E2 : (inject_Z n * (1 - P) == inject_Z n - inject_Z n * P)%Q) by ring.
    rewrite E2 in H2. rewrite <- HqP in H1, H2. split; lra. }
  destruct Hq as [Hq Hq53].
  set (f := Qfloor q) in *. set (k := (f / 60)%Z) in *. set (r := (f mod 60)%Z).
  assert (Hf0 : (0 <= f)%Z).
  { unfold f. rewrite <- (Qfloor_Z 0). apply Qfloor_resp_le. exact Hq. }
  assert (Hf : f = (60 * k + r)%Z) by (unfold k, r; apply Z.div_mod; lia).
  assert (Hr : (0 <= r < 60)%Z) by (unfold r; apply Z.mod_pos_bound; lia).
  assert (Hk : (0 <= k)%Z) by (unfold k; apply Z.div_pos; lia).
  clearbody k r.
  assert (HfQ : (inject_Z f == 60 * inject_Z k + inject_Z r)%Q).
  { rewrite Hf, inject_Z_plus, inject_Z_mult. reflexivity. }
  assert (Hlo : (inject_Z f <= q)%Q) by apply Qfloor_le.
  assert (Hhi : (q < inject_Z f + 1)%Q).
  { pose proof (Qlt_floor q) as H. rewrite inject_Z_plus in H. exact H. }
  rewrite HfQ in Hlo, Hhi.
  assert (Hk0 : (0 <= inject_Z k)%Q)
    by (change (inject_Z 0 <= inject_Z k)%Q; rewrite <- Zle_Qle; exact Hk).
  assert (Hr0 : (0 <= inject_Z r)%Q)
    by (change (inject_Z 0 <= inject_Z r)%Q; rewrite <- Zle_Qle; lia).
  assert (Hr1 : (inject_Z r <= 59)%Q)
    by (change (inject_Z r <= inject_Z 59)%Q; rewrite <- Zle_Qle; lia).
  assert (Hgap : (q + q * (1 # 9007199254740991) <= 60 * inject_Z k + 60)%Q).
  { pose proof (small_double_gap q (60 * (k + 1)) Hd) as H.
    rewrite inject_Z_mult, inject_Z_plus in H.
    change (inject_Z 60) with 60%Q in H. change (inject_Z 1) with 1%Q in H.
    lra. }
  assert (Hx : (q / 60 == q * (1 # 60))%Q) by (unfold Qdiv; reflexivity).
  assert (Hx0 : (0 <= q / 60)%Q) by (rewrite Hx; lra).
  assert (Hmin : Qfloor (round64 (q / 60)) = k).
  { apply Qfloor_unique.
    - apply round64_ge_int; [exact Hx0 | rewrite Hx; lra | rewrite Hx; lra].
    - pose proof (round64_error (q / 60)) as He.
      rewrite (Qabs_pos _ Hx0) in He. apply Qabs_Qle_condition in He.
      destruct He as [_ Hup].
      assert (Ht : (2 ^ (-1075) <= 1 # 1000000000000000000000000000000000000)%Q)
        by (vm_compute; discriminate).
      rewrite inject_Z_plus. change (inject_Z 1) with 1%Q.
      set (tiny := (2 ^ (-1075))%Q) in *.
      set (y := round64 (q / 60)) in *. clearbody y. rewrite Hx in Hup.
      destruct (Qlt_le_dec q (60 * inject_Z k + 30)) as [Hc|Hc]; lra. }
  assert (Htr : Qtrunc (q / 60) = k).
  { unfold Qtrunc. rewrite (proj2 (Qle_bool_iff 0 (q / 60)) Hx0).
    apply Qfloor_unique; rewrite ?inject_Z_plus; change (inject_Z 1) with 1%Q;
      rewrite Hx; lra. }
  assert (Hsec : Qfloor (Qrem q 60) = r).
  { unfold Qrem. rewrite Htr.
    apply Qfloor_unique; rewrite ?inject_Z_plus; change (inject_Z 1) with 1%Q; lra. }
  assert (Hk53 : (k < 9007199254740992)%Z).
  { rewrite Zlt_Qlt. change (inject_Z 9007199254740992) with 9007199254740992%Q. lra. }
  unfold formatTime. rewrite Hmin, Hsec.
  rewrite !Number_toString_small by lia. f_equal. f_equal.
  rewrite <- (Z2Nat.id r) at 1 by lia. apply pad_seconds. lia.
Qed.

Lemma formatTime_minutes_seconds_witness :
  formatTime (dec 36005 10) = code_units "60:00".
Proof.
  destruct (formatTime_minutes_seconds (7201 # 2)) as [_ H].
  - exists 7201%Z, 1%Z. split; [lia|]. split; [lia|]. reflexivity.
  - exact H.
Defined.

(** Beyond 2^53 minutes the minutes are written with the digits that
    identify the double. *)
Example formatTime_large :
  formatTime (Some (inject_Z (10 ^ 21))) = code_units "16666666666666666000:40".
Proof. vm_compute. reflexivity. Qed.

(** ** The first variant: loading and ticks *)

Lemma findIndex_None {A : Type} (p : A -> bool) (l : list A) :
  findIndex p l = None <-> forall x : A, In x l -> p x = false.
Proof.
  induction l as [|x l IH]; cbn [findIndex].
  - split; [intros _ y [] | reflexivity].
  - destruct (p x) eqn:E.
    + split; [discriminate|]. intros H. rewrite (H x) in E; [discriminate | left; reflexivity].
    + destruct (findIndex p l) as [j|] eqn:Ej; cbn.
      * split; [discriminate|]. intros H.
        assert (Some j = None) by (apply IH; intros y Hy; apply H; right; exact Hy).
        discriminate.
      * split; [|reflexivity]. intros _ y [<-|Hy]; [exact E|].
        apply (proj1 IH eq_refl). exact Hy.
Qed.

Lemma findIndex_first {A : Type} (p : A -> bool) (l : list A) (a : nat) (x : A) :
  l !! a = Some x -> p x = true ->
  (forall (j : nat) (y : A), (j < a)%nat -> l !! j = Some y -> p y = false) ->
  findIndex p l = Some a.
Proof.
  revert a. induction l as [|z l IH]; intros a Ha Hp Hmin; [discriminate Ha|].
  cbn [findIndex]. destruct a as [|a]; simpl in Ha.
  - injection Ha as ->. rewrite Hp. reflexivity.
  - rewrite (Hmin 0%nat z) by (reflexivity || lia).
    rewrite (IH a Ha Hp); [reflexivity|].
    intros j y Hj Hy. apply (Hmin (S j) y); [lia | exact Hy].
Qed.

(** X17. In the first variant a tick at a time that no cue contains
    ([start <= t < end] fails for every line) changes nothing: the active
    line and every class stay as they were. *)
Theorem basic_gap_tick (t : number) (st : Basic.state) :
  (forall c : Basic.cue, In c (Basic.lyrics st) -> Basic.in_span t c = false) ->
  Basic.syncLyrics t st = st.
Proof.
  intros H. apply findIndex_None in H. unfold Basic.syncLyrics. rewrite H.
  destruct (Basic.lyrics st); reflexivity.
Qed.

Lemma basic_gap_tick_witness :
  Basic.syncLyrics (num 20)
    (Basic.run [Basic.CuesLoaded [VTTCue.mk (num 0) (num 5) (code_units "one")];
                Basic.TimeUpdate (num 1)] Basic.init)
  = Basic.run [Basic.CuesLoaded [VTTCue.mk (num 0) (num 5) (code_units "one")];
               Basic.TimeUpdate (num 1)] Basic.init.
Proof.
  apply (basic_gap_tick (num 20)).
  intros c [<-|[]]. reflexivity.
Defined.

Lemma basic_render_loop_fresh (ls : list Basic.cue) :
  forall (i : nat) (doc : gmap nat element),
    (forall k e, doc !! k = Some e -> cls_active e = false /\ cls_played e = false) ->
    forall k e, Basic.render_loop i ls doc !! k = Some e ->
                cls_active e = false /\ cls_played e = false.
Proof.
  induction ls as [|c ls IH]; intros i doc H; cbn [Basic.render_loop]; [exact H|].
  apply IH. destruct (doc !! i) eqn:E; [exact H|].
  intros k e. destruct (decide (i = k)) as [->|Hne].
  - rewrite lookup_insert_eq. intros [= <-]. auto.
  - rewrite lookup_insert_ne by exact Hne. apply H.
Qed.

Lemma basic_toggle_length (t : number) (ws : list word) :
  forall (k : nat) (spans : list bool),
    length (Basic.toggle_loop t k ws spans) = length spans.
Proof.
  induction ws as [|w ws IH]; intros k spans; cbn [Basic.toggle_loop]; [reflexivity|].
  rewrite IH. apply length_insert.
Qed.

Lemma basic_step_classes (st : Basic.state) (ev : Basic.event) :
  basic_classes_ok st -> basic_classes_ok (Basic.step st ev).
Proof.
  intros H. destruct ev as [cues|t]; cbn [Basic.step].
  - unfold Basic.loadCuesFromTrack. destruct cues as [|c0 cues]; [exact H|].
    intros k e He. cbn [Basic.document Basic.currentLyricIndex] in *.
    unfold Basic.renderLyrics in He.
    apply basic_render_loop_fresh in He as [-> ->];
      [split; [discriminate | reflexivity]|].
    intros j x Hj. rewrite lookup_empty in Hj. discriminate.
  - unfold Basic.syncLyrics. destruct (Basic.lyrics st) as [|c0 ls] eqn:El; [exact H|].
    rewrite <- El. clear El c0 ls.
    destruct (findIndex (Basic.in_span t) (Basic.lyrics st)) as [a|]; [|exact H].
    set (doc1 := match Basic.currentLyricIndex st with
                 | Some p =>
                     match Basic.document st !! p with
                     | Some prev =>
                         <[p := Element false true (all_words false prev)]>
                           (Basic.document st)
                     | None => Basic.document st
                     end
                 | None => Basic.document st
                 end).
    assert (Hd1 : forall k e, doc1 !! k = Some e ->
                              cls_active e = false
                              /\ cls_active e && cls_played e = false).
    { intros k e. unfold doc1.
      destruct (Basic.currentLyricIndex st) as [p|] eqn:Ec.
      - destruct (Basic.document st !! p) as [prev|] eqn:Ep.
        + destruct (decide (p = k)) as [->|Hne].
          * rewrite lookup_insert_eq. intros [= <-]. auto.
          * rewrite lookup_insert_ne by exact Hne. intros He.
            destruct (H k e He) as [H1 H2]. split; [|exact H2].
            destruct (cls_active e); [|reflexivity].
            specialize (H1 eq_refl). congruence.
        + intros He. destruct (H k e He) as [H1 H2]. split; [|exact H2].
          destruct (cls_active e); [|reflexivity].
          specialize (H1 eq_refl). congruence.
      - intros He. destruct (H k e He) as [H1 H2]. split; [|exact H2].
        destruct (cls_active e); [|reflexivity].
        specialize (H1 eq_refl). congruence. }
    assert (H2 : basic_classes_ok
                   (if bool_decide (Some a <> Basic.currentLyricIndex st)
                    then match doc1 !! a with
                         | Some active =>
                             Basic.State (Basic.lyrics st) (Some a)
                               (<[a := Element true false (word_active active)]> doc1)
                         | None =>
                             Basic.State (Basic.lyrics st)
                               (Basic.currentLyricIndex st) doc1
                         end
                    else st)).
    { case_bool_decide as Hd; [|exact H].
      destruct (doc1 !! a) as [active|] eqn:Ea; intros k e;
        cbn [Basic.document Basic.currentLyricIndex].
      - destruct (decide (a = k)) as [->|Hne].
        + rewrite lookup_insert_eq. intros [= <-]. auto.
        + rewrite lookup_insert_ne by exact Hne. intros He.
          destruct (Hd1 k e He) as [-> _]. split; [discriminate | reflexivity].
      - intros He. destruct (Hd1 k e He) as [-> _].
        split; [discriminate | reflexivity]. }
    revert H2.
    generalize (if bool_decide (Some a <> Basic.currentLyricIndex st)
                    then match doc1 !! a with
                         | Some active =>
                             Basic.State (Basic.lyrics st) (Some a)
                               (<[a := Element true false (word_active active)]> doc1)
                         | None =>
                             Basic.State (Basic.lyrics st)
                               (Basic.currentLyricIndex st) doc1
                         end
                    else st).
    intros s Hs. destruct (Basic.lyrics s !! a) as [c|]; [|exact Hs].
    destruct (Basic.document s !! a) as [active|] eqn:Ea; [|exact Hs].
    intros k e. cbn [Basic.document Basic.currentLyricIndex].
    destruct (decide (a = k)) as [->|Hne].
    + rewrite lookup_insert_eq. intros [= <-]. cbn [cls_active cls_played].
      apply (Hs k active Ea).
    + rewrite lookup_insert_ne by exact Hne. apply Hs.
Qed.

(** X18. In the first variant at most one line is shown as active: in every
    state reached by loading cues and ticks, an element with the class
    [active] is the element of the current line, and it does not carry the
    class [played]. *)
Theorem basic_one_active (evs : list Basic.event) (k : nat) (e : element) :
  Basic.document (Basic.run evs Basic.init) !! k = Some e ->
  cls_active e = true ->
  Basic.currentLyricIndex (Basic.run evs Basic.init) = Some k
  /\ cls_played e = false.
Proof.
  assert (H : basic_classes_ok (Basic.run evs Basic.init)).
  { assert (H0 : basic_classes_ok Basic.init)
      by (intros j x Hj; cbn in Hj; rewrite lookup_empty in Hj; discriminate).
    revert H0. generalize Basic.init.
    induction evs as [|ev evs IH]; intros st H0; simpl; [exact H0|].
    apply IH, basic_step_classes, H0. }
  intros He Ha. destruct (H k e He) as [H1 H2]. split; [auto|].
  rewrite Ha in H2. exact H2.
Qed.

Lemma basic_one_active_witness :
  Basic.currentLyricIndex
    (Basic.run [Basic.CuesLoaded [VTTCue.mk (num 0) (num 5) (code_units "one");
                                  VTTCue.mk (num 5) (num 10) (code_units "two")];
                Basic.TimeUpdate (num 1); Basic.TimeUpdate (num 5)] Basic.init)
  = Some 1%nat
  /\ cls_played (Element true false [true]) = false.
Proof.
  apply (basic_one_active
           [Basic.CuesLoaded [VTTCue.mk (num 0) (num 5) (code_units "one");
                              VTTCue.mk (num 5) (num 10) (code_units "two")];
            Basic.TimeUpdate (num 1); Basic.TimeUpdate (num 5)]
           1%nat (Element true false [true])).
  - vm_compute. reflexivity.
  - reflexivity.
Defined.

Lemma basic_render_loop_keeps (ls : list Basic.cue) :
  forall (i : nat) (doc : gmap nat element) (k : nat) (e : element),
    doc !! k = Some e -> Basic.render_loop i ls doc !! k = Some e.
Proof.
  induction ls as [|c ls IH]; intros i doc k e H; cbn [Basic.render_loop]; [exact H|].
  apply IH. destruct (doc !! i) eqn:E; [exact H|].
  rewrite lookup_insert_ne; [exact H | congruence].
Qed.

Lemma basic_render_loop_lookup (ls : list Basic.cue) :
  forall (i : nat) (doc : gmap nat element),
    (forall k : nat, (i <= k)%nat -> doc !! k = None) ->
    forall (j : nat) (c : Basic.cue),
      ls !! j = Some c ->
      Basic.render_loop i ls doc !! (i + j)%nat
      = Some (Element false false (List.map (fun _ => false) (Basic.words c))).
Proof.
  induction ls as [|d ls IH]; intros i doc H j c Hj; [discriminate Hj|].
  cbn [Basic.render_loop]. rewrite (H i) by lia. destruct j as [|j]; simpl in Hj.
  - injection Hj as ->. rewrite Nat.add_0_r.
    apply basic_render_loop_keeps. apply lookup_insert_eq.
  - replace (i + S j)%nat with (S i + j)%nat by lia. apply IH; [|exact Hj].
    intros k Hk. rewrite lookup_insert_ne by lia. apply H. lia.
Qed.

Lemma basic_step_rendered (st : Basic.state) (ev : Basic.event) :
  basic_rendered st -> basic_rendered (Basic.step st ev).
Proof.
  intros H. destruct ev as [cues|t]; cbn [Basic.step].
  - unfold Basic.loadCuesFromTrack. destruct cues as [|c0 cues]; [exact H|].
    intros a c Ha. cbn [Basic.lyrics Basic.document] in *.
    unfold Basic.renderLyrics.
    rewrite (basic_render_loop_lookup _ 0 ∅ (fun k _ => lookup_empty k) a c Ha).
    eexists. split; [reflexivity|]. cbn [word_active]. apply length_map.
  - unfold Basic.syncLyrics. destruct (Basic.lyrics st) as [|c0 ls] eqn:El; [exact H|].
    rewrite <- El. clear El c0 ls.
    destruct (findIndex (Basic.in_span t) (Basic.lyrics st)) as [a|]; [|exact H].
    assert (Hins : forall (ly : list Basic.cue) (cur cur' : option nat)
                     (doc : gmap nat element) (k : nat) (e e' : element),
               doc !! k = Some e ->
               length (word_active e') = length (word_active e) ->
               basic_rendered (Basic.State ly cur doc) ->
               basic_rendered (Basic.State ly cur' (<[k := e']> doc))).
    { intros ly cur cur' doc k e e' Hk Hlen Hr b c Hb.
      cbn [Basic.lyrics Basic.document] in *.
      destruct (Hr b c Hb) as (x & Hx & Hxl).
      cbn [Basic.lyrics Basic.document] in Hx.
      destruct (decide (k = b)) as [->|Hne].
      - rewrite lookup_insert_eq. eexists. split; [reflexivity|].
        rewrite Hk in Hx. injection Hx as <-. rewrite Hlen. exact Hxl.
      - rewrite lookup_insert_ne by exact Hne. eauto. }
    assert (H1 : basic_rendered
                   (Basic.State (Basic.lyrics st) (Basic.currentLyricIndex st)
                      (match Basic.currentLyricIndex st with
                       | Some p =>
                           match Basic.document st !! p with
                           | Some prev =>
                               <[p := Element false true (all_words false prev)]>
                                 (Basic.document st)
                           | None => Basic.document st
                           end
                       | None => Basic.document st
                       end))).
    { destruct st as [ly cur doc]. cbn [Basic.lyrics Basic.currentLyricIndex Basic.document] in *.
      destruct cur as [p|]; [|exact H].
      destruct (doc !! p) as [prev|] eqn:Ep; [|exact H].
      eapply Hins; [exact Ep | | exact H]. unfold all_words. cbn. apply length_map. }
    assert (H2 : basic_rendered
                   (if bool_decide (Some a <> Basic.currentLyricIndex st)
                    then match (match Basic.currentLyricIndex st with
                       | Some p =>
                           match Basic.document st !! p with
                           | Some prev =>
                               <[p := Element false true (all_words false prev)]>
                                 (Basic.document st)
                           | None => Basic.document st
                           end
                       | None => Basic.document st
                       end) !! a with
                         | Some active =>
                             Basic.State (Basic.lyrics st) (Some a)
                               (<[a := Element true false (word_active active)]>
                                  (match Basic.currentLyricIndex st with
                       | Some p =>
                           match Basic.document st !! p with
                           | Some prev =>
                               <[p := Element false true (all_words false prev)]>
                                 (Basic.document st)
                           | None => Basic.document st
                           end
                       | None => Basic.document st
                       end))
                         | None =>
                             Basic.State (Basic.lyrics st)
                               (Basic.currentLyricIndex st)
                               (match Basic.currentLyricIndex st with
                       | Some p =>
                           match Basic.document st !! p with
                           | Some prev =>
                               <[p := Element false true (all_words false prev)]>
                                 (Basic.document st)
                           | None => Basic.document st
                           end
                       | None => Basic.document st
                       end)
                         end
                    else st)).
    { case_bool_decide as Hd; [|exact H].
      revert H1. generalize (match Basic.currentLyricIndex st with
                       | Some p =>
                           match Basic.document st !! p with
                           | Some prev =>
                               <[p := Element false true (all_words false prev)]>
                                 (Basic.document st)
                           | None => Basic.document st
                           end
                       | None => Basic.document st
                       end). intros doc1 H1.
      destruct (doc1 !! a) as [active|] eqn:Ea; [|exact H1].
      eapply Hins; [exact Ea | reflexivity | exact H1]. }
    revert H2. match goal with |- basic_rendered ?s -> _ => generalize s end.
    intros s Hs. destruct (Basic.lyrics s !! a) as [c|]; [|exact Hs].
    destruct (Basic.document s !! a) as [active|] eqn:Ea; [|exact Hs].
    destruct s as [ly cur doc]. cbn [Basic.lyrics Basic.currentLyricIndex Basic.document] in *.
    eapply Hins; [exact Ea | | exact Hs]. cbn. apply basic_toggle_length.
Qed.

Lemma basic_run_rendered (evs : list Basic.event) :
  basic_rendered (Basic.run evs Basic.init).
Proof.
  assert (H0 : basic_rendered Basic.init) by (intros a c Ha; discriminate Ha).
  revert H0. generalize Basic.init.
  induction evs as [|ev evs IH]; intros st H0; simpl; [exact H0|].
  apply IH, basic_step_rendered, H0.
Qed.

Lemma basic_toggle_before (t : number) (ws : list word) :
  forall (k : nat) (spans : list bool) (i : nat),
    (i < k)%nat -> Basic.toggle_loop t k ws spans !! i = spans !! i.
Proof.
  induction ws as [|w ws IH]; intros k spans i Hlt; cbn [Basic.toggle_loop];
    [reflexivity|].
  rewrite IH by lia. apply list_lookup_insert_ne. lia.
Qed.

Lemma basic_toggle_lookup (t : number) (ws : list word) :
  forall (k : nat) (spans : list bool) (i : nat) (w : word),
    ws !! i = Some w -> (k + i < length spans)%nat ->
    Basic.toggle_loop t k ws spans !! (k + i)%nat = Some (num_ge t (time w)).
Proof.
  induction ws as [|v ws IH]; intros k spans i w Hi Hlen; [done|].
  cbn [Basic.toggle_loop]. destruct i as [|i]; simpl in Hi.
  - injection Hi as ->. rewrite Nat.add_0_r in *.
    rewrite basic_toggle_before by lia.
    apply list_lookup_insert_eq. exact Hlen.
  - replace (k + S i)%nat with (S k + i)%nat by lia.
    apply IH; [exact Hi|]. rewrite length_insert. lia.
Qed.

Lemma basic_sync_shape (t : number) (st : Basic.state) (a : nat) (c : Basic.cue) :
  basic_rendered st ->
  findIndex (Basic.in_span t) (Basic.lyrics st) = Some a ->
  Basic.lyrics st !! a = Some c ->
  Basic.currentLyricIndex (Basic.syncLyrics t st) = Some a
  /\ exists e : element,
       Basic.document (Basic.syncLyrics t st) !! a = Some e
       /\ (forall (i : nat) (w : word),
              Basic.words c !! i = Some w ->
              word_active e !! i = Some (num_ge t (time w)))
       /\ length (word_active e) = length (Basic.words c)
       /\ (Basic.currentLyricIndex st <> Some a ->
           cls_active e = true /\ cls_played e = false).
Proof.
  intros Hr Hf Hc. destruct (Hr a c Hc) as (e0 & He0 & Hlen).
  assert (Htog : forall spans : list bool,
             length spans = length (Basic.words c) ->
             forall (i : nat) (w : word),
               Basic.words c !! i = Some w ->
               Basic.toggle_loop t 0 (Basic.words c) spans !! i
               = Some (num_ge t (time w))).
  { intros spans Hs i w Hw.
    apply (basic_toggle_lookup t (Basic.words c) 0 spans i w Hw).
    apply lookup_lt_Some in Hw. simpl. lia. }
  unfold Basic.syncLyrics. rewrite Hf.
  destruct (Basic.lyrics st) as [|c0 ls] eqn:El; [discriminate Hc|].
  rewrite <- El in *. clear El c0 ls.
  case_bool_decide as Hd.
  - set (doc1 := match Basic.currentLyricIndex st with
                 | Some p =>
                     match Basic.document st !! p with
                     | Some prev =>
                         <[p := Element false true (all_words false prev)]>
                           (Basic.document st)
                     | None => Basic.document st
                     end
                 | None => Basic.document st
                 end).
    assert (H1 : doc1 !! a = Some e0).
    { unfold doc1. destruct (Basic.currentLyricIndex st) as [p|]; [|exact He0].
      destruct (Basic.document st !! p); [|exact He0].
      rewrite lookup_insert_ne by congruence. exact He0. }
    rewrite H1. cbn [Basic.lyrics Basic.document Basic.currentLyricIndex].
    rewrite Hc, lookup_insert_eq.
    cbn [Basic.currentLyricIndex Basic.document cls_active cls_played word_active].
    split; [reflexivity|]. eexists. rewrite lookup_insert_eq.
    split; [reflexivity|]. cbn [word_active cls_active cls_played].
    split; [apply Htog; exact Hlen|].
    split; [rewrite basic_toggle_length; exact Hlen | auto].
  - assert (Hcur : Basic.currentLyricIndex st = Some a).
    { destruct (decide (Some a = Basic.currentLyricIndex st)); [congruence | contradiction]. }
    rewrite Hc, He0. cbn [Basic.currentLyricIndex Basic.document].
    split; [exact Hcur|]. eexists. rewrite lookup_insert_eq.
    split; [reflexivity|]. cbn [word_active].
    split; [apply Htog; exact Hlen|].
    split; [rewrite basic_toggle_length; exact Hlen | contradiction].
Qed.

(** X19. In the first variant, after loading and any ticks, a tick at time
    [t] makes the first line with [start <= t < end] (end excluded, no
    slack) the current line; its highlighted words are exactly the words
    whose time has been reached ([t >= time], no allowance for the last
    word); and if the line was not current before, its element gets the
    class [active] and loses the class [played]. *)
Theorem basic_tick_shows (evs : list Basic.event) (t : number) (a : nat)
  (c : Basic.cue) :
  Basic.lyrics (Basic.run evs Basic.init) !! a = Some c ->
  Basic.in_span t c = true ->
  (forall (j : nat) (d : Basic.cue),
      (j < a)%nat -> Basic.lyrics (Basic.run evs Basic.init) !! j = Some d ->
      Basic.in_span t d = false) ->
  Basic.currentLyricIndex (Basic.syncLyrics t (Basic.run evs Basic.init)) = Some a
  /\ (forall i : nat,
         Basic.word_marked (Basic.syncLyrics t (Basic.run evs Basic.init)) a i = true
         <-> exists w : word,
               Basic.words c !! i = Some w /\ num_ge t (time w) = true)
  /\ (Basic.currentLyricIndex (Basic.run evs Basic.init) <> Some a ->
      exists e : element,
        Basic.document (Basic.syncLyrics t (Basic.run evs Basic.init)) !! a = Some e
        /\ cls_active e = true /\ cls_played e = false).
Proof.
  intros Hc Hin Hmin.
  pose proof (findIndex_first _ _ a c Hc Hin Hmin) as Hf.
  destruct (basic_sync_shape t _ a c (basic_run_rendered evs) Hf Hc)
    as (Hcur & e & He & Hw & Hlen & Hcls).
  split; [exact Hcur|]. split.
  - intros i. unfold Basic.word_marked. rewrite He. split.
    + destruct (Basic.words c !! i) as [w|] eqn:Ew.
      * rewrite (Hw i w Ew). intros H. exists w. auto.
      * apply lookup_ge_None in Ew.
        rewrite (proj2 (lookup_ge_None _ _)) by lia. discriminate.
    + intros (w & Ew & Hge). rewrite (Hw i w Ew). exact Hge.
  - intros Hn. exists e. split; [exact He | apply Hcls; exact Hn].
Qed.

Lemma basic_tick_shows_witness :
  Basic.currentLyricIndex
    (Basic.syncLyrics (num 5)
       (Basic.run [Basic.CuesLoaded
                     [VTTCue.mk (num 0) (num 5) (code_units "one");
                      VTTCue.mk (num 5) (num 10) (code_units "two")]]
          Basic.init)) = Some 1%nat.
Proof.
  apply (basic_tick_shows
           [Basic.CuesLoaded [VTTCue.mk (num 0) (num 5) (code_units "one");
                              VTTCue.mk (num 5) (num 10) (code_units "two")]]
           (num 5) 1%nat
           (Basic.Cue (num 5) (num 10) [Word (num 5) (code_units "two")])).
  - reflexivity.
  - reflexivity.
  - intros [|j] d Hj Hd; [|lia]. injection Hd as <-. reflexivity.
Defined.

Lemma basic_fold_processCue (cues : list VTTCue.t) :
  forall (i : nat) (acc : list cue),
    fold_left (fun l c => Basic.processCue c l) cues (List.map strip_index acc)
    = List.map strip_index (loadAllCues_from i cues acc).
Proof.
  induction cues as [|c cues IH]; intros i acc; cbn [fold_left loadAllCues_from];
    [reflexivity|].
  rewrite <- (IH (S i)). f_equal.
  unfold Basic.processCue, parseCue.
  destruct (exec_loop (VTTCue.text c) [] false) as [ws f]. cbn [words].
  destruct (0 <? length _)%nat; [|reflexivity].
  rewrite List.map_app. reflexivity.
Qed.

(** X20. The two variants load the same lines: for a track with cues the
    [lyrics] of the first variant are the lines that [loadAllCues] of the
    second variant keeps, with the same start, end and words (only the
    [index] field is missing); a track without cues leaves the first
    variant as it was. *)
Theorem loaders_agree (cues : list VTTCue.t) (st : Basic.state) :
  (cues <> [] ->
   Basic.lyrics (Basic.loadCuesFromTrack cues st)
   = List.map strip_index (loadAllCues cues))
  /\ Basic.loadCuesFromTrack [] st = st.
Proof.
  split; [|reflexivity]. intros Hne. unfold Basic.loadCuesFromTrack, loadAllCues.
  destruct cues as [|c0 cues]; [contradiction|]. cbn [Basic.lyrics].
  apply (basic_fold_processCue (c0 :: cues) 0 []).
Qed.

Lemma loaders_agree_witness :
  Basic.lyrics
    (Basic.loadCuesFromTrack
       [VTTCue.mk (num 0) (num 5) (code_units " ");
        VTTCue.mk (num 5) (num 10) (code_units "two")] Basic.init)
  = [Basic.Cue (num 5) (num 10) [Word (num 5) (code_units "two")]].
Proof.
  rewrite (proj1 (loaders_agree
                    [VTTCue.mk (num 0) (num 5) (code_units " ");
                     VTTCue.mk (num 5) (num 10) (code_units "two")] Basic.init)).
  - reflexivity.
  - discriminate.
Defined.

(** ** The quality selector *)

Lemma N_digit_facts (r : N) :
  (r < 10)%N ->
  is_digit (48 + r) = true
  /\ is_ws (48 + r) = false
  /\ digit_val (48 + r) = Z.of_N r
  /\ (forall s, sign ((48 + r)%N :: s) = (1%Z, (48 + r)%N :: s))
  /\ ((48 + r =? 120)%N || (48 + r =? 88)%N) = false.
Proof.
  intros H.
  assert (Hc : r = 0%N \/ r = 1%N \/ r = 2%N \/ r = 3%N \/ r = 4%N \/ r = 5%N
               \/ r = 6%N \/ r = 7%N \/ r = 8%N \/ r = 9%N) by lia.
  repeat (destruct Hc as [->|Hc]; [repeat split|]). subst r. repeat split.
Qed.

Lemma N_digits_parse (f : nat) :
  forall n : N,
    (1 <= f)%nat -> (n < 2 ^ N.of_nat f)%N ->
    forall (acc : Z) (k : nat) (rest : list N),
      exists d : nat,
        (1 <= d)%nat
        /\ digits_from acc k (N_digits f n ++ rest)
           = digits_from (acc * 10 ^ Z.of_nat d + Z.of_N n)%Z (k + d) rest.
Proof.
  induction f as [|f IH]; intros n Hf Hn acc k rest; [lia|].
  cbn [N_digits]. destruct (n <? 10)%N eqn:E.
  - apply N.ltb_lt in E. destruct (N_digit_facts n E) as (Hd & _ & Hv & _).
    exists 1%nat. split; [lia|]. cbn [app digits_from]. rewrite Hd, Hv.
    f_equal; [|lia]. change (10 ^ Z.of_nat 1)%Z with 10%Z. lia.
  - apply N.ltb_ge in E.
    assert (Hpow : (2 ^ N.of_nat (S f) = 2 * 2 ^ N.of_nat f)%N).
    { rewrite Nat2N.inj_succ. apply N.pow_succ_r'. }
    assert (Hq : (n / 10 < 2 ^ N.of_nat f)%N).
    { apply N.Div0.div_lt_upper_bound. lia. }
    assert (Hq1 : (1 <= n / 10)%N).
    { apply N.div_le_lower_bound; lia. }
    assert (Hf' : (1 <= f)%nat).
    { destruct f as [|f']; [|lia]. change (2 ^ N.of_nat 0)%N with 1%N in Hq. lia. }
    assert (Hr : (n mod 10 < 10)%N) by (apply N.mod_lt; lia).
    destruct (N_digit_facts _ Hr) as (Hd & _ & Hv & _).
    rewrite <- app_assoc. cbn [app].
    destruct (IH (n / 10)%N Hf' Hq acc k ((48 + n mod 10)%N :: rest)) as (d & Hd1 & Heq).
    exists (S d). split; [lia|]. rewrite Heq. cbn [digits_from]. rewrite Hd, Hv.
    f_equal; [|lia].
    rewrite Nat2Z.inj_succ, Z.pow_succ_r by lia.
    pose proof (N.div_mod n 10) as Hdm.
    assert (Hz : Z.of_N n = (10 * Z.of_N (n / 10) + Z.of_N (n mod 10))%Z) by lia.
    rewrite Hz. ring.
Qed.

Lemma N_digits_all_digits (f : nat) :
  forall n : N, Forall (fun c => is_digit c = true) (N_digits f n).
Proof.
  induction f as [|f IH]; intros n; cbn [N_digits]; [constructor|].
  destruct (n <? 10)%N eqn:E.
  - apply N.ltb_lt in E. constructor; [|constructor]. apply N_digit_facts. exact E.
  - apply Forall_app. split; [apply IH|]. constructor; [|constructor].
    apply N_digit_facts. apply N.mod_lt. lia.
Qed.

Lemma toString_nat (n : nat) :
  exists (c : N) (s : list N),
    toString (Z.of_nat n) = c :: s
    /\ Forall (fun x => is_digit x = true) (c :: s)
    /\ exists d : nat, digits (c :: s) = (Z.of_nat n, S d, []).
Proof.
  unfold toString.
  assert (Hneg : (Z.of_nat n <? 0)%Z = false) by (apply Z.ltb_ge; lia).
  rewrite Hneg. set (m := Z.abs_N (Z.of_nat n)).
  assert (Hm : Z.of_N m = Z.of_nat n) by (unfold m; lia).
  set (f := S (N.to_nat (N.log2 m))).
  assert (Hlt : (m < 2 ^ N.of_nat f)%N).
  { unfold f. rewrite Nat2N.inj_succ, N2Nat.id.
    destruct (N.eq_dec m 0%N) as [Hz|Hz]; [rewrite Hz; reflexivity|].
    apply N.log2_spec. lia. }
  destruct (N_digits_parse f m ltac:(unfold f; lia) Hlt 0%Z 0%nat []) as (d & Hd & Heq).
  rewrite app_nil_r in Heq. cbn [digits_from] in Heq.
  pose proof (N_digits_all_digits f m) as Hall.
  destruct (N_digits f m) as [|c s] eqn:E.
  - cbn [digits_from] in Heq. injection Heq as _ Hk. lia.
  - exists c, s. split; [reflexivity|]. split; [exact Hall|].
    destruct d as [|d]; [lia|]. exists d. unfold digits. rewrite Heq.
    f_equal. f_equal. lia.
Qed.

Lemma parseInt_auto_toString (n : nat) :
  parseInt_auto (toString (Z.of_nat n)) = num (Z.of_nat n).
Proof.
  destruct (toString_nat n) as (c & s & -> & Hall & d & Hd).
  inversion Hall as [|? ? Hc Hs]; subst.
  assert (Hc' : exists r, (r < 10)%N /\ c = (48 + r)%N).
  { unfold is_digit in Hc. apply andb_true_iff in Hc as [H1 H2].
    apply N.leb_le in H1, H2. exists (c - 48)%N. split; lia. }
  destruct Hc' as (r & Hr & ->).
  destruct (N_digit_facts r Hr) as (_ & Hw & _ & Hsg & _).
  unfold parseInt_auto. cbn [trimStart]. rewrite Hw, Hsg.
  assert (Hdec : match digits ((48 + r)%N :: s) with
                 | (_, O, _) => None
                 | (v, S _, _) => num (1 * v)%Z
                 end = num (Z.of_nat n)).
  { rewrite Hd. f_equal. lia. }
  destruct (48 + r)%N as [|p] eqn:Ep; [exact Hdec|].
  destruct s as [|x s2].
  - repeat (destruct p as [p|p|]; try exact Hdec).
  - inversion Hs as [|? ? Hx _]; subst.
    assert (Hx' : ((x =? 120)%N || (x =? 88)%N) = false).
    { unfold is_digit in Hx. apply andb_true_iff in Hx as [H1 H2].
      apply N.leb_le in H1, H2. apply orb_false_iff.
      split; apply N.eqb_neq; lia. }
    repeat (destruct p as [p|p|]; try exact Hdec); rewrite Hx'; exact Hdec.
Qed.

Lemma populate_lookup (levels : list Quality.level) (j : nat) (o : Quality.option_el) :
  Quality.populateQualitySelector levels !! j = Some o ->
  (j = 0%nat /\ o = Quality.Option (code_units "-1") (code_units "Auto") true)
  \/ exists (i : nat) (l : Quality.level),
       j = S i /\ levels !! i = Some l
       /\ Quality.value o = toString (Z.of_nat i) /\ Quality.selected o = false.
Proof.
  unfold Quality.populateQualitySelector. destruct j as [|i]; simpl.
  - intros [= <-]. left. auto.
  - rewrite list_lookup_imap. destruct (levels !! i) as [l|] eqn:E; [|discriminate].
    simpl. intros [= <-]. right. exists i, l. auto.
Qed.

Lemma array_get_nat {A : Type} (l : list A) (i : nat) :
  array_get l (num (Z.of_nat i)) = l !! i.
Proof.
  unfold array_get, num. rewrite Qfloor_Z, Nat2Z.id.
  rewrite (proj2 (Qeq_bool_iff _ _)) by reflexivity.
  rewrite (proj2 (Qle_bool_iff 0 _)); [reflexivity|].
  change (inject_Z 0 <= inject_Z (Z.of_nat i))%Q. rewrite <- Zle_Qle. lia.
Qed.

Lemma num_eqb_nat_auto (i : nat) :
  num_eqb (num (Z.of_nat i)) (num (-1)) = false.
Proof.
  unfold num_eqb, num. destruct (Qeq_bool _ _) eqn:E; [|reflexivity].
  apply Qeq_bool_iff in E. apply (proj1 (inject_Z_injective _ _)) in E. lia.
Qed.

(** X21. The quality menu and its listener fit together:
    [populateQualitySelector] builds one option more than there are levels,
    of which only the first (Auto) is selected, and choosing the option at
    position [j] makes the [change] listener end normally, without reading a
    missing level, with [hls.currentLevel] set to [j - 1] (that is -1 for
    Auto and [k] for the option of level [k]). *)
Theorem quality_menu_selects (levels : list Quality.level) (j : nat)
  (o : Quality.option_el) :
  Quality.populateQualitySelector levels !! j = Some o ->
  length (Quality.populateQualitySelector levels) = S (length levels)
  /\ (Quality.selected o = true <-> j = 0%nat)
  /\ Quality.on_change (Quality.value o) levels
     = Quality.Done (num (Z.of_nat j - 1)).
Proof.
  intros Ho. split.
  { unfold Quality.populateQualitySelector. cbn [length]. rewrite length_imap.
    reflexivity. }
  apply populate_lookup in Ho as [[-> ->]|(i & l & -> & Hl & Hv & Hs)].
  - split; [split; reflexivity | reflexivity].
  - split; [rewrite Hs; split; [discriminate | lia]|].
    unfold Quality.on_change. rewrite Hv, parseInt_auto_toString.
    rewrite num_eqb_nat_auto, array_get_nat, Hl.
    f_equal. f_equal. lia.
Qed.

Lemma quality_menu_selects_witness :
  Quality.on_change (code_units "1")
    [Quality.Level (num 64000); Quality.Level (num 128000)]
  = Quality.Done (num 1).
Proof.
  apply (quality_menu_selects
           [Quality.Level (num 64000); Quality.Level (num 128000)] 2%nat
           (Quality.Option (code_units "1") (code_units "128kbps") false)).
  reflexivity.
Defined.

(** X22. Outside the range of the levels the [change] listener fails: for a
    value that reads as an integer [k] with [k >= length levels] (and below
    2^53, so that it is read exactly), it sets [hls.currentLevel] to [k] and
    then ends with the TypeError of reading the bitrate of a missing level. *)
Theorem quality_change_out_of_range (levels : list Quality.level) (k : nat) :
  (length levels <= k)%nat ->
  (Z.of_nat k < 2 ^ 53)%Z ->
  Quality.on_change (toString (Z.of_nat k)) levels
  = Quality.TypeError (num (Z.of_nat k)).
Proof.
  intros Hk _. unfold Quality.on_change.
  rewrite parseInt_auto_toString, num_eqb_nat_auto, array_get_nat.
  rewrite (proj2 (lookup_ge_None _ _)) by exact Hk. reflexivity.
Qed.

Lemma quality_change_out_of_range_witness :
  Quality.on_change (code_units "2")
    [Quality.Level (num 64000); Quality.Level (num 128000)]
  = Quality.TypeError (num 2).
Proof.
  apply (quality_change_out_of_range
           [Quality.Level (num 64000); Quality.Level (num 128000)] 2%nat).
  - simpl. lia.
  - reflexivity.
Defined.

(** X23. [updateQualityDisplay] always names an option of the menu: for a
    level index within the levels, the string it assigns to the selector is
    the value of the Auto option when [hls.currentLevel] is -1, and the
    value of the option of that level otherwise. *)
Theorem quality_display_names_option (levels : list Quality.level)
  (currentLevel : number) (levelIndex : nat) :
  (levelIndex < length levels)%nat ->
  exists o : Quality.option_el,
    Quality.populateQualitySelector levels
      !! (if num_eqb currentLevel (num (-1)) then 0%nat else S levelIndex)
    = Some o
    /\ Quality.value o = Quality.updateQualityDisplay currentLevel levelIndex.
Proof.
  intros Hl. unfold Quality.updateQualityDisplay, Quality.populateQualitySelector.
  destruct (num_eqb currentLevel (num (-1))).
  - eexists. split; reflexivity.
  - destruct (levels !! levelIndex) as [l|] eqn:E;
      [|apply lookup_ge_None in E; lia].
    exists (Quality.Option (toString (Z.of_nat levelIndex))
              (number_toString (Quality.kbps l) ++ code_units "kbps") false).
    split; [|reflexivity].
    change (imap (fun index l0 =>
                    Quality.Option (toString (Z.of_nat index))
                      (number_toString (Quality.kbps l0) ++ code_units "kbps")
                      false) levels !! levelIndex
            = Some (Quality.Option (toString (Z.of_nat levelIndex))
                      (number_toString (Quality.kbps l) ++ code_units "kbps") false)).
    rewrite list_lookup_imap, E. reflexivity.
Qed.

Lemma quality_display_names_option_witness :
  exists o : Quality.option_el,
    Quality.populateQualitySelector
      [Quality.Level (num 64000); Quality.Level (num 128000)] !! 2%nat = Some o
    /\ Quality.value o = code_units "1".
Proof.
  apply (quality_display_names_option
           [Quality.Level (num 64000); Quality.Level (num 128000)] (num 1) 1%nat).
  simpl. lia.
Defined.
